(** * Session player (lib/client, package client): playback state machine

    A shallow embedding of [sessionPlayer]: the mutable fields guarded by the
    embedded [sync.Mutex], the playback goroutine and the public operations
    [Play], [Stopped], [Rewind], [Forward] and [TogglePause].

    Every method is written in continuation-passing style over a small
    command type [Prog], one command per shared-memory or I/O action of the
    Go code.  A thread-local step function [tstep] gives the meaning of one
    command; [World] interleaves threads under an explicit schedule. *)

From stdpp Require Import base list strings pretty.
From Stdlib Require Import ZArith Lia Ascii Sorted.

Local Open Scope Z_scope.

(** ** Machine integers and durations *)

(** Go's [int] and [time.Duration] on a 64-bit platform: two's complement
    wrap-around of [+], [-] and [*], written out where the operands come
    from the recording (timestamps, byte offsets).  Event indices and
    [position] stay between -1 and the length of the event slice plus 2, and
    are plain integers. *)
Definition wrap64 (z : Z) : Z := (z + 2 ^ 63) `mod` 2 ^ 64 - 2 ^ 63.

(** [time.Millisecond] and [time.Second], in nanoseconds. *)
Definition Millisecond : Z := 1000000.
Definition Second : Z := 1000000000.

(** ** Data model *)

(** const ( stateStopped = iota; stateStopping; statePlaying ) *)
Inductive PlayerState : Set := stateStopped | stateStopping | statePlaying.

Global Instance PlayerState_eq_dec : EqDecision PlayerState.
Proof. solve_decision. Defined.

(** Modelled from the spec: the event-type constants of lib/events
    ([events.SessionPrintEvent], [events.ResizeEvent],
    [events.SessionStartEvent]) are not part of the sources at hand; the
    [switch] of [playRange] only distinguishes these three values from
    every other one, which is the spec's
    kind ∈ {Print, Resize, SessionStart, Other}. *)
Inductive EventKind : Set :=
  SessionPrintEvent | ResizeEvent | SessionStartEvent | OtherEvent.

(** Modelled from the spec: [events.EventFields] and its getters are
    declared in lib/events, which is not part of the sources at hand.  The
    record holds what the getters the player calls return for one event:
    [e.GetString(events.EventType)], [e.GetInt("ms")], [e.GetInt("offset")],
    [e.GetInt("bytes")], [e.GetString("size")], [e.GetString("time")]
    (the spec's kind, offsetMs, byteOffset, byteLength and size). *)
Record EventFields : Set := mkEvent {
  ev_type : EventKind;
  ev_ms : Z;
  ev_offset : Z;
  ev_bytes : Z;
  ev_size : string;
  ev_time : string
}.

(** The fields of [sessionPlayer] that never change after
    [newSessionPlayer]: [stream] (its bytes up to the capacity of the
    slice), [sessionEvents], and what [term.Size()] answers ([None] when it
    returns an error). *)
Record Config : Set := mkConfig {
  stream : string;
  sessionEvents : list EventFields;
  termWidth : option Z
}.

(** The mutable fields of [sessionPlayer]: the embedded mutex, [state],
    [position], the done flag of [stopOnce] and the number of times
    [close(p.stopC)] has been executed. *)
Record Shared : Set := mkShared {
  mu : bool;
  state : PlayerState;
  position : Z;
  stopOnce : bool;
  stopC : nat
}.

(** What a thread does to the outside world: [os.Stdout.Write] /
    [os.Stdout.WriteString] and [p.clock.Sleep]. *)
Inductive IO : Set :=
| StdoutWrite (bytes : string)
| ClockSleep (d : Z).

(** ** Commands *)

(** One constructor per action on the shared player or the outside world;
    the last argument is what the thread does next.  [WaitUntil] is the loop
    of [waitUntil] ([for state != p.state { p.cond.Wait() }]); [Parked] is a
    thread asleep inside [cond.Wait]. *)
Inductive Prog : Type :=
| Done
| Panic
| Lock (k : Prog)
| Unlock (k : Prog)
| LoadState (k : PlayerState → Prog)
| StoreState (s : PlayerState) (k : Prog)
| CondBroadcast (k : Prog)
| WaitUntil (s : PlayerState) (k : Prog)
| Parked (k : Prog)
| LoadPosition (k : Z → Prog)
| StorePosition (i : Z) (k : Prog)
| OnceDo (f : Shared → Shared) (k : Prog)
| Perform (io : IO) (k : Prog)
| Go (g : Prog) (k : Prog).

(** What one step of a thread shows. *)
Inductive Label : Type :=
| LLock
| LUnlock
| LLoadState (s : PlayerState)
| LStoreState (s : PlayerState)
| LBroadcast
| LWaitPass (s : PlayerState)
| LWaitPark (s : PlayerState)
| LWake
| LLoadPosition (i : Z)
| LStorePosition (i : Z)
| LOnceRun (f : Shared → Shared)
| LOnceSkip
| LPerform (io : IO)
| LGo (g : Prog).

Inductive StepResult : Type :=
| Next (l : Label) (p : Prog)
| Blocked
| Halted
| Fatal.

Definition set_mu (b : bool) (sh : Shared) : Shared :=
  mkShared b (state sh) (position sh) (stopOnce sh) (stopC sh).
Definition set_state (s : PlayerState) (sh : Shared) : Shared :=
  mkShared (mu sh) s (position sh) (stopOnce sh) (stopC sh).
Definition set_position (i : Z) (sh : Shared) : Shared :=
  mkShared (mu sh) (state sh) i (stopOnce sh) (stopC sh).
Definition set_stopOnce (sh : Shared) : Shared :=
  mkShared (mu sh) (state sh) (position sh) true (stopC sh).

(** [close(p.stopC)]. *)
Definition closeStopC (sh : Shared) : Shared :=
  mkShared (mu sh) (state sh) (position sh) (stopOnce sh) (S (stopC sh)).

(** The change a step makes to the shared fields. *)
Definition effect (l : Label) (sh : Shared) : Shared :=
  match l with
  | LLock => set_mu true sh
  | LUnlock => set_mu false sh
  | LStoreState s => set_state s sh
  | LWaitPark _ => set_mu false sh
  | LStorePosition i => set_position i sh
  | LOnceRun f => set_stopOnce (f sh)
  | _ => sh
  end.

(** One step of a thread on the shared fields [sh].
    - [Lock] of a held [sync.Mutex] blocks (the mutex is not reentrant);
    - [Unlock] of a free mutex is Go's fatal "unlock of unlocked mutex";
    - [WaitUntil s] returns when [state] is [s]; otherwise [cond.Wait]
      releases the mutex and parks the thread, which on wake-up takes the
      mutex again and re-tests;
    - [OnceDo f] runs [f] unless the [sync.Once] was used before. *)
Definition tstep (p : Prog) (sh : Shared) : StepResult :=
  match p with
  | Done => Halted
  | Panic => Fatal
  | Lock k => if mu sh then Blocked else Next LLock k
  | Unlock k => if mu sh then Next LUnlock k else Fatal
  | LoadState k => Next (LLoadState (state sh)) (k (state sh))
  | StoreState s k => Next (LStoreState s) k
  | CondBroadcast k => Next LBroadcast k
  | WaitUntil s k =>
      if decide (s = state sh) then Next (LWaitPass s) k
      else if mu sh then Next (LWaitPark s) (Parked (Lock (WaitUntil s k)))
      else Fatal
  | Parked _ => Blocked
  | LoadPosition k => Next (LLoadPosition (position sh)) (k (position sh))
  | StorePosition i k => Next (LStorePosition i) k
  | OnceDo f k => if stopOnce sh then Next LOnceSkip k else Next (LOnceRun f) k
  | Perform io k => Next (LPerform io) k
  | Go g k => Next (LGo g) k
  end.

Declare Scope prog_scope.
Delimit Scope prog_scope with prog.
Notation "c ;; k" := (c k%prog)
  (at level 100, k at level 200, right associativity, only parsing) : prog_scope.
Notation "x <- c ;; k" := (c (fun x => k%prog))
  (at level 100, c at next level, k at level 200, right associativity,
   only parsing) : prog_scope.

(** ** The methods of sessionPlayer *)

Section Player.
Context (cfg : Config).

Local Open Scope prog_scope.

(** len(p.sessionEvents) *)
Definition nEvents : Z := Z.of_nat (length (sessionEvents cfg)).

(** setState: lines 136-139. *)
Definition setState (s : PlayerState) (k : Prog) : Prog :=
  StoreState s ;; CondBroadcast ;; k.

(** waitUntil: lines 127-131. *)
Definition waitUntil (s : PlayerState) (k : Prog) : Prog :=
  WaitUntil s ;; k.

(** notifyStopped: p.stopOnce.Do(func() { close(p.stopC) }) *)
Definition notifyStopped (k : Prog) : Prog :=
  OnceDo closeStopC ;; k.

(** Stopped: the result is read under the lock, which the deferred
    Unlock releases before the caller gets it. *)
Definition Stopped (k : bool → Prog) : Prog :=
  Lock ;; s <- LoadState ;; Unlock ;; k (bool_decide (s = stateStopped)).

(** stopRequested: lines 95-99. *)
Definition stopRequested (k : bool → Prog) : Prog :=
  Lock ;; s <- LoadState ;; Unlock ;; k (bool_decide (s = stateStopping)).

(** The byte "\x1b". *)
Definition ESC : Ascii.ascii := Ascii.ascii_of_nat 27.

(** esc inside timestampFrame: os.Stdout.Write([]byte("\x1b" + s)) *)
Definition esc (s : string) (k : Prog) : Prog :=
  Perform (StdoutWrite (String ESC s)) ;; k.

Definition saveCursor : string := "7".
Definition restoreCursor : string := "8".

(** timestampFrame: lines 143-163.  [String.length] is Go's [len] of a
    string (a count of bytes); the deferred esc(restoreCursor) runs last. *)
Definition timestampFrame (message : string) (k : Prog) : Prog :=
  match termWidth cfg with
  | None => k
  | Some width =>
      esc saveCursor ;;
      esc ("[" +:+ pretty 0 +:+ ";" +:+
           pretty (width - Z.of_nat (String.length message)) +:+ "f") ;;
      Perform (StdoutWrite message) ;;
      esc restoreCursor ;;
      k
  end.

(** time.Duration(e.GetInt("ms") * int(time.Millisecond)) *)
Definition eventTime (e : EventFields) : Z := wrap64 (ev_ms e * Millisecond).

(** The [switch] of applyDelay, lines 241-250 ("make playback smoother");
    the cases are tried in order and a delay no case matches is kept. *)
Definition smoothDelay (delay : Z) : Z :=
  if delay <? 10 * Millisecond then 0
  else if (delay >? 250 * Millisecond) && (delay <? 500 * Millisecond)
    then 250 * Millisecond
  else if (delay >? 500 * Millisecond) && (delay <? 1 * Second)
    then 500 * Millisecond
  else if delay >? Second then Second
  else delay.

(** applyDelay: lines 236-255.  [previousTimestamp] is the local [prev] of
    the playback goroutine; the new value is handed to the continuation. *)
Definition applyDelay (previousTimestamp : Z) (e : EventFields)
    (k : Z → Prog) : Prog :=
  let eventTime := eventTime e in
  let delay := wrap64 (eventTime - previousTimestamp) in
  let delay := smoothDelay delay in
  timestampFrame (ev_time e) ;;
  Perform (ClockSleep delay) ;;
  k eventTime.

(** p.stream[low : high]: Go panics unless 0 <= low <= high <= cap. *)
Definition sliceBytes (s : string) (low high : Z) : option string :=
  if (0 <=? low) && (low <=? high) && (high <=? Z.of_nat (String.length s))
  then Some (String.substring (Z.to_nat low) (Z.to_nat (high - low)) s)
  else None.

(** strings.Split(s, ":") *)
Fixpoint splitColon (s : string) : list string :=
  match s with
  | EmptyString => [EmptyString]
  | String c rest =>
      if Ascii.eqb c ":"%char then EmptyString :: splitColon rest
      else match splitColon rest with
           | part :: parts => String c part :: parts
           | [] => [String c EmptyString]
           end
  end.

(** How the [for] loop of the playback goroutine is left: the condition
    [i < to] fails with loop index [i], the [return] after stopRequested,
    or a run-time panic (slice or index out of range). *)
Inductive LoopExit : Set :=
| FellThrough (i : Z)
| Returned
| Faulted.

(** The loop of the playback goroutine, lines 196-226, with [n] iterations
    left ([to - i]); [continue] and the end of the body both go to [i++]. *)
Fixpoint playLoop (from : Z) (n : nat) (i : Z) (prev : Z)
    (k : LoopExit → Prog) : Prog :=
  match n with
  | O => k (FellThrough i)
  | S n' =>
      stop <- stopRequested ;;
      if stop : bool then k Returned else
      match sessionEvents cfg !! Z.to_nat i with
      | None => k Faulted
      | Some e =>
          match ev_type e with
          | SessionPrintEvent =>
              prev' <- (if from <=? i then applyDelay prev e
                        else fun k' => k' prev) ;;
              let offset := ev_offset e in
              let bytes := ev_bytes e in
              match sliceBytes (stream cfg) offset (wrap64 (offset + bytes)) with
              | None => k Faulted
              | Some data =>
                  Perform (StdoutWrite data) ;;
                  StorePosition i ;;
                  playLoop from n' (i + 1) prev' k
              end
          | ResizeEvent | SessionStartEvent =>
              match splitColon (ev_size e) with
              | [width; height] =>
                  Perform (StdoutWrite
                    (String ESC ("[8;" +:+ height +:+ ";" +:+ width +:+ "t"))) ;;
                  StorePosition i ;;
                  playLoop from n' (i + 1) prev k
              | _ => playLoop from n' (i + 1) prev k
              end
          | OtherEvent => playLoop from n' (i + 1) prev k
          end
      end
  end.

(** The first [defer] of the playback goroutine: lines 184-188. *)
Definition deferredStopped (k : Prog) : Prog :=
  Lock ;; setState stateStopped ;; Unlock ;; k.

(** The playback goroutine, lines 183-232.  Deferred calls run last in,
    first out: notifyStopped, deferred after the loop, runs before the
    state update deferred first.  A panic runs the deferred state update and
    then ends the program. *)
Definition playback (from to : Z) : Prog :=
  Lock ;; setState statePlaying ;; Unlock ;;
  r <- playLoop from (Z.to_nat to) 0 0 ;;
  match r with
  | FellThrough i =>
      if decide (i = nEvents) then notifyStopped ;; deferredStopped ;; Done
      else deferredStopped ;; Done
  | Returned => deferredStopped ;; Done
  | Faulted => deferredStopped ;; Panic
  end.

(** playRange: lines 169-233. *)
Definition playRange (from to : Z) (k : Prog) : Prog :=
  if (to >? nEvents) || (from <? 0) then
    Lock ;; setState stateStopped ;; Unlock ;; k
  else
    let to := if to =? 0 then nEvents else to in
    Perform (StdoutWrite (String ESC "c")) ;;
    Go (playback from to) ;;
    k.

(** Play: lines 69-71. *)
Definition Play (k : Prog) : Prog := playRange 0 0 ;; k.

(** Rewind: lines 83-93; the deferred Unlock runs on return.  Each
    [p.position] in the source is a load of its own. *)
Definition Rewind (k : Prog) : Prog :=
  Lock ;;
  s <- LoadState ;;
  (if decide (s ≠ stateStopped)
   then fun k' => setState stateStopping ;; waitUntil stateStopped ;; k'
   else fun k' => k') ;;
  pos <- LoadPosition ;;
  if pos >? 0 then
    pos1 <- LoadPosition ;;
    pos2 <- LoadPosition ;;
    playRange (pos1 - 1) pos2 ;;
    Unlock ;; k
  else Unlock ;; k.

(** Forward: lines 101-111. *)
Definition Forward (k : Prog) : Prog :=
  Lock ;;
  s <- LoadState ;;
  (if decide (s ≠ stateStopped)
   then fun k' => setState stateStopping ;; waitUntil stateStopped ;; k'
   else fun k' => k') ;;
  pos <- LoadPosition ;;
  if pos <? nEvents then
    pos1 <- LoadPosition ;;
    pos2 <- LoadPosition ;;
    playRange (pos1 + 2) (pos2 + 2) ;;
    Unlock ;; k
  else Unlock ;; k.

(** TogglePause: lines 113-123. *)
Definition TogglePause (k : Prog) : Prog :=
  Lock ;;
  s <- LoadState ;;
  if decide (s = statePlaying) then
    setState stateStopping ;; waitUntil stateStopped ;; Unlock ;; k
  else
    pos <- LoadPosition ;;
    playRange (pos + 1) 0 ;;
    waitUntil statePlaying ;;
    Unlock ;; k.

End Player.

(** newSessionPlayer: lines 56-67; a fresh mutex, state 0 (stateStopped),
    position -1, an unused Once and an open channel. *)
Definition newSessionPlayer : Shared :=
  mkShared false stateStopped (-1) false 0.

(** ** Executions *)

(** A thread running with nobody else: each step sees the shared fields as
    the step before left them.  A blocked or parked thread stays so. *)
Inductive solo : Prog → Shared → list (Shared * Label) → Prog → Shared → Prop :=
| solo_stop p sh : solo p sh [] p sh
| solo_step p sh l p1 tr p' sh' :
    tstep p sh = Next l p1 →
    solo p1 (effect l sh) tr p' sh' →
    solo p sh ((sh, l) :: tr) p' sh'.

(** The same as a function, for [fuel] steps at most. *)
Fixpoint soloRun (fuel : nat) (p : Prog) (sh : Shared)
    : list (Shared * Label) * Prog * Shared :=
  match fuel with
  | O => ([], p, sh)
  | S fuel' =>
      match tstep p sh with
      | Next l p1 =>
          let '(tr, p', sh') := soloRun fuel' p1 (effect l sh) in
          ((sh, l) :: tr, p', sh')
      | _ => ([], p, sh)
      end
  end.

(** A thread among others: after each of its steps the other threads may
    change the shared fields as [R] allows, and a broadcast of theirs wakes
    it when it is parked.  Each entry of the trace is the step taken and
    the shared fields it was taken on. *)
Inductive texec (R : Shared → Shared → Prop)
    : Prog → Shared → list (Shared * Label) → Prog → Shared → Prop :=
| texec_stop p sh : texec R p sh [] p sh
| texec_step p sh l p1 sh1 tr p' sh' :
    tstep p sh = Next l p1 →
    R (effect l sh) sh1 →
    texec R p1 sh1 tr p' sh' →
    texec R p sh ((sh, l) :: tr) p' sh'
| texec_wake k sh sh1 tr p' sh' :
    R sh sh1 →
    texec R k sh1 tr p' sh' →
    texec R (Parked k) sh ((sh, LWake) :: tr) p' sh'.

(** Any interference at all. *)
Definition anyEnv : Shared → Shared → Prop := λ _ _, True.

Definition labels (tr : list (Shared * Label)) : list Label := snd <$> tr.

(** The writes and sleeps of a trace, in order. *)
Fixpoint ios (tr : list (Shared * Label)) : list IO :=
  match tr with
  | [] => []
  | (_, LPerform io) :: tr' => io :: ios tr'
  | _ :: tr' => ios tr'
  end.

(** The durations handed to clock.Sleep, in order. *)
Fixpoint sleeps (l : list IO) : list Z :=
  match l with
  | [] => []
  | ClockSleep d :: l' => d :: sleeps l'
  | _ :: l' => sleeps l'
  end.

(** The goroutines launched, in order. *)
Fixpoint launched (tr : list (Shared * Label)) : list Prog :=
  match tr with
  | [] => []
  | (_, LGo g) :: tr' => g :: launched tr'
  | _ :: tr' => launched tr'
  end.

(** The values stopRequested (or any other load of [state]) saw. *)
Fixpoint loadedStates (tr : list (Shared * Label)) : list PlayerState :=
  match tr with
  | [] => []
  | (_, LLoadState s) :: tr' => s :: loadedStates tr'
  | _ :: tr' => loadedStates tr'
  end.

(** Did the trace execute close(p.stopC)? *)
Definition isOnceRun (l : Label) : bool :=
  match l with LOnceRun _ => true | _ => false end.
Definition fired (tr : list (Shared * Label)) : bool :=
  existsb (λ x, isOnceRun (snd x)) tr.

(** ** The whole program: threads under a schedule *)

Record World : Type := mkWorld {
  shared : Shared;
  threads : list Prog;
  crashed : bool
}.

(** cond.Broadcast wakes every thread parked in cond.Wait. *)
Definition wake (p : Prog) : Prog :=
  match p with Parked k => k | _ => p end.

Definition after (l : Label) (ths : list Prog) : list Prog :=
  match l with
  | LGo g => ths ++ [g]
  | LBroadcast => wake <$> ths
  | _ => ths
  end.

(** Thread [t] takes one step; [None] when it cannot (no such thread, it
    has returned, it is blocked or parked, or the program has died). *)
Definition step (t : nat) (w : World) : option World :=
  if crashed w then None else
  match threads w !! t with
  | None => None
  | Some p =>
      match tstep p (shared w) with
      | Next l p' =>
          Some (mkWorld (effect l (shared w)) (after l (<[t := p']> (threads w)))
                        false)
      | Fatal => Some (mkWorld (shared w) (threads w) true)
      | Blocked | Halted => None
      end
  end.

(** A schedule names the thread to step next; a thread that cannot step
    when named is passed over. *)
Fixpoint run (sched : list nat) (w : World) : World :=
  match sched with
  | [] => w
  | t :: sched' => run sched' (default w (step t w))
  end.

(** No thread can take a step. *)
Definition stuck (w : World) : Prop := ∀ t, step t w = None.

(** The public operations a caller may issue. *)
Inductive Op : Set := OpPlay | OpStopped | OpRewind | OpForward | OpTogglePause.

Definition call (cfg : Config) (o : Op) (k : Prog) : Prog :=
  match o with
  | OpPlay => Play cfg k
  | OpStopped => Stopped (λ _, k)
  | OpRewind => Rewind cfg k
  | OpForward => Forward cfg k
  | OpTogglePause => TogglePause cfg k
  end.

(** A caller issuing operations one after the other. *)
Definition caller (cfg : Config) (ops : list Op) : Prog :=
  foldr (call cfg) Done ops.

(** A fresh player and its callers. *)
Definition initWorld (cfg : Config) (callers : list (list Op)) : World :=
  mkWorld newSessionPlayer (caller cfg <$> callers) false.

(** ** What a playback puts on the terminal *)

Section Rendering.
Context (cfg : Config).

(** A print event whose byte range lies inside the stream. *)
Definition inBounds (e : EventFields) : bool :=
  match ev_type e with
  | SessionPrintEvent =>
      bool_decide (is_Some (sliceBytes (stream cfg) (ev_offset e)
                              (wrap64 (ev_offset e + ev_bytes e))))
  | _ => true
  end.

(** The bytes one event puts on the terminal: the byte range of a print
    event, the resize sequence of a resize or session start whose size
    has the form width:height, nothing otherwise. *)
Definition rendered (e : EventFields) : list IO :=
  match ev_type e with
  | SessionPrintEvent =>
      match sliceBytes (stream cfg) (ev_offset e)
              (wrap64 (ev_offset e + ev_bytes e)) with
      | Some data => [StdoutWrite data]
      | None => []
      end
  | ResizeEvent | SessionStartEvent =>
      match splitColon (ev_size e) with
      | [width; height] =>
          [StdoutWrite (String ESC ("[8;" +:+ height +:+ ";" +:+ width +:+ "t"))]
      | _ => []
      end
  | OtherEvent => []
  end.

(** An event after which the loop reaches [p.position = i]. *)
Definition played (e : EventFields) : bool :=
  match ev_type e with
  | SessionPrintEvent => true
  | ResizeEvent | SessionStartEvent =>
      match splitColon (ev_size e) with
      | [_; _] => true
      | _ => false
      end
  | OtherEvent => false
  end.

(** The timestamp overlay of an event. *)
Definition overlay (message : string) : list IO :=
  match termWidth cfg with
  | None => []
  | Some width =>
      [StdoutWrite (String ESC saveCursor);
       StdoutWrite (String ESC ("[" +:+ pretty 0 +:+ ";" +:+
           pretty (width - Z.of_nat (String.length message)) +:+ "f"));
       StdoutWrite message;
       StdoutWrite (String ESC restoreCursor)]
  end.

(** The rendering the playback algorithm is to produce for events before
    the pacing start: each one written at once, back to back. *)
Definition renderInstant (es : list EventFields) : list IO :=
  flat_map rendered es.

(** The rendering the playback algorithm is to produce from the pacing
    start on: before a print event, the overlay and a sleep of the
    smoothed distance to the previous delayed event ([prev], 0 at the
    start). *)
Fixpoint renderPaced (prev : Z) (es : list EventFields) : list IO :=
  match es with
  | [] => []
  | e :: es' =>
      match ev_type e with
      | SessionPrintEvent =>
          overlay (ev_time e) ++
          ClockSleep (smoothDelay (wrap64 (eventTime e - prev))) ::
          rendered e ++ renderPaced (eventTime e) es'
      | _ => rendered e ++ renderPaced prev es'
      end
  end.

(** The index of the last event played among [es], which start at index
    [i]; [pos] when there is none. *)
Fixpoint lastPlayed (es : list EventFields) (i : Z) (pos : Z) : Z :=
  match es with
  | [] => pos
  | e :: es' => lastPlayed es' (i + 1) (if played e then i else pos)
  end.

End Rendering.

(** A solo execution, seen from outside: what it writes and sleeps. *)
Definition runs (p : Prog) (sh : Shared) (io : list IO) (p' : Prog)
    (sh' : Shared) : Prop :=
  ∃ tr, solo p sh tr p' sh' ∧ ios tr = io.

(** Programs in which sync.Once.Do is only ever handed the function
    that closes [stopC], also in the goroutines they launch. *)
Inductive closesOnce : Prog → Prop :=
| co_Done : closesOnce Done
| co_Panic : closesOnce Panic
| co_Lock k : closesOnce k → closesOnce (Lock k)
| co_Unlock k : closesOnce k → closesOnce (Unlock k)
| co_LoadState k : (∀ s, closesOnce (k s)) → closesOnce (LoadState k)
| co_StoreState s k : closesOnce k → closesOnce (StoreState s k)
| co_CondBroadcast k : closesOnce k → closesOnce (CondBroadcast k)
| co_WaitUntil s k : closesOnce k → closesOnce (WaitUntil s k)
| co_Parked k : closesOnce k → closesOnce (Parked k)
| co_LoadPosition k : (∀ i, closesOnce (k i)) → closesOnce (LoadPosition k)
| co_StorePosition i k : closesOnce k → closesOnce (StorePosition i k)
| co_OnceDo k : closesOnce k → closesOnce (OnceDo closeStopC k)
| co_Perform io k : closesOnce k → closesOnce (Perform io k)
| co_Go g k : closesOnce g → closesOnce k → closesOnce (Go g k).

(** The Once and the channel agree: closed once exactly when the Once was
    used, open otherwise. *)
Definition onceInv (sh : Shared) : Prop :=
  stopC sh = if stopOnce sh then 1%nat else 0%nat.

(** A stretch of a trace with no load of [state] and no close of the
    channel in it. *)
Definition quiet (tr : list (Shared * Label)) : Prop :=
  fired tr = false ∧ loadedStates tr = [].

(** The steps of a thread that waits in waitUntil. *)
Definition waitingLabel (s : PlayerState) (l : Label) : Prop :=
  l = LWaitPark s ∨ l = LWake ∨ l = LLock.

(** The value of [state] a step loads, if it is a load. *)
Definition loadOf (l : Label) : list PlayerState :=
  match l with LLoadState s => [s] | _ => [] end.

(** What is known of a stretch [tr1] of trace over which the loop, entered
    at index [i] with [n] iterations to go, was left as [r] says: through
    its condition only at index [i + n], after [n] calls of stopRequested
    none of which saw stateStopping. *)
Definition loopExitOK (r : LoopExit) (i : Z) (n : nat)
    (tr1 : list (Shared * Label)) : Prop :=
  match r with
  | FellThrough j =>
      j = i + Z.of_nat n
      ∧ (stateStopping ∉ loadedStates tr1)
      ∧ length (loadedStates tr1) = n
  | _ => True
  end.

(** A trace [tr] of the loop followed by [k]: either it has not closed the
    channel, or it splits into a stretch inside the loop, which has not,
    and an execution of [k] on the way the loop was left. *)
Definition loopOutcome (R : Shared → Shared → Prop) (k : LoopExit → Prog)
    (p' : Prog) (sh' : Shared) (i : Z) (n : nat)
    (tr : list (Shared * Label)) : Prop :=
  fired tr = false
  ∨ ∃ r tr1 tr2 sh1,
      tr = tr1 ++ tr2 ∧ fired tr1 = false
      ∧ texec R (k r) sh1 tr2 p' sh' ∧ loopExitOK r i n tr1.

(** ** Sample recordings *)

(** A short session: start, two outputs 100 ms apart, and an event the
    player has no case for at the end. *)
Definition cfgDemo : Config :=
  mkConfig "hello world"
    [ mkEvent SessionStartEvent 0 0 0 "80:25" "t0";
      mkEvent SessionPrintEvent 100 0 5 "" "t1";
      mkEvent SessionPrintEvent 200 5 6 "" "t2";
      mkEvent OtherEvent 300 0 0 "" "t3" ]
    (Some 80).


(** One output event. *)
Definition cfgOne : Config :=
  mkConfig "x" [ mkEvent SessionPrintEvent 100 0 1 "" "t0" ] None.

(** The recordings of the package's own tests (TestEmptyPlay,
    TestPlayPause): no events; three outputs at 100, 200 and 300 ms with
    empty byte ranges.  The test terminal has no size to report. *)
Definition cfgEmpty : Config := mkConfig "" [] None.

Definition cfgTest : Config :=
  mkConfig ""
    [ mkEvent SessionPrintEvent 100 0 0 "" "";
      mkEvent SessionPrintEvent 200 0 0 "" "";
      mkEvent SessionPrintEvent 300 0 0 "" "" ]
    None.

(** What the step of thread [t] writes or sleeps, if anything. *)
Definition performed (t : nat) (w : World) : list IO :=
  if crashed w then [] else
  match threads w !! t with
  | Some p =>
      match tstep p (shared w) with
      | Next (LPerform io) _ => [io]
      | _ => []
      end
  | None => []
  end.

(** The writes and sleeps of a run, in order. *)
Fixpoint output (sched : list nat) (w : World) : list IO :=
  match sched with
  | [] => []
  | t :: sched' => performed t w ++ output sched' (default w (step t w))
  end.

(** TestPlayPause: thread 0 is the test calling Play and, later,
    TogglePause; thread 1 is its hand-made stop request
    (p.Lock(); p.setState(stateStopping); p.Unlock()). *)
Definition testPlayPause : World :=
  mkWorld newSessionPlayer
    [caller cfgTest [OpPlay; OpTogglePause];
     Lock (setState stateStopping (Unlock Done))]
    false.

(** Play; the goroutine (thread 2) up to its sleep before the second
    event; the stop request; the goroutine to its end.  Then TogglePause up
    to its wait; the new goroutine (thread 3) until it has set
    statePlaying; TogglePause returns; the goroutine runs to its end. *)
Definition testPlayPausePaused : list nat :=
  [0; 0]%nat ++ replicate 14 2%nat ++ replicate 4 1%nat ++ replicate 9 2%nat.

Definition testPlayPauseResumed : list nat :=
  testPlayPausePaused ++ replicate 6 0%nat ++ replicate 4 3%nat
  ++ replicate 3 0%nat.

Definition testPlayPauseSchedule : list nat :=
  testPlayPauseResumed ++ replicate 21 3%nat.

(** A caller that plays the one-event recording and then calls Forward. *)
Definition playThenForward : World :=
  initWorld cfgOne [[OpPlay; OpForward]].

(** Play runs (2 steps), the playback goroutine runs to its end
    (15 steps), then Forward runs as far as it can. *)
Definition playThenForwardSchedule : list nat :=
  [0; 0]%nat ++ replicate 15 1%nat ++ replicate 5 0%nat.

(** ** Notions for the properties of the whole player *)

(** The number of ':' bytes of a string. *)
Fixpoint countColons (s : string) : nat :=
  match s with
  | EmptyString => 0%nat
  | String c rest =>
      ((if Ascii.eqb c ":"%char then 1 else 0) + countColons rest)%nat
  end.

(** strings.Join(parts, ":"), which undoes strings.Split(s, ":"). *)
Fixpoint joinColon (parts : list string) : string :=
  match parts with
  | [] => EmptyString
  | part :: parts' =>
      match parts' with
      | [] => part
      | _ :: _ => part +:+ String ":"%char (joinColon parts')
      end
  end.

(** The sum of a list of durations. *)
Definition sumZ (l : list Z) : Z := foldr Z.add 0 l.

Definition isPrint (e : EventFields) : bool :=
  match ev_type e with SessionPrintEvent => true | _ => false end.

(** The largest "ms" whose product with time.Millisecond fits an int64. *)
Definition maxMs : Z := 9223372036854.

(** Print events stamped in order from [prev] on, with "ms" values whose
    conversion to a time.Duration does not overflow. *)
Fixpoint chronological (prev : Z) (es : list EventFields) : bool :=
  match es with
  | [] => true
  | e :: es' =>
      if isPrint e
      then (prev <=? ev_ms e) && (ev_ms e <=? maxMs) && chronological (ev_ms e) es'
      else chronological prev es'
  end.

(** The "ms" of the last print event of [es]; [prev] when it has none. *)
Fixpoint lastMs (prev : Z) (es : list EventFields) : Z :=
  match es with
  | [] => prev
  | e :: es' => lastMs (if isPrint e then ev_ms e else prev) es'
  end.

(** The byte strings handed to os.Stdout, in order, sleeps left out. *)
Fixpoint writes (l : list IO) : list string :=
  match l with
  | [] => []
  | StdoutWrite s :: l' => s :: writes l'
  | ClockSleep _ :: l' => writes l'
  end.

(** All the bytes written, as one string. *)
Definition written (l : list IO) : string :=
  foldr String.append EmptyString (writes l).

(** A recording of output events (and events the player has no case for)
    whose byte ranges follow one another from offset [off] to the end of
    the stream. *)
Fixpoint tiles (cfg : Config) (off : Z) (es : list EventFields) : bool :=
  match es with
  | [] => off =? Z.of_nat (String.length (stream cfg))
  | e :: es' =>
      match ev_type e with
      | SessionPrintEvent =>
          (ev_offset e =? off) && (0 <=? ev_bytes e)
          && tiles cfg (off + ev_bytes e) es'
      | OtherEvent => tiles cfg off es'
      | _ => false
      end
  end.

(** What a trace holds after the first load of [state] that saw
    stateStopping; [None] when no load saw it. *)
Fixpoint sinceStop (tr : list (Shared * Label))
    : option (list (Shared * Label)) :=
  match tr with
  | [] => None
  | (_, l) :: tr' =>
      match l with
      | LLoadState stateStopping => Some tr'
      | _ => sinceStop tr'
      end
  end.

(** Programs that only ever store the index of an event in [position]. *)
Inductive storesOK (cfg : Config) : Prog → Prop :=
| so_Done : storesOK cfg Done
| so_Panic : storesOK cfg Panic
| so_Lock k : storesOK cfg k → storesOK cfg (Lock k)
| so_Unlock k : storesOK cfg k → storesOK cfg (Unlock k)
| so_LoadState k : (∀ s, storesOK cfg (k s)) → storesOK cfg (LoadState k)
| so_StoreState s k : storesOK cfg k → storesOK cfg (StoreState s k)
| so_CondBroadcast k : storesOK cfg k → storesOK cfg (CondBroadcast k)
| so_WaitUntil s k : storesOK cfg k → storesOK cfg (WaitUntil s k)
| so_Parked k : storesOK cfg k → storesOK cfg (Parked k)
| so_LoadPosition k : (∀ i, storesOK cfg (k i)) → storesOK cfg (LoadPosition k)
| so_StorePosition i k :
    0 ≤ i < nEvents cfg → storesOK cfg k → storesOK cfg (StorePosition i k)
| so_OnceDo k : storesOK cfg k → storesOK cfg (OnceDo closeStopC k)
| so_Perform io k : storesOK cfg k → storesOK cfg (Perform io k)
| so_Go g k : storesOK cfg g → storesOK cfg k → storesOK cfg (Go g k).

(** [position] is -1 or the index of an event. *)
Definition posOK (cfg : Config) (sh : Shared) : Prop :=
  -1 ≤ position sh < Z.max 0 (nEvents cfg).

(** The discipline of the mutex: [lockOK h p] when [p] is the program of a
    thread that holds the mutex or not, as [h] says, and from there on
    unlocks it, and waits on the condition, only while it holds it.  A
    thread that holds the mutex and locks it again is stopped for good;
    nothing is asked of what would follow. *)
Inductive lockOK : bool → Prog → Prop :=
| lk_Done : lockOK false Done
| lk_Panic h : lockOK h Panic
| lk_Lock k : lockOK true k → lockOK false (Lock k)
| lk_Relock k : lockOK true (Lock k)
| lk_Unlock k : lockOK false k → lockOK true (Unlock k)
| lk_LoadState h k : (∀ s, lockOK h (k s)) → lockOK h (LoadState k)
| lk_StoreState h s k : lockOK h k → lockOK h (StoreState s k)
| lk_CondBroadcast h k : lockOK h k → lockOK h (CondBroadcast k)
| lk_WaitUntil s k : lockOK true k → lockOK true (WaitUntil s k)
| lk_Parked k : lockOK false k → lockOK false (Parked k)
| lk_LoadPosition h k : (∀ i, lockOK h (k i)) → lockOK h (LoadPosition k)
| lk_StorePosition h i k : lockOK h k → lockOK h (StorePosition i k)
| lk_OnceDo h k : lockOK h k → lockOK h (OnceDo closeStopC k)
| lk_Perform h io k : lockOK h k → lockOK h (Perform io k)
| lk_Go h g k : lockOK false g → lockOK h k → lockOK h (Go g k).

(** The mutex is held exactly when one thread, the owner, holds it; every
    thread keeps the discipline. *)
Definition lockInv (w : World) : Prop :=
  ∃ owner : option nat,
    mu (shared w) = bool_decide (is_Some owner)
    ∧ (∀ t, owner = Some t → (t < length (threads w))%nat)
    ∧ ∀ t p, threads w !! t = Some p →
             lockOK (bool_decide (owner = Some t)) p.

(** Programs that cannot reach a run-time panic. *)
Inductive noPanic : Prog → Prop :=
| np_Done : noPanic Done
| np_Lock k : noPanic k → noPanic (Lock k)
| np_Unlock k : noPanic k → noPanic (Unlock k)
| np_LoadState k : (∀ s, noPanic (k s)) → noPanic (LoadState k)
| np_StoreState s k : noPanic k → noPanic (StoreState s k)
| np_CondBroadcast k : noPanic k → noPanic (CondBroadcast k)
| np_WaitUntil s k : noPanic k → noPanic (WaitUntil s k)
| np_Parked k : noPanic k → noPanic (Parked k)
| np_LoadPosition k : (∀ i, noPanic (k i)) → noPanic (LoadPosition k)
| np_StorePosition i k : noPanic k → noPanic (StorePosition i k)
| np_OnceDo f k : noPanic k → noPanic (OnceDo f k)
| np_Perform io k : noPanic k → noPanic (Perform io k)
| np_Go g k : noPanic g → noPanic k → noPanic (Go g k).

(** What the goroutine does once stopRequested has seen stateStopping:
    the rest of stopRequested, and what follows the loop. *)
Definition afterStopOK (tr : list (Shared * Label)) : Prop :=
  ∀ tl, sinceStop tr = Some tl →
    labels tl `prefix_of`
      [LUnlock; LLock; LStoreState stateStopped; LBroadcast; LUnlock].

(** The indices stored in [position], in order. *)
Fixpoint stored (tr : list (Shared * Label)) : list Z :=
  match tr with
  | [] => []
  | (_, l) :: tr' =>
      match l with
      | LStorePosition i => i :: stored tr'
      | _ => stored tr'
      end
  end.

(** The indices of the played events among [es], which start at index [i]. *)
Fixpoint playedAt (es : list EventFields) (i : Z) : list Z :=
  match es with
  | [] => []
  | e :: es' => (if played e then [i] else []) ++ playedAt es' (i + 1)
  end.

(** The playback goroutine once it has set statePlaying: the loop and the
    deferred calls. *)
Definition playbackBody (cfg : Config) (from to : Z) : Prog :=
  playLoop cfg from (Z.to_nat to) 0 0
    (λ r, match r with
          | FellThrough i =>
              if decide (i = nEvents cfg)
              then notifyStopped (deferredStopped Done)
              else deferredStopped Done
          | Returned => deferredStopped Done
          | Faulted => deferredStopped Panic
          end).

(** Programs all of whose steps show a label that [A] allows; the
    goroutines they launch are not looked into. *)
Inductive emits (A : Label → Prop) : Prog → Prop :=
| em_Done : emits A Done
| em_Panic : emits A Panic
| em_Lock k : A LLock → emits A k → emits A (Lock k)
| em_Unlock k : A LUnlock → emits A k → emits A (Unlock k)
| em_LoadState k :
    (∀ s, A (LLoadState s)) → (∀ s, emits A (k s)) → emits A (LoadState k)
| em_StoreState s k : A (LStoreState s) → emits A k → emits A (StoreState s k)
| em_CondBroadcast k : A LBroadcast → emits A k → emits A (CondBroadcast k)
| em_WaitUntil s k :
    A (LWaitPass s) → A (LWaitPark s) → A LWake → A LLock →
    emits A k → emits A (WaitUntil s k)
| em_Parked k : A LWake → emits A k → emits A (Parked k)
| em_LoadPosition k :
    (∀ i, A (LLoadPosition i)) → (∀ i, emits A (k i)) →
    emits A (LoadPosition k)
| em_StorePosition i k :
    A (LStorePosition i) → emits A k → emits A (StorePosition i k)
| em_OnceDo f k :
    A (LOnceRun f) → A LOnceSkip → emits A k → emits A (OnceDo f k)
| em_Perform io k : A (LPerform io) → emits A k → emits A (Perform io k)
| em_Go g k : A (LGo g) → emits A k → emits A (Go g k).

(** What a playback goroutine does: it takes and releases the mutex,
    reads the state, sets statePlaying or stateStopped and broadcasts,
    stores a position, uses the Once to close the channel, writes and
    sleeps. *)
Definition playbackLabel (l : Label) : Prop :=
  match l with
  | LLock | LUnlock | LLoadState _ | LBroadcast | LStorePosition _
  | LOnceSkip | LPerform _ => True
  | LStoreState s => s ≠ stateStopping
  | LOnceRun f => f = closeStopC
  | LWaitPass _ | LWaitPark _ | LWake | LLoadPosition _ | LGo _ => False
  end.

(** ** Basic facts about executions *)

Lemma solo_trans p sh tr1 p1 sh1 tr2 p2 sh2 :
  solo p sh tr1 p1 sh1 → solo p1 sh1 tr2 p2 sh2 →
  solo p sh (tr1 ++ tr2) p2 sh2.
Proof.
  induction 1 as [|p sh l p1' tr p' sh' Hstep _ IH]; intros H2; simpl.
  - exact H2.
  - eapply solo_step; [exact Hstep | exact (IH H2)].
Qed.

Lemma soloRun_solo fuel : ∀ p sh tr p' sh',
  soloRun fuel p sh = (tr, p', sh') → solo p sh tr p' sh'.
Proof.
  induction fuel as [|fuel IH]; simpl; intros p sh tr p' sh' H.
  - injection H as <- <- <-. apply solo_stop.
  - destruct (tstep p sh) as [l p1| | |] eqn:Hs;
      try (injection H as <- <- <-; apply solo_stop).
    destruct (soloRun fuel p1 (effect l sh)) as [[tr1 q] sh1] eqn:Hr.
    injection H as <- <- <-.
    eapply solo_step; [exact Hs | apply IH, Hr].
Qed.

Lemma solo_texec (R : Shared → Shared → Prop) p sh tr p' sh' :
  (∀ x, R x x) → solo p sh tr p' sh' → texec R p sh tr p' sh'.
Proof.
  intros HR. induction 1 as [|p sh l p1 tr p' sh' Hstep _ IH].
  - apply texec_stop.
  - eapply texec_step; [exact Hstep | apply HR | exact IH].
Qed.

Lemma ios_app tr1 tr2 : ios (tr1 ++ tr2) = ios tr1 ++ ios tr2.
Proof.
  induction tr1 as [|[sh l] tr1 IH]; simpl; [reflexivity|].
  destruct l; simpl; rewrite ?IH; reflexivity.
Qed.

Lemma sleeps_app l1 l2 : sleeps (l1 ++ l2) = sleeps l1 ++ sleeps l2.
Proof.
  induction l1 as [|io l1 IH]; simpl; [reflexivity|].
  destruct io; simpl; rewrite ?IH; reflexivity.
Qed.

Lemma sleeps_overlay cfg message : sleeps (overlay cfg message) = [].
Proof. unfold overlay. destruct (termWidth cfg); reflexivity. Qed.

Lemma sleeps_rendered cfg e : sleeps (rendered cfg e) = [].
Proof.
  unfold rendered.
  destruct (ev_type e); try reflexivity;
    repeat (match goal with |- context [match ?x with _ => _ end] => destruct x end;
            try reflexivity).
Qed.

Lemma sleeps_renderInstant cfg es : sleeps (renderInstant cfg es) = [].
Proof.
  induction es as [|e es IH]; [reflexivity|].
  unfold renderInstant in *. simpl. rewrite sleeps_app, sleeps_rendered, IH.
  reflexivity.
Qed.

(** Running solo, one command at a time. *)
Ltac solo_steps :=
  repeat (eapply solo_step; [reflexivity | simpl]); try apply solo_stop.

Lemma timestampFrame_solo cfg message k sh :
  ∃ tr, solo (timestampFrame cfg message k) sh tr k sh
        ∧ ios tr = overlay cfg message.
Proof.
  unfold timestampFrame, overlay, esc.
  destruct (termWidth cfg) as [width|].
  - eexists. split; [solo_steps | reflexivity].
  - exists []. split; [apply solo_stop | reflexivity].
Qed.

Lemma applyDelay_solo cfg prev e k sh :
  ∃ tr, solo (applyDelay cfg prev e k) sh tr (k (eventTime e)) sh
        ∧ ios tr = overlay cfg (ev_time e)
                   ++ [ClockSleep (smoothDelay (wrap64 (eventTime e - prev)))].
Proof.
  unfold applyDelay.
  destruct (timestampFrame_solo cfg (ev_time e)
              (Perform (ClockSleep (smoothDelay (wrap64 (eventTime e - prev))))
                 (k (eventTime e))) sh) as (tr & Htr & Hio).
  eexists. split.
  - eapply solo_trans; [exact Htr | solo_steps].
  - rewrite ios_app, Hio. reflexivity.
Qed.

Lemma wrap64_range z : - 2 ^ 63 ≤ wrap64 z < 2 ^ 63.
Proof.
  unfold wrap64.
  pose proof (Z.mod_pos_bound (z + 2 ^ 63) (2 ^ 64) ltac:(lia)). lia.
Qed.

Lemma wrap64_id z : - 2 ^ 63 ≤ z < 2 ^ 63 → wrap64 z = z.
Proof.
  intros H. unfold wrap64. rewrite Z.mod_small; lia.
Qed.

Lemma smoothDelay_table d :
  (d < 10 * Millisecond → smoothDelay d = 0)
  ∧ (10 * Millisecond ≤ d ≤ 250 * Millisecond → smoothDelay d = d)
  ∧ (250 * Millisecond < d < 500 * Millisecond → smoothDelay d = 250 * Millisecond)
  ∧ (500 * Millisecond < d < 1000 * Millisecond → smoothDelay d = 500 * Millisecond)
  ∧ (1000 * Millisecond ≤ d → smoothDelay d = 1000 * Millisecond).
Proof.
  unfold smoothDelay, Millisecond, Second.
  repeat split; intros H;
    repeat (match goal with
            | |- context [?a <? ?b] => destruct (Z.ltb_spec a b)
            | |- context [?a >? ?b] =>
                rewrite (Z.gtb_ltb a b); destruct (Z.ltb_spec b a)
            end; simpl); lia.
Qed.

Lemma smoothDelay_bounds d :
  0 ≤ smoothDelay d ≤ Second
  ∧ (d < 0 → smoothDelay d = 0)
  ∧ (Second ≤ d → smoothDelay d = Second).
Proof.
  unfold smoothDelay, Millisecond, Second.
  repeat split;
    repeat (match goal with
            | |- context [?a <? ?b] => destruct (Z.ltb_spec a b)
            | |- context [?a >? ?b] =>
                rewrite (Z.gtb_ltb a b); destruct (Z.ltb_spec b a)
            end; simpl); lia.
Qed.

(** ** The playback goroutine running alone *)

Lemma runs_refl p sh : runs p sh [] p sh.
Proof. exists []. split; [apply solo_stop | reflexivity]. Qed.

Lemma runs_trans p sh io1 p1 sh1 io2 p2 sh2 :
  runs p sh io1 p1 sh1 → runs p1 sh1 io2 p2 sh2 →
  runs p sh (io1 ++ io2) p2 sh2.
Proof.
  intros (tr1 & H1 & E1) (tr2 & H2 & E2). exists (tr1 ++ tr2). split.
  - eapply solo_trans; eassumption.
  - rewrite ios_app, E1, E2. reflexivity.
Qed.

Lemma runs_eq p sh io io' p' sh' sh'' :
  runs p sh io p' sh' → io = io' → sh' = sh'' → runs p sh io' p' sh''.
Proof. intros H <- <-. exact H. Qed.

Lemma runs_perform io k sh : runs (Perform io k) sh [io] k sh.
Proof. eexists. split; [solo_steps | reflexivity]. Qed.

Lemma runs_silent p sh l p1 :
  tstep p sh = Next l p1 →
  (∀ io, l ≠ LPerform io) →
  runs p sh [] p1 (effect l sh).
Proof.
  intros Hs Hl. exists [(sh, l)]. split.
  - eapply solo_step; [exact Hs | apply solo_stop].
  - destruct l; try reflexivity. destruct (Hl io eq_refl).
Qed.

Lemma applyDelay_runs cfg prev e k sh :
  runs (applyDelay cfg prev e k) sh
    (overlay cfg (ev_time e)
     ++ [ClockSleep (smoothDelay (wrap64 (eventTime e - prev)))])
    (k (eventTime e)) sh.
Proof. apply applyDelay_solo. Qed.

Lemma stopRequested_runs k sh :
  mu sh = false →
  runs (stopRequested k) sh [] (k (bool_decide (state sh = stateStopping))) sh.
Proof.
  destruct sh as [m st pos once c]; simpl; intros ->.
  eexists. split; [unfold stopRequested; solo_steps | reflexivity].
Qed.

Lemma setState_runs s k sh : runs (setState s k) sh [] k (set_state s sh).
Proof. eexists. split; [unfold setState; solo_steps | reflexivity]. Qed.

Lemma storePosition_runs i k sh :
  runs (StorePosition i k) sh [] k (set_position i sh).
Proof. eexists. split; [solo_steps | reflexivity]. Qed.

Lemma deferredStopped_runs k sh :
  mu sh = false →
  runs (deferredStopped k) sh [] k (set_state stateStopped sh).
Proof.
  destruct sh as [m st pos once c]; simpl; intros ->.
  eexists. split; [unfold deferredStopped, setState; solo_steps | reflexivity].
Qed.

Lemma inBounds_print cfg e :
  ev_type e = SessionPrintEvent → inBounds cfg e = true →
  ∃ data, sliceBytes (stream cfg) (ev_offset e)
            (wrap64 (ev_offset e + ev_bytes e)) = Some data.
Proof.
  unfold inBounds. intros ->. intros H.
  apply bool_decide_eq_true in H. destruct H as [data H]. eauto.
Qed.

(** The resize and session-start cases of the loop lemma below; the
    arguments are the hypotheses of its proof. *)
Ltac resize_case Hmu Hst Hlook Htype Hsz Hgo Hio sh :=
  eapply runs_eq;
    [ eapply runs_trans; [apply stopRequested_runs, Hmu|];
      rewrite bool_decide_eq_false_2 by exact Hst;
      rewrite Hlook; cbv beta iota; rewrite Htype, Hsz; cbv beta iota;
      try (eapply runs_trans; [apply runs_perform|];
           eapply runs_trans; [apply storePosition_runs|]);
      apply Hgo; destruct sh; simpl in *; congruence
    | rewrite Hio by congruence; unfold rendered; rewrite Htype, Hsz;
      reflexivity
    | simpl; unfold played; rewrite Htype, Hsz; reflexivity ].

(** The loop, from index [i] over the events [es] that follow, with nobody
    asking to stop: it leaves through its condition, having written every
    event, those before [from] at once. *)
Lemma playLoop_runs cfg from : ∀ es i prev k sh rest,
  mu sh = false → state sh ≠ stateStopping → 0 ≤ i →
  drop (Z.to_nat i) (sessionEvents cfg) = es ++ rest →
  forallb (inBounds cfg) es = true →
  runs (playLoop cfg from (length es) i prev k) sh
    (renderInstant cfg (take (Z.to_nat (from - i)) es)
     ++ renderPaced cfg prev (drop (Z.to_nat (from - i)) es))
    (k (FellThrough (i + Z.of_nat (length es))))
    (mkShared false (state sh) (lastPlayed es i (position sh))
       (stopOnce sh) (stopC sh)).
Proof.
  induction es as [|e es IH]; intros i prev k sh rest Hmu Hst Hi Hdrop Hin.
  - simpl. rewrite Z.add_0_r, take_nil, drop_nil. simpl.
    eapply runs_eq; [apply runs_refl | reflexivity |].
    destruct sh; simpl in *; subst; reflexivity.
  - simpl in Hin. apply andb_prop in Hin as [He Hes].
    assert (Hlook : sessionEvents cfg !! Z.to_nat i = Some e).
    { rewrite <- (Nat.add_0_r (Z.to_nat i)), <- lookup_drop, Hdrop.
      reflexivity. }
    assert (Hdrop' : drop (Z.to_nat (i + 1)) (sessionEvents cfg) = es ++ rest).
    { replace (Z.to_nat (i + 1)) with (S (Z.to_nat i)) by lia.
      rewrite (drop_S _ _ _ Hlook) in Hdrop. simpl in Hdrop.
      injection Hdrop as Hd. exact Hd. }
    assert (Hlen : i + Z.of_nat (length (e :: es)) = i + 1 + Z.of_nat (length es)).
    { simpl length. lia. }
    rewrite Hlen.
    change (playLoop cfg from (length (e :: es)) i prev k)
      with (playLoop cfg from (S (length es)) i prev k).
    cbn [playLoop].
    assert (Hfrom : ((from <=? i) = true ∧ Z.to_nat (from - i) = 0%nat
                     ∧ Z.to_nat (from - (i + 1)) = 0%nat)
                    ∨ ((from <=? i) = false
                       ∧ Z.to_nat (from - i) = S (Z.to_nat (from - (i + 1))))).
    { destruct (Z.leb_spec from i); [left | right]; repeat split; lia. }
    assert (Hgo : ∀ prev' sh1,
      mu sh1 = false → state sh1 = state sh →
      stopOnce sh1 = stopOnce sh → stopC sh1 = stopC sh →
      runs (playLoop cfg from (length es) (i + 1) prev' k) sh1
        (renderInstant cfg (take (Z.to_nat (from - (i + 1))) es)
         ++ renderPaced cfg prev' (drop (Z.to_nat (from - (i + 1))) es))
        (k (FellThrough (i + 1 + Z.of_nat (length es))))
        (mkShared false (state sh) (lastPlayed es (i + 1) (position sh1))
           (stopOnce sh) (stopC sh))).
    { intros prev' sh1 Hmu1 Hst1 Ho1 Hc1.
      rewrite <- Hst1, <- Ho1, <- Hc1.
      apply (IH (i + 1) prev' k sh1 rest); [exact Hmu1 | congruence | lia | exact Hdrop' | exact Hes]. }
    assert (Hio : ev_type e ≠ SessionPrintEvent →
      renderInstant cfg (take (Z.to_nat (from - i)) (e :: es))
      ++ renderPaced cfg prev (drop (Z.to_nat (from - i)) (e :: es))
      = rendered cfg e
        ++ renderInstant cfg (take (Z.to_nat (from - (i + 1))) es)
        ++ renderPaced cfg prev (drop (Z.to_nat (from - (i + 1))) es)).
    { intros Hnp. destruct Hfrom as [(Hle & Hz & Hz') | (Hle & Hz)].
      - rewrite Hz, Hz'. simpl. destruct (ev_type e); [congruence|reflexivity..].
      - rewrite Hz. simpl. rewrite <- app_assoc. reflexivity. }
    destruct (ev_type e) eqn:Htype.
    + (* print *)
      destruct (inBounds_print cfg e Htype He) as [data Hslice].
      destruct Hfrom as [(Hle & Hz & Hz') | (Hle & Hz)].
      * eapply runs_eq.
        { eapply runs_trans; [apply stopRequested_runs, Hmu|].
          rewrite bool_decide_eq_false_2 by exact Hst.
          rewrite Hlook; cbv beta iota. rewrite Htype, Hle; cbv beta iota.
          eapply runs_trans; [apply applyDelay_runs|].
          rewrite Hslice; cbv beta iota.
          eapply runs_trans; [apply runs_perform|].
          eapply runs_trans; [apply storePosition_runs|].
          apply Hgo; destruct sh; simpl in *; congruence. }
        { rewrite Hz, Hz'. simpl. rewrite Htype. unfold rendered.
          rewrite Htype, Hslice. rewrite <- !app_assoc. reflexivity. }
        { simpl. unfold played. rewrite Htype. reflexivity. }
      * eapply runs_eq.
        { eapply runs_trans; [apply stopRequested_runs, Hmu|].
          rewrite bool_decide_eq_false_2 by exact Hst.
          rewrite Hlook; cbv beta iota. rewrite Htype, Hle; cbv beta iota.
          rewrite Hslice; cbv beta iota.
          eapply runs_trans; [apply runs_perform|].
          eapply runs_trans; [apply storePosition_runs|].
          apply Hgo; destruct sh; simpl in *; congruence. }
        { rewrite Hz. simpl. unfold rendered.
          rewrite Htype, Hslice. reflexivity. }
        { simpl. unfold played. rewrite Htype. reflexivity. }
    + (* resize *)
      destruct (splitColon (ev_size e)) as [|width [|height [|? ?]]] eqn:Hsz.
      all: resize_case Hmu Hst Hlook Htype Hsz Hgo Hio sh.
    + (* session start *)
      destruct (splitColon (ev_size e)) as [|width [|height [|? ?]]] eqn:Hsz.
      all: resize_case Hmu Hst Hlook Htype Hsz Hgo Hio sh.
    + (* any other event *)
      eapply runs_eq.
      { eapply runs_trans; [apply stopRequested_runs, Hmu|].
        rewrite bool_decide_eq_false_2 by exact Hst.
        rewrite Hlook; cbv beta iota. rewrite Htype; cbv beta iota.
        apply Hgo; destruct sh; simpl in *; congruence. }
      { destruct Hfrom as [(Hle & Hz & Hz') | (Hle & Hz)].
        - rewrite Hz, Hz'. simpl. rewrite Htype. unfold rendered.
          rewrite Htype. reflexivity.
        - rewrite Hz. simpl. unfold rendered. rewrite Htype. reflexivity. }
      { simpl. unfold played. rewrite Htype. reflexivity. }
Qed.

Lemma lockedSetState_runs s k sh :
  mu sh = false →
  runs (Lock (setState s (Unlock k))) sh [] k (set_state s sh).
Proof.
  destruct sh as [m st pos once c]; simpl; intros ->.
  eexists. split; [unfold setState; solo_steps | reflexivity].
Qed.

Lemma notifyStopped_runs k sh :
  runs (notifyStopped k) sh [] k
    (if stopOnce sh then sh else set_stopOnce (closeStopC sh)).
Proof.
  unfold notifyStopped. destruct (stopOnce sh) eqn:Ho.
  - apply (runs_silent _ sh LOnceSkip); [simpl; rewrite Ho; reflexivity | congruence].
  - apply (runs_silent _ sh (LOnceRun closeStopC));
      [simpl; rewrite Ho; reflexivity | congruence].
Qed.

(** The playback goroutine over a valid range, with the mutex free and
    nobody else running: it returns, having written the events before [to],
    those before [from] at once; the player is left Stopped, and the
    channel is closed when [to] is the length of the stream and it was
    open. *)
Lemma playback_runs cfg from to sh :
  mu sh = false → 0 ≤ to ≤ nEvents cfg →
  forallb (inBounds cfg) (take (Z.to_nat to) (sessionEvents cfg)) = true →
  runs (playback cfg from to) sh
    (renderInstant cfg (take (Z.to_nat from) (take (Z.to_nat to) (sessionEvents cfg)))
     ++ renderPaced cfg 0 (drop (Z.to_nat from) (take (Z.to_nat to) (sessionEvents cfg))))
    Done
    (mkShared false stateStopped
       (lastPlayed (take (Z.to_nat to) (sessionEvents cfg)) 0 (position sh))
       (stopOnce sh || bool_decide (to = nEvents cfg))
       (if bool_decide (to = nEvents cfg) && negb (stopOnce sh)
        then S (stopC sh) else stopC sh)).
Proof.
  intros Hmu Hto Hin. unfold playback.
  set (es := take (Z.to_nat to) (sessionEvents cfg)) in *.
  assert (Hlen : length es = Z.to_nat to).
  { unfold es. rewrite length_take. unfold nEvents in Hto. lia. }
  assert (Hdrop : drop (Z.to_nat 0) (sessionEvents cfg)
                  = es ++ drop (Z.to_nat to) (sessionEvents cfg)).
  { simpl. unfold es. symmetry. apply take_drop. }
  pose proof (playLoop_runs cfg from es 0 0
    (λ r, match r with
          | FellThrough i =>
              if decide (i = nEvents cfg)
              then notifyStopped (deferredStopped Done)
              else deferredStopped Done
          | Returned => deferredStopped Done
          | Faulted => deferredStopped Panic
          end)
    (set_state statePlaying sh) _
    ltac:(destruct sh; exact Hmu) ltac:(destruct sh; simpl; congruence)
    ltac:(lia) Hdrop Hin) as Hloop.
  rewrite Hlen in Hloop. rewrite Z.sub_0_r in Hloop. cbv beta iota in Hloop.
  replace (0 + Z.of_nat (Z.to_nat to)) with to in Hloop by lia.
  destruct (decide (to = nEvents cfg)) as [Heq|Hne].
  - eapply runs_eq.
    { eapply runs_trans; [apply lockedSetState_runs, Hmu|].
      eapply runs_trans; [exact Hloop|].
      eapply runs_trans; [apply notifyStopped_runs|].
      apply deferredStopped_runs. simpl. destruct (stopOnce sh); reflexivity. }
    { simpl. rewrite !app_nil_r. reflexivity. }
    { rewrite bool_decide_eq_true_2 by exact Heq.
      destruct sh as [m st pos [|] c]; reflexivity. }
  - eapply runs_eq.
    { eapply runs_trans; [apply lockedSetState_runs, Hmu|].
      eapply runs_trans; [exact Hloop|].
      apply deferredStopped_runs. reflexivity. }
    { simpl. rewrite !app_nil_r. reflexivity. }
    { rewrite bool_decide_eq_false_2 by exact Hne.
      destruct sh as [m st pos [|] c]; reflexivity. }
Qed.

(** A valid request writes the clear sequence and launches the playback
    goroutine, with 0 read as the length of the stream. *)
Lemma playRange_valid cfg from to k sh :
  0 ≤ from → to ≤ nEvents cfg →
  ∃ tr, solo (playRange cfg from to k) sh tr k sh
        ∧ ios tr = [StdoutWrite (String ESC "c")]
        ∧ launched tr
          = [playback cfg from (if to =? 0 then nEvents cfg else to)].
Proof.
  intros Hfrom Hto. unfold playRange.
  rewrite Z.gtb_ltb.
  replace (nEvents cfg <? to) with false by (symmetry; apply Z.ltb_ge; lia).
  replace (from <? 0) with false by (symmetry; apply Z.ltb_ge; lia).
  simpl. eexists. split; [solo_steps | split; reflexivity].
Qed.

Lemma lastPlayed_app es1 es2 i pos :
  lastPlayed (es1 ++ es2) i pos
  = lastPlayed es2 (i + Z.of_nat (length es1)) (lastPlayed es1 i pos).
Proof.
  revert i pos. induction es1 as [|e es1 IH]; intros i pos; simpl.
  - rewrite Z.add_0_r. reflexivity.
  - rewrite IH. f_equal. lia.
Qed.


Lemma lastPlayed_last es e i pos :
  last es = Some e → played e = true →
  lastPlayed es i pos = i + Z.of_nat (length es) - 1.
Proof.
  intros Hlast Hp.
  destruct (last_is_Some es) as [Hs _].
  destruct (decide (es = [])) as [->|Hne]; [discriminate|].
  destruct (exists_last Hne) as (es0 & e' & ->).
  rewrite last_snoc in Hlast. injection Hlast as ->.
  rewrite lastPlayed_app. simpl. rewrite Hp, length_app. simpl. lia.
Qed.

(** ** The completion channel over the life of a player *)

Lemma closesOnce_tstep p sh l p' :
  closesOnce p → tstep p sh = Next l p' →
  closesOnce p'
  ∧ (∀ g, l = LGo g → closesOnce g)
  ∧ (∀ f, l = LOnceRun f → f = closeStopC ∧ stopOnce sh = false).
Proof.
  intros Hco Hs.
  destruct Hco; simpl in Hs;
    repeat match type of Hs with
           | context [if ?c then _ else _] => destruct c eqn:?
           end;
    try discriminate; injection Hs as <- <-;
    (split; [|split]); try (intros; discriminate); auto using closesOnce.
  - intros f [= <-]. split; reflexivity.
  - intros g' [= <-]. assumption.
Qed.

Lemma closesOnce_wake p : closesOnce p → closesOnce (wake p).
Proof. destruct 1; simpl; auto using closesOnce. Qed.

Lemma onceInv_effect p sh l p' :
  closesOnce p → tstep p sh = Next l p' → onceInv sh → onceInv (effect l sh).
Proof.
  intros Hco Hs Hinv.
  destruct (closesOnce_tstep p sh l p' Hco Hs) as (_ & _ & Hf).
  unfold onceInv in *.
  destruct l; simpl; try exact Hinv.
  destruct (Hf f eq_refl) as [-> Ho]. simpl. rewrite Ho in Hinv. lia.
Qed.

Lemma playLoop_closesOnce cfg from n : ∀ i prev k,
  (∀ r, closesOnce (k r)) → closesOnce (playLoop cfg from n i prev k).
Proof.
  induction n as [|n IH]; intros i prev k Hk; simpl; [apply Hk|].
  unfold stopRequested. do 2 constructor. intros s. constructor.
  destruct (bool_decide (s = stateStopping)); [apply Hk|].
  destruct (sessionEvents cfg !! Z.to_nat i) as [e|]; [|apply Hk].
  destruct (ev_type e).
  - assert (Hrest : ∀ prev', closesOnce
      match sliceBytes (stream cfg) (ev_offset e) (wrap64 (ev_offset e + ev_bytes e)) with
      | Some data =>
          Perform (StdoutWrite data) (StorePosition i (playLoop cfg from n (i + 1) prev' k))
      | None => k Faulted
      end).
    { intros prev'. destruct (sliceBytes _ _ _); [|apply Hk].
      do 2 constructor. apply IH, Hk. }
    destruct (from <=? i); [|apply Hrest].
    unfold applyDelay, timestampFrame, esc.
    destruct (termWidth cfg); repeat constructor; apply Hrest.
  - destruct (splitColon (ev_size e)) as [|? [|? [|? ?]]];
      repeat constructor; apply IH, Hk.
  - destruct (splitColon (ev_size e)) as [|? [|? [|? ?]]];
      repeat constructor; apply IH, Hk.
  - apply IH, Hk.
Qed.

Lemma playback_closesOnce cfg from to : closesOnce (playback cfg from to).
Proof.
  unfold playback, setState. repeat constructor.
  apply playLoop_closesOnce. intros r.
  destruct r as [i| |]; [destruct (decide (i = nEvents cfg))| |];
    unfold notifyStopped, deferredStopped, setState; repeat constructor.
Qed.

Lemma playRange_closesOnce cfg from to k :
  closesOnce k → closesOnce (playRange cfg from to k).
Proof.
  intros Hk. unfold playRange, setState.
  destruct ((to >? nEvents cfg) || (from <? 0)).
  - repeat constructor. exact Hk.
  - constructor. constructor; [apply playback_closesOnce | exact Hk].
Qed.

Ltac closesOnce_tac :=
  repeat first
    [ assumption
    | apply playback_closesOnce
    | apply playRange_closesOnce
    | match goal with
      | |- closesOnce (if ?c then _ else _) => destruct c
      | |- closesOnce ((if ?c then _ else _) _) => destruct c
      | |- ∀ _, _ => intro
      end
    | constructor ].

Lemma call_closesOnce cfg o k : closesOnce k → closesOnce (call cfg o k).
Proof.
  intros Hk. destruct o; cbn [call];
    unfold Play, Stopped, Rewind, Forward, TogglePause, setState, waitUntil;
    closesOnce_tac.
Qed.

Lemma caller_closesOnce cfg ops : closesOnce (caller cfg ops).
Proof.
  induction ops as [|o ops IH]; simpl; [constructor|].
  apply call_closesOnce, IH.
Qed.

Lemma step_onceInv t w w' :
  step t w = Some w' →
  onceInv (shared w) → Forall closesOnce (threads w) →
  onceInv (shared w') ∧ Forall closesOnce (threads w').
Proof.
  unfold step. intros Hstep Hinv Hall.
  destruct (crashed w); [discriminate|].
  destruct (threads w !! t) as [p|] eqn:Hp; [|discriminate].
  assert (Hco : closesOnce p) by (eapply Forall_lookup_1; eassumption).
  destruct (tstep p (shared w)) as [l p'| | |] eqn:Hs; try discriminate.
  - injection Hstep as <-. simpl.
    destruct (closesOnce_tstep p (shared w) l p' Hco Hs) as (Hp' & Hgo & _).
    split; [exact (onceInv_effect p (shared w) l p' Hco Hs Hinv)|].
    assert (Hins : Forall closesOnce (<[t:=p']> (threads w))).
    { apply Forall_insert; assumption. }
    destruct l; simpl; try exact Hins.
    + apply Forall_fmap. eapply Forall_impl; [exact Hins|].
      intros q Hq. apply closesOnce_wake, Hq.
    + apply Forall_app. split; [exact Hins|].
      constructor; [apply Hgo; reflexivity | constructor].
  - injection Hstep as <-. simpl. split; assumption.
Qed.

Lemma run_onceInv sched : ∀ w,
  onceInv (shared w) → Forall closesOnce (threads w) →
  onceInv (shared (run sched w)) ∧ Forall closesOnce (threads (run sched w)).
Proof.
  induction sched as [|t sched IH]; intros w Hinv Hall; simpl; [auto|].
  destruct (step t w) as [w'|] eqn:Hstep; simpl.
  - destruct (step_onceInv t w w' Hstep Hinv Hall). apply IH; assumption.
  - apply IH; assumption.
Qed.

Lemma initWorld_closesOnce cfg callers :
  Forall closesOnce (threads (initWorld cfg callers)).
Proof.
  simpl. apply Forall_fmap, Forall_forall. intros ops _.
  apply caller_closesOnce.
Qed.

(** close(p.stopC) is executed at most once, whatever the callers do and
    however the threads are scheduled. *)
Lemma stopC_closed_at_most_once cfg callers sched :
  (stopC (shared (run sched (initWorld cfg callers))) ≤ 1)%nat.
Proof.
  destruct (run_onceInv sched (initWorld cfg callers) eq_refl
              (initWorld_closesOnce cfg callers)) as [Hinv _].
  unfold onceInv in Hinv. destruct (stopOnce _); lia.
Qed.

(** ** Threads among others *)

Lemma texec_inv R p sh tr p' sh' :
  texec R p sh tr p' sh' →
  (tr = [] ∧ p' = p ∧ sh' = sh)
  ∨ (∃ l p1 sh1 tr1,
        tstep p sh = Next l p1 ∧ R (effect l sh) sh1
        ∧ tr = (sh, l) :: tr1 ∧ texec R p1 sh1 tr1 p' sh')
  ∨ (∃ k sh1 tr1,
        p = Parked k ∧ R sh sh1
        ∧ tr = (sh, LWake) :: tr1 ∧ texec R k sh1 tr1 p' sh').
Proof.
  destruct 1 as [p sh | p sh l p1 sh1 tr p' sh' Hs HR H | k sh sh1 tr p' sh' HR H].
  - left. auto.
  - right. left. eauto 10.
  - right. right. eauto 10.
Qed.

Lemma fired_app tr1 tr2 : fired (tr1 ++ tr2) = fired tr1 || fired tr2.
Proof. unfold fired. apply existsb_app. Qed.

Lemma loadedStates_app tr1 tr2 :
  loadedStates (tr1 ++ tr2) = loadedStates tr1 ++ loadedStates tr2.
Proof.
  induction tr1 as [|[sh l] tr1 IH]; simpl; [reflexivity|].
  destruct l; simpl; rewrite ?IH; reflexivity.
Qed.

Lemma quiet_nil : quiet [].
Proof. split; reflexivity. Qed.

Lemma quiet_app tr1 tr2 : quiet tr1 → quiet tr2 → quiet (tr1 ++ tr2).
Proof.
  intros [F1 L1] [F2 L2]. split.
  - rewrite fired_app, F1, F2. reflexivity.
  - rewrite loadedStates_app, L1, L2. reflexivity.
Qed.

Lemma quiet_perform sh io tr : quiet tr → quiet ((sh, LPerform io) :: tr).
Proof. intros [F L]. split; [exact F | exact L]. Qed.

(** One step back in an execution that may have stopped anywhere: the
    first goal is the execution that stops here. *)
Ltac tx H :=
  let Hs := fresh "Hs" in
  let HR := fresh "HR" in
  let Hp := fresh "Hp" in
  apply texec_inv in H;
  destruct H as [(-> & -> & ->)
                | [(? & ? & ? & ? & Hs & HR & -> & H)
                  | (? & ? & ? & Hp & HR & -> & H)]];
  [ | cbn [tstep] in Hs;
      repeat match type of Hs with
             | (if ?c then _ else _) = _ => destruct c eqn:?
             end;
      try discriminate Hs; injection Hs as <- <-
    | discriminate Hp ].

Lemma timestampFrame_texec R cfg message k sh tr p' sh' :
  texec R (timestampFrame cfg message k) sh tr p' sh' →
  quiet tr
  ∨ ∃ tr1 tr2 sh1, tr = tr1 ++ tr2 ∧ quiet tr1 ∧ texec R k sh1 tr2 p' sh'.
Proof.
  unfold timestampFrame, esc. intros H.
  destruct (termWidth cfg) as [width|].
  - tx H; [left; apply quiet_nil|].
    tx H; [left; repeat apply quiet_perform; apply quiet_nil|].
    tx H; [left; repeat apply quiet_perform; apply quiet_nil|].
    tx H; [left; repeat apply quiet_perform; apply quiet_nil|].
    right. eexists [_; _; _; _], _, _. split; [reflexivity|].
    split; [repeat apply quiet_perform; apply quiet_nil | exact H].
  - right. exists [], tr, sh. split; [reflexivity|].
    split; [apply quiet_nil | exact H].
Qed.

Lemma applyDelay_texec R cfg prev e k sh tr p' sh' :
  texec R (applyDelay cfg prev e k) sh tr p' sh' →
  quiet tr
  ∨ ∃ tr1 tr2 sh1,
      tr = tr1 ++ tr2 ∧ quiet tr1 ∧ texec R (k (eventTime e)) sh1 tr2 p' sh'.
Proof.
  unfold applyDelay. intros H.
  apply timestampFrame_texec in H as [Hq | (tr1 & tr2 & sh1 & -> & Hq & H)];
    [left; exact Hq|].
  tx H; [left; rewrite app_nil_r; exact Hq|].
  right. eexists (tr1 ++ [_]), _, _. split; [rewrite <- app_assoc; reflexivity|].
  split; [|exact H].
  apply quiet_app; [exact Hq | apply quiet_perform, quiet_nil].
Qed.

Lemma fired_cons sh l tr : fired ((sh, l) :: tr) = isOnceRun l || fired tr.
Proof. reflexivity. Qed.

Lemma loadedStates_cons sh l tr :
  loadedStates ((sh, l) :: tr) = loadOf l ++ loadedStates tr.
Proof. destruct l; reflexivity. Qed.

Ltac tr_simpl :=
  rewrite ?fired_cons, ?fired_app, ?loadedStates_cons, ?loadedStates_app;
  cbn [isOnceRun loadOf orb app].

Ltac tr_quiet :=
  repeat match goal with
         | H : quiet _ |- _ => destruct H as [? ?]
         end;
  tr_simpl;
  repeat match goal with
         | H : fired _ = false |- _ => rewrite H
         | H : loadedStates _ = [] |- _ => rewrite H
         end;
  cbn [orb app]; try reflexivity.

Lemma loop_leave R k p' sh' i n pre tr2 r sh1 :
  fired pre = false →
  texec R (k r) sh1 tr2 p' sh' →
  match r with FellThrough _ => False | _ => True end →
  loopOutcome R k p' sh' i n (pre ++ tr2).
Proof.
  intros Hpre H Hr. right. exists r, pre, tr2, sh1.
  repeat split; try assumption. destruct r; [destruct Hr | exact I | exact I].
Qed.

Lemma loop_combine R k p' sh' i n pre s mid1 mid2 tr2 :
  fired pre = false → loadedStates pre = [s] → s ≠ stateStopping →
  quiet mid1 → quiet mid2 →
  loopOutcome R k p' sh' (i + 1) n tr2 →
  loopOutcome R k p' sh' i (S n) (pre ++ mid1 ++ mid2 ++ tr2).
Proof.
  intros Hf Hl Hs [Hf1 Hl1] [Hf2 Hl2] [Hleft | (r & tr1 & tr3 & sh1 & -> & Hf3 & H & Hok)].
  - left. rewrite !fired_app, Hf, Hf1, Hf2, Hleft. reflexivity.
  - right. exists r, (pre ++ mid1 ++ mid2 ++ tr1), tr3, sh1. split.
    { rewrite <- !app_assoc. reflexivity. }
    split. { rewrite !fired_app, Hf, Hf1, Hf2, Hf3. reflexivity. }
    split; [exact H|].
    destruct r as [j| |]; try exact I.
    unfold loopExitOK in *. destruct Hok as (-> & Hnot & Hlen).
    rewrite !loadedStates_app, Hl, Hl1, Hl2. simpl.
    repeat split.
    + lia.
    + rewrite not_elem_of_cons. split; [congruence | exact Hnot].
    + rewrite Hlen. reflexivity.
Qed.

(** The loop among other threads: however it is interleaved, the channel
    is not closed inside it, and it is left through its condition only
    after all its iterations, none of which saw a stop request. *)
Lemma playLoop_texec R cfg from n : ∀ i prev k sh tr p' sh',
  texec R (playLoop cfg from n i prev k) sh tr p' sh' →
  loopOutcome R k p' sh' i n tr.
Proof.
  induction n as [|n IH]; intros i prev k sh tr p' sh' H.
  - right. exists (FellThrough i), [], tr, sh. simpl in H.
    repeat split; try assumption; try lia. apply not_elem_of_nil.
  - cbn [playLoop] in H. unfold stopRequested in H.
    tx H; [left; reflexivity|].
    tx H; [left; reflexivity|].
    tx H; [left; reflexivity|].
    case_bool_decide as Hstop.
    { eapply (loop_leave R k p' sh' i (S n) [_; _; _] _ Returned);
        [reflexivity | exact H | exact I]. }
    assert (Hnext : ∀ mid1 mid2 prev' sh2 tr2,
      quiet mid1 → quiet mid2 →
      texec R (playLoop cfg from n (i + 1) prev' k) sh2 tr2 p' sh' →
      loopOutcome R k p' sh' i (S n)
        ([(sh, LLock); (x1, LLoadState (state x1)); (x3, LUnlock)]
         ++ mid1 ++ mid2 ++ tr2)).
    { intros mid1 mid2 prev' sh2 tr2 Hq1 Hq2 H2.
      eapply loop_combine; try eassumption; try reflexivity.
      eapply IH, H2. }
    assert (Hfault : ∀ mid sh2 tr2,
      quiet mid → texec R (k Faulted) sh2 tr2 p' sh' →
      loopOutcome R k p' sh' i (S n)
        ([(sh, LLock); (x1, LLoadState (state x1)); (x3, LUnlock)]
         ++ mid ++ tr2)).
    { intros mid sh2 tr2 [Hq1 Hq2] H2. rewrite app_assoc.
      eapply loop_leave; [| exact H2 | exact I].
      rewrite fired_app, Hq1. reflexivity. }
    assert (Hwrite : ∀ mid prev' io sh2 tr2,
      quiet mid →
      texec R (Perform io (StorePosition i (playLoop cfg from n (i + 1) prev' k)))
        sh2 tr2 p' sh' →
      loopOutcome R k p' sh' i (S n)
        ([(sh, LLock); (x1, LLoadState (state x1)); (x3, LUnlock)]
         ++ mid ++ tr2)).
    { intros mid prev' io sh2 tr2 Hq H2.
      tx H2; [left; rewrite app_nil_r; tr_quiet|].
      tx H2; [left; tr_quiet|].
      eapply (Hnext mid [_; _] prev'); [exact Hq | | exact H2].
      split; reflexivity. }
    revert H.
    destruct (sessionEvents cfg !! Z.to_nat i) as [e|];
      [|intros H; (eapply (Hfault []); [apply quiet_nil | exact H])].
    destruct (ev_type e).
    + destruct (from <=? i).
      * intros H. apply applyDelay_texec in H
          as [Hq | (tr1 & tr2 & sh1 & -> & Hq & H)]; [left; tr_quiet|].
        revert H. destruct (sliceBytes _ _ _); intros H;
          [eapply (Hwrite tr1); [exact Hq | exact H] | eapply (Hfault tr1); [exact Hq | exact H]].
      * destruct (sliceBytes _ _ _); intros H;
          [(eapply (Hwrite []); [apply quiet_nil | exact H]) | (eapply (Hfault []); [apply quiet_nil | exact H])].
    + destruct (splitColon (ev_size e)) as [|? [|? [|? ?]]]; intros H;
        first [ (eapply (Hwrite []); [apply quiet_nil | exact H])
              | (eapply (Hnext [] []); [apply quiet_nil | apply quiet_nil | exact H]) ].
    + destruct (splitColon (ev_size e)) as [|? [|? [|? ?]]]; intros H;
        first [ (eapply (Hwrite []); [apply quiet_nil | exact H])
              | (eapply (Hnext [] []); [apply quiet_nil | apply quiet_nil | exact H]) ].
    + intros H. (eapply (Hnext [] []); [apply quiet_nil | apply quiet_nil | exact H]).
Qed.

Lemma deferredStopped_quiet R k0 sh tr p' sh' :
  k0 = Done ∨ k0 = Panic →
  texec R (deferredStopped k0) sh tr p' sh' → quiet tr.
Proof.
  intros Hk H. unfold deferredStopped, setState in H.
  tx H; [split; reflexivity|].
  tx H; [split; reflexivity|].
  tx H; [split; reflexivity|].
  tx H; [split; reflexivity|].
  destruct Hk as [-> | ->]; tx H; split; reflexivity.
Qed.

(** A playback goroutine among other threads closes the channel only
    having left its loop through the condition, at the index that is the
    length of the stream, after one call of stopRequested per event, none
    of which saw stateStopping. *)
Lemma playback_fires R cfg from to sh tr p' sh' :
  0 ≤ to →
  texec R (playback cfg from to) sh tr p' sh' →
  fired tr = true →
  to = nEvents cfg
  ∧ Z.of_nat (length (loadedStates tr)) = nEvents cfg
  ∧ (stateStopping ∉ loadedStates tr).
Proof.
  intros Hto H Hfired. unfold playback, setState in H.
  tx H; [discriminate Hfired|].
  tx H; [discriminate Hfired|].
  tx H; [discriminate Hfired|].
  tx H; [discriminate Hfired|].
  apply playLoop_texec in H
    as [Hf | (r & tr1 & tr2 & sh1 & -> & Hf1 & H & Hok)].
  { rewrite !fired_cons, Hf in Hfired. discriminate Hfired. }
  rewrite !fired_cons, fired_app, Hf1 in Hfired. cbn [isOnceRun orb] in Hfired.
  destruct r as [j| |].
  - destruct Hok as (-> & Hnot & Hlen).
    destruct (decide (0 + Z.of_nat (Z.to_nat to) = nEvents cfg)) as [Heq|Hne].
    + unfold notifyStopped in H.
      tx H; [discriminate Hfired| |].
      * apply (deferredStopped_quiet R Done) in H as [Hq _]; [|left; reflexivity].
        rewrite fired_cons, Hq in Hfired. discriminate Hfired.
      * apply (deferredStopped_quiet R Done) in H as [_ Hq]; [|left; reflexivity].
        rewrite !loadedStates_cons, loadedStates_app, loadedStates_cons, Hq.
        cbn [loadOf app]. rewrite app_nil_r.
        repeat split; [lia | lia | exact Hnot].
    + apply (deferredStopped_quiet R Done) in H as [Hq _]; [|left; reflexivity].
      rewrite Hq in Hfired. discriminate Hfired.
  - apply (deferredStopped_quiet R Done) in H as [Hq _]; [|left; reflexivity].
    rewrite Hq in Hfired. discriminate Hfired.
  - apply (deferredStopped_quiet R Panic) in H as [Hq _]; [|right; reflexivity].
    rewrite Hq in Hfired. discriminate Hfired.
Qed.

(** ** Callers among other threads *)

Lemma texec_Done_inv R sh tr p' sh' :
  texec R Done sh tr p' sh' → tr = [] ∧ p' = Done ∧ sh' = sh.
Proof.
  intros H. apply texec_inv in H
    as [H | [(l & p1 & sh1 & tr1 & Hs & _) | (k & sh1 & tr1 & Hp & _)]].
  - exact H.
  - discriminate Hs.
  - discriminate Hp.
Qed.

(** One step back in an execution that has returned. *)
Ltac txd H :=
  let Hs := fresh "Hs" in
  let HR := fresh "HR" in
  let Hp := fresh "Hp" in
  let Hd := fresh "Hd" in
  apply texec_inv in H;
  destruct H as [(_ & Hd & _)
                | [(? & ? & ? & ? & Hs & HR & -> & H)
                  | (? & ? & ? & Hp & HR & -> & H)]];
  [ discriminate Hd
  | cbn [tstep] in Hs;
    repeat match type of Hs with
           | (if ?c then _ else _) = _ => destruct c eqn:?
           end;
    try discriminate Hs; injection Hs as <- <-
  | discriminate Hp ].

Lemma tstep_pass p sh s p1 :
  tstep p sh = Next (LWaitPass s) p1 → state sh = s.
Proof.
  destruct p; simpl; intros H;
    repeat match type of H with
           | (if ?c then _ else _) = _ => destruct c eqn:?
           end;
    try discriminate H.
  inversion H; subst. reflexivity.
Qed.

(** waitUntil(s) is only ever passed on shared fields whose state is s. *)
Lemma texec_pass R p sh tr p' sh' :
  texec R p sh tr p' sh' →
  ∀ shp s, (shp, LWaitPass s) ∈ tr → state shp = s.
Proof.
  induction 1 as [p sh | p sh l p1 sh1 tr p' sh' Hs HR H IH
                 | k sh sh1 tr p' sh' HR H IH]; intros shp s Hin.
  - apply elem_of_nil in Hin. destruct Hin.
  - apply elem_of_cons in Hin as [Heq | Hin]; [|eapply IH, Hin].
    injection Heq as -> <-. eapply tstep_pass, Hs.
  - apply elem_of_cons in Hin as [Heq | Hin]; [|eapply IH, Hin].
    discriminate Heq.
Qed.

(** A thread that calls waitUntil(s), holding the mutex, on a state that is
    not s releases the mutex and parks; parked, it cannot take a step of
    its own. *)
Lemma waitUntil_parks s k sh :
  state sh ≠ s → mu sh = true →
  tstep (waitUntil s k) sh = Next (LWaitPark s) (Parked (Lock (WaitUntil s k)))
  ∧ ∀ sh', tstep (Parked (Lock (WaitUntil s k))) sh' = Blocked.
Proof.
  intros Hne Hmu. split; [|reflexivity].
  unfold waitUntil. simpl. rewrite decide_False by congruence.
  rewrite Hmu. reflexivity.
Qed.

(** A thread in waitUntil(s) that gets past it: it parks, is woken and
    takes the mutex again any number of times, and passes on a state
    that is s. *)
Lemma waiting_texec R s k : ∀ p sh tr sh',
  texec R p sh tr Done sh' →
  p = WaitUntil s k ∨ p = Parked (Lock (WaitUntil s k))
    ∨ p = Lock (WaitUntil s k) →
  ∃ waits shp tr2 sh1,
    tr = waits ++ (shp, LWaitPass s) :: tr2
    ∧ Forall (waitingLabel s) (labels waits)
    ∧ state shp = s
    ∧ texec R k sh1 tr2 Done sh'.
Proof.
  intros p sh tr sh' H. remember Done as q eqn:Hq.
  induction H as [p sh | p sh l p1 sh1 tr p' sh' Hs HR H IH
                 | k0 sh sh1 tr p' sh' HR H IH]; intros Hp; subst.
  - destruct Hp as [Hp | [Hp | Hp]]; discriminate Hp.
  - destruct Hp as [-> | [-> | ->]]; simpl in Hs.
    + destruct (decide (s = state sh)) as [Heq|Hne].
      * injection Hs as <- <-.
        exists [], sh, tr, sh1. repeat split; auto.
      * destruct (mu sh); [|discriminate Hs]. injection Hs as <- <-.
        destruct (IH eq_refl ltac:(auto)) as (waits & shp & tr2 & sh2 & -> & Hw & Hst & H2).
        exists ((sh, LWaitPark s) :: waits), shp, tr2, sh2.
        repeat split; auto. constructor; [left; reflexivity | exact Hw].
    + discriminate Hs.
    + destruct (mu sh); [discriminate Hs|]. injection Hs as <- <-.
      destruct (IH eq_refl ltac:(auto)) as (waits & shp & tr2 & sh2 & -> & Hw & Hst & H2).
      exists ((sh, LLock) :: waits), shp, tr2, sh2.
      repeat split; auto. constructor; [right; right; reflexivity | exact Hw].
  - destruct Hp as [Hp | [Hp | Hp]]; try discriminate Hp.
    injection Hp as ->.
    destruct (IH eq_refl ltac:(auto)) as (waits & shp & tr2 & sh2 & -> & Hw & Hst & H2).
    exists ((sh, LWake) :: waits), shp, tr2, sh2.
    repeat split; auto. constructor; [right; left; reflexivity | exact Hw].
Qed.

Lemma labels_app tr1 tr2 : labels (tr1 ++ tr2) = labels tr1 ++ labels tr2.
Proof. unfold labels. apply fmap_app. Qed.

(** playRange in an execution that has returned: a valid request writes
    the clear sequence and launches the goroutine; any other takes the
    mutex to set stateStopped. *)
Lemma playRange_texec R cfg from to k sh tr sh' :
  texec R (playRange cfg from to k) sh tr Done sh' →
  ∃ started tr2 sh1,
    tr = started ++ tr2
    ∧ texec R k sh1 tr2 Done sh'
    ∧ (0 ≤ from → to ≤ nEvents cfg →
       labels started
       = [LPerform (StdoutWrite (String ESC "c"));
          LGo (playback cfg from (if to =? 0 then nEvents cfg else to))])
    ∧ (from < 0 ∨ nEvents cfg < to →
       labels started = [LLock; LStoreState stateStopped; LBroadcast; LUnlock]).
Proof.
  unfold playRange, setState. intros H.
  destruct ((to >? nEvents cfg) || (from <? 0)) eqn:Hc.
  - apply orb_true_iff in Hc.
    txd H. txd H. txd H. txd H.
    eexists [_; _; _; _], _, _. split; [reflexivity|]. split; [exact H|].
    split; [|reflexivity].
    intros Hfrom Hto. exfalso. destruct Hc as [Hc | Hc].
    + apply Z.gtb_lt in Hc. lia.
    + apply Z.ltb_lt in Hc. lia.
  - apply orb_false_iff in Hc as [Hc1 Hc2].
    txd H. txd H.
    eexists [_; _], _, _. split; [reflexivity|]. split; [exact H|].
    split; [reflexivity|].
    intros Hor. exfalso. rewrite Z.gtb_ltb in Hc1.
    apply Z.ltb_ge in Hc1, Hc2. lia.
Qed.

Lemma labels_cons sh l tr : labels ((sh, l) :: tr) = l :: labels tr.
Proof. reflexivity. Qed.

Lemma nEvents_nonneg cfg : 0 ≤ nEvents cfg.
Proof. unfold nEvents. lia. Qed.


(** Running solo, with the tests on the values read settled by [tac]. *)
Ltac solo_steps_with tac :=
  repeat (eapply solo_step;
          [reflexivity | cbv beta; cbn [effect set_mu set_state set_position
                                        mu state position stopOnce stopC]; tac]);
  try apply solo_stop.


(** Forward on a stopped player, alone: with position+2 <= len it
    launches the playback of the range (position+2, position+2); at the
    last event, where position+2 > len, it stops inside playRange at
    p.Lock(), which it cannot take: it holds the mutex itself. *)
Lemma Forward_solo cfg k sh :
  mu sh = false → state sh = stateStopped →
  (-1 ≤ position sh → position sh + 2 ≤ nEvents cfg →
   ∃ tr, solo (Forward cfg k) sh tr k sh
         ∧ ios tr = [StdoutWrite (String ESC "c")]
         ∧ launched tr = [playback cfg (position sh + 2) (position sh + 2)])
  ∧ (nEvents cfg ≤ position sh →
     ∃ tr, solo (Forward cfg k) sh tr k sh ∧ ios tr = [] ∧ launched tr = [])
  ∧ (position sh < nEvents cfg < position sh + 2 →
     ∃ tr, solo (Forward cfg k) sh tr
             (Lock (setState stateStopped (Unlock (Unlock k))))
             (set_mu true sh)
           ∧ ios tr = [] ∧ launched tr = []
           ∧ tstep (Lock (setState stateStopped (Unlock (Unlock k))))
               (set_mu true sh) = Blocked).
Proof.
  destruct sh as [m st pos once c]. simpl. intros -> ->.
  split; [|split].
  - intros Hlo Hhi.
    assert (H1 : (pos <? nEvents cfg) = true) by (apply Z.ltb_lt; lia).
    assert (H2 : (pos + 2 >? nEvents cfg) = false)
      by (rewrite Z.gtb_ltb; apply Z.ltb_ge; lia).
    assert (H3 : (pos + 2 <? 0) = false) by (apply Z.ltb_ge; lia).
    assert (H4 : (pos + 2 =? 0) = false) by (apply Z.eqb_neq; lia).
    eexists. split; [|split].
    + unfold Forward, playRange.
      solo_steps_with ltac:(rewrite ?H1, ?H2, ?H3; cbn [orb]).
    + reflexivity.
    + simpl. rewrite H4. reflexivity.
  - intros Hpos.
    assert (H1 : (pos <? nEvents cfg) = false) by (apply Z.ltb_ge; lia).
    eexists. split; [|split].
    + unfold Forward. solo_steps_with ltac:(rewrite ?H1).
    + reflexivity.
    + reflexivity.
  - intros Hpos.
    assert (H1 : (pos <? nEvents cfg) = true) by (apply Z.ltb_lt; lia).
    assert (H2 : (pos + 2 >? nEvents cfg) = true) by (apply Z.gtb_lt; lia).
    eexists. split; [|split; [|split]].
    + unfold Forward, playRange.
      solo_steps_with ltac:(rewrite ?H1, ?H2; cbn [orb]).
    + reflexivity.
    + reflexivity.
    + reflexivity.
Qed.

(** Forward on a stopped player whose position is the last index, alone:
    wherever it has got to, it has not returned. *)
Lemma Forward_blocked cfg sh tr p' sh' :
  mu sh = false → state sh = stateStopped → position sh = nEvents cfg - 1 →
  solo (Forward cfg Done) sh tr p' sh' →
  p' ≠ Done
  ∧ launched tr = [] ∧ Forall (λ l, l ≠ LBroadcast) (labels tr)
  ∧ tstep p' sh' ≠ Fatal
  ∧ state sh' = stateStopped ∧ position sh' = position sh
  ∧ ios tr = [].
Proof.
  destruct sh as [m st pos once c]. simpl. intros -> -> Hpos H.
  assert (H1 : (pos <? nEvents cfg) = true) by (apply Z.ltb_lt; lia).
  assert (H2 : (pos + 2 >? nEvents cfg) = true) by (apply Z.gtb_lt; lia).
  apply (solo_texec eq) in H; [|reflexivity].
  unfold Forward in H.
  tx H; [repeat split; try discriminate; repeat constructor; discriminate|].
  simpl in HR; subst.
  tx H; [repeat split; try discriminate; repeat constructor; discriminate|].
  simpl in HR; subst. simpl in H.
  tx H; [repeat split; try discriminate; repeat constructor; discriminate|].
  simpl in HR; subst. simpl in H. rewrite H1 in H.
  tx H; [repeat split; try discriminate; repeat constructor; discriminate|].
  simpl in HR; subst. simpl in H.
  tx H; [repeat split; try discriminate; repeat constructor; discriminate|].
  simpl in HR; subst. simpl in H.
  unfold playRange in H. rewrite H2 in H. simpl in H.
  tx H.
  all: repeat split; try discriminate; repeat constructor; discriminate.
Qed.


(** An invalid request made with the mutex free sets stateStopped and
    launches nothing. *)
Lemma playRange_invalid_free cfg from to k sh :
  from < 0 ∨ nEvents cfg < to → mu sh = false →
  ∃ tr, solo (playRange cfg from to k) sh tr k (set_state stateStopped sh)
        ∧ ios tr = [] ∧ launched tr = [].
Proof.
  intros Hbad Hmu. unfold playRange.
  assert (Hc : (to >? nEvents cfg) || (from <? 0) = true).
  { apply orb_true_iff. destruct Hbad as [H | H].
    - right. apply Z.ltb_lt. lia.
    - left. apply Z.gtb_lt. lia. }
  rewrite Hc. destruct sh as [m st pos once c]. simpl in Hmu. subst m.
  eexists. split; [unfold setState; solo_steps | split; reflexivity].
Qed.

(** An invalid request made by a thread that holds the mutex, as Rewind,
    Forward and TogglePause do: it cannot take a step. *)
Lemma playRange_invalid_locked cfg from to k sh :
  from < 0 ∨ nEvents cfg < to → mu sh = true →
  tstep (playRange cfg from to k) sh = Blocked.
Proof.
  intros Hbad Hmu. unfold playRange.
  assert (Hc : (to >? nEvents cfg) || (from <? 0) = true).
  { apply orb_true_iff. destruct Hbad as [H | H].
    - right. apply Z.ltb_lt. lia.
    - left. apply Z.gtb_lt. lia. }
  rewrite Hc. simpl. rewrite Hmu. reflexivity.
Qed.


(** ** Threads of the whole program are threads among others *)

Lemma texec_any_app p sh tr1 p1 sh1 :
  texec anyEnv p sh tr1 p1 sh1 →
  ∀ sh1' tr2 p2 sh2,
    texec anyEnv p1 sh1' tr2 p2 sh2 →
    ∃ sh0, texec anyEnv p sh0 (tr1 ++ tr2) p2 sh2.
Proof.
  induction 1 as [p sh | p sh l p1' sh1 tr p' sh' Hs HR H IH
                 | k sh sh1 tr p' sh' HR H IH]; intros sh1' tr2 p2 sh2 H2.
  - exists sh1'. exact H2.
  - destruct (IH _ _ _ _ H2) as [sh0 H0].
    exists sh. simpl. eapply texec_step; [exact Hs | exact I | exact H0].
  - destruct (IH _ _ _ _ H2) as [sh0 H0].
    exists sh. simpl. eapply texec_wake; [exact I | exact H0].
Qed.

Lemma wake_texec p sh : ∃ tr, texec anyEnv p sh tr (wake p) sh.
Proof.
  destruct p; try (exists []; apply texec_stop).
  exists [(sh, LWake)]. simpl. eapply texec_wake; [exact I | apply texec_stop].
Qed.

Lemma after_lookup l ths u p :
  ths !! u = Some p →
  after l ths !! u = Some p ∨ after l ths !! u = Some (wake p).
Proof.
  intros Hu. destruct l; simpl; auto.
  - right. rewrite list_lookup_fmap, Hu. reflexivity.
  - left. apply lookup_app_l_Some, Hu.
Qed.

(** One step of the program, seen from any of its threads. *)
Lemma step_texec t w w' u p :
  step t w = Some w' → threads w !! u = Some p →
  ∃ p' tr sh_a sh_b,
    threads w' !! u = Some p' ∧ texec anyEnv p sh_a tr p' sh_b.
Proof.
  unfold step. intros Hstep Hu.
  destruct (crashed w); [discriminate|].
  destruct (threads w !! t) as [q|] eqn:Ht; [|discriminate].
  destruct (tstep q (shared w)) as [l q'| | |] eqn:Hs; try discriminate;
    injection Hstep as <-; simpl.
  - destruct (decide (u = t)) as [->|Hne].
    + assert (Hq : q = p) by congruence. subst q.
      assert (Hins : <[t:=q']> (threads w) !! t = Some q').
      { apply list_lookup_insert_eq. eapply lookup_lt_Some, Ht. }
      destruct (after_lookup l _ t q' Hins) as [Ha | Ha].
      * exists q', [(shared w, l)], (shared w), (effect l (shared w)).
        split; [exact Ha|].
        eapply texec_step; [exact Hs | exact I | apply texec_stop].
      * destruct (wake_texec q' (effect l (shared w))) as [tr Htr].
        exists (wake q'), ((shared w, l) :: tr), (shared w), (effect l (shared w)).
        split; [exact Ha|].
        eapply texec_step; [exact Hs | exact I | exact Htr].
    + assert (Hins : <[t:=q']> (threads w) !! u = Some p).
      { rewrite list_lookup_insert_ne by congruence. exact Hu. }
      destruct (after_lookup l _ u p Hins) as [Ha | Ha].
      * exists p, [], (shared w), (shared w). split; [exact Ha | apply texec_stop].
      * destruct (wake_texec p (shared w)) as [tr Htr].
        exists (wake p), tr, (shared w), (shared w). split; [exact Ha | exact Htr].
  - exists p, [], (shared w), (shared w). split; [exact Hu | apply texec_stop].
Qed.

(** Over any schedule, each thread of the program goes through an
    execution among others: what holds of every such execution holds of
    every thread of every run. *)
Lemma run_texec sched : ∀ w u p,
  threads w !! u = Some p →
  ∃ p' tr sh_a sh_b,
    threads (run sched w) !! u = Some p' ∧ texec anyEnv p sh_a tr p' sh_b.
Proof.
  induction sched as [|t sched IH]; intros w u p Hu; simpl.
  - exists p, [], (shared w), (shared w). split; [exact Hu | apply texec_stop].
  - destruct (step t w) as [w'|] eqn:Hstep; simpl; [|apply IH, Hu].
    destruct (step_texec t w w' u p Hstep Hu) as (p1 & tr1 & sa & sb & Hu1 & H1).
    destruct (IH w' u p1 Hu1) as (p2 & tr2 & sa2 & sb2 & Hu2 & H2).
    destruct (texec_any_app _ _ _ _ _ H1 _ _ _ _ H2) as [sh0 H0].
    exists p2, (tr1 ++ tr2), sh0, sb2. split; [exact Hu2 | exact H0].
Qed.

(** ** What a playback writes, among other threads *)

Lemma ios_cons sh l tr :
  ios ((sh, l) :: tr) = match l with LPerform io => [io] | _ => [] end ++ ios tr.
Proof. destruct l; reflexivity. Qed.

Lemma timestampFrame_ios R cfg message k sh tr p' sh' :
  texec R (timestampFrame cfg message k) sh tr p' sh' →
  ios tr `prefix_of` overlay cfg message
  ∨ ∃ tr1 tr2 sh1,
      tr = tr1 ++ tr2 ∧ ios tr1 = overlay cfg message
      ∧ texec R k sh1 tr2 p' sh'.
Proof.
  unfold timestampFrame, overlay, esc. intros H.
  destruct (termWidth cfg) as [width|].
  - tx H; [left; apply prefix_nil|].
    tx H; [left; simpl; eexists; reflexivity|].
    tx H; [left; simpl; eexists; reflexivity|].
    tx H; [left; simpl; eexists; reflexivity|].
    right. eexists [_; _; _; _], _, _.
    split; [reflexivity|]. split; [reflexivity | exact H].
  - right. exists [], tr, sh. split; [reflexivity|].
    split; [reflexivity | exact H].
Qed.

Lemma applyDelay_ios R cfg prev e k sh tr p' sh' :
  texec R (applyDelay cfg prev e k) sh tr p' sh' →
  ios tr `prefix_of`
    (overlay cfg (ev_time e)
     ++ [ClockSleep (smoothDelay (wrap64 (eventTime e - prev)))])
  ∨ ∃ tr1 tr2 sh1,
      tr = tr1 ++ tr2
      ∧ ios tr1 = overlay cfg (ev_time e)
                  ++ [ClockSleep (smoothDelay (wrap64 (eventTime e - prev)))]
      ∧ texec R (k (eventTime e)) sh1 tr2 p' sh'.
Proof.
  unfold applyDelay. intros H.
  apply timestampFrame_ios in H as [Hp | (tr1 & tr2 & sh1 & -> & Hio & H)].
  { left. apply prefix_app_r, Hp. }
  tx H.
  - left. rewrite app_nil_r, Hio. apply prefix_app_r. reflexivity.
  - right. eexists (tr1 ++ [_]), _, _.
    split; [rewrite <- app_assoc; reflexivity|].
    split; [|exact H]. rewrite ios_app, Hio. reflexivity.
Qed.

(** The deferred calls write nothing. *)
Lemma deferredStopped_ios R k0 sh tr p' sh' :
  k0 = Done ∨ k0 = Panic →
  texec R (deferredStopped k0) sh tr p' sh' → ios tr = [].
Proof.
  intros Hk H. unfold deferredStopped, setState in H.
  tx H; [reflexivity|].
  tx H; [reflexivity|].
  tx H; [reflexivity|].
  tx H; [reflexivity|].
  destruct Hk as [-> | ->]; tx H; reflexivity.
Qed.

(** The loop among other threads, stopped anywhere, interrupted or not:
    what it has written so far opens the full rendering of its events. *)
Lemma playLoop_prefix R cfg from p' sh' : ∀ es i prev k sh tr rest,
  0 ≤ i →
  drop (Z.to_nat i) (sessionEvents cfg) = es ++ rest →
  (∀ r sh1 tr1, texec R (k r) sh1 tr1 p' sh' → ios tr1 = []) →
  texec R (playLoop cfg from (length es) i prev k) sh tr p' sh' →
  ios tr `prefix_of`
    (renderInstant cfg (take (Z.to_nat (from - i)) es)
     ++ renderPaced cfg prev (drop (Z.to_nat (from - i)) es)).
Proof.
  induction es as [|e es IH]; intros i prev k sh tr rest Hi Hdrop Hk H.
  - simpl in H. rewrite (Hk _ _ _ H). apply prefix_nil.
  - assert (Hlook : sessionEvents cfg !! Z.to_nat i = Some e).
    { rewrite <- (Nat.add_0_r (Z.to_nat i)), <- lookup_drop, Hdrop.
      reflexivity. }
    assert (Hdrop' : drop (Z.to_nat (i + 1)) (sessionEvents cfg) = es ++ rest).
    { replace (Z.to_nat (i + 1)) with (S (Z.to_nat i)) by lia.
      rewrite (drop_S _ _ _ Hlook) in Hdrop. simpl in Hdrop.
      injection Hdrop as Hd. exact Hd. }
    assert (Hnext : ∀ prev' sh2 tr2,
      texec R (playLoop cfg from (length es) (i + 1) prev' k) sh2 tr2 p' sh' →
      ios tr2 `prefix_of`
        (renderInstant cfg (take (Z.to_nat (from - (i + 1))) es)
         ++ renderPaced cfg prev' (drop (Z.to_nat (from - (i + 1))) es))).
    { intros prev' sh2 tr2 H2.
      apply (IH (i + 1) prev' k sh2 tr2 rest); [lia | exact Hdrop' | exact Hk | exact H2]. }
    assert (Hwrite : ∀ prev' io sh2 tr2,
      texec R (Perform io (StorePosition i (playLoop cfg from (length es) (i + 1) prev' k)))
        sh2 tr2 p' sh' →
      ios tr2 `prefix_of`
        (io :: renderInstant cfg (take (Z.to_nat (from - (i + 1))) es)
            ++ renderPaced cfg prev' (drop (Z.to_nat (from - (i + 1))) es))).
    { intros prev' io sh2 tr2 H2.
      tx H2; [apply prefix_nil|].
      tx H2; [simpl; apply prefix_cons, prefix_nil|].
      simpl. apply prefix_cons. eapply Hnext, H2. }
    assert (Hfrom : ((from <=? i) = true ∧ Z.to_nat (from - i) = 0%nat
                     ∧ Z.to_nat (from - (i + 1)) = 0%nat)
                    ∨ ((from <=? i) = false
                       ∧ Z.to_nat (from - i) = S (Z.to_nat (from - (i + 1))))).
    { destruct (Z.leb_spec from i); [left | right]; repeat split; lia. }
    assert (Hspec : ev_type e ≠ SessionPrintEvent →
      renderInstant cfg (take (Z.to_nat (from - i)) (e :: es))
      ++ renderPaced cfg prev (drop (Z.to_nat (from - i)) (e :: es))
      = rendered cfg e
        ++ renderInstant cfg (take (Z.to_nat (from - (i + 1))) es)
        ++ renderPaced cfg prev (drop (Z.to_nat (from - (i + 1))) es)).
    { intros Hnp. destruct Hfrom as [(Hle & Hz & Hz') | (Hle & Hz)].
      - rewrite Hz, Hz'. simpl. destruct (ev_type e); [congruence|reflexivity..].
      - rewrite Hz. simpl. rewrite <- app_assoc. reflexivity. }
    change (length (e :: es)) with (S (length es)) in H.
    cbn [playLoop] in H. unfold stopRequested in H.
    tx H; [apply prefix_nil|].
    tx H; [apply prefix_nil|].
    tx H; [apply prefix_nil|].
    rewrite !ios_cons. cbn [app].
    revert H. case_bool_decide as Hstop.
    { intros H. rewrite (Hk _ _ _ H). apply prefix_nil. }
    rewrite Hlook.
    destruct (ev_type e) eqn:Htype.
    + (* print *)
      assert (Hdata : ∀ prev' sh2 tr2,
        texec R
          match sliceBytes (stream cfg) (ev_offset e)
                  (wrap64 (ev_offset e + ev_bytes e)) with
          | Some data =>
              Perform (StdoutWrite data)
                (StorePosition i (playLoop cfg from (length es) (i + 1) prev' k))
          | None => k Faulted
          end sh2 tr2 p' sh' →
        ios tr2 `prefix_of`
          (rendered cfg e
           ++ renderInstant cfg (take (Z.to_nat (from - (i + 1))) es)
           ++ renderPaced cfg prev' (drop (Z.to_nat (from - (i + 1))) es))).
      { intros prev' sh2 tr2. unfold rendered. rewrite Htype.
        destruct (sliceBytes _ _ _) as [data|]; intros H2.
        - eapply Hwrite, H2.
        - rewrite (Hk _ _ _ H2). apply prefix_nil. }
      destruct Hfrom as [(Hle & Hz & Hz') | (Hle & Hz)]; rewrite Hle.
      * intros H. rewrite Hz. simpl. rewrite Htype.
        apply applyDelay_ios in H as [Hp | (tr1 & tr2 & sh1 & -> & Hio & H)].
        { eapply prefix_app_r in Hp. rewrite <- app_assoc in Hp.
          exact Hp. }
        rewrite ios_app, Hio, <- app_assoc. apply prefix_app. simpl.
        apply prefix_cons.
        pose proof (Hdata _ _ _ H) as Hd. rewrite Hz' in Hd. exact Hd.
      * intros H. rewrite Hz. simpl. rewrite <- app_assoc.
        apply (Hdata _ _ _ H).
    + intros H. rewrite (Hspec ltac:(congruence)). unfold rendered.
      rewrite Htype. revert H.
      destruct (splitColon (ev_size e)) as [|width [|height [|? ?]]]; intros H;
        first [eapply Hwrite, H | eapply Hnext, H].
    + intros H. rewrite (Hspec ltac:(congruence)). unfold rendered.
      rewrite Htype. revert H.
      destruct (splitColon (ev_size e)) as [|width [|height [|? ?]]]; intros H;
        first [eapply Hwrite, H | eapply Hnext, H].
    + intros H. rewrite (Hspec ltac:(congruence)). unfold rendered.
      rewrite Htype. eapply Hnext, H.
Qed.

(** A playback goroutine among other threads, stopped anywhere,
    interrupted or not: what it has written so far opens the rendering of
    the events before [to], from the first one on, those before [from]
    back to back. *)
Lemma playback_prefix R cfg from to sh tr p' sh' :
  0 ≤ to ≤ nEvents cfg →
  texec R (playback cfg from to) sh tr p' sh' →
  ios tr `prefix_of`
    (renderInstant cfg
       (take (Z.to_nat from) (take (Z.to_nat to) (sessionEvents cfg)))
     ++ renderPaced cfg 0
          (drop (Z.to_nat from) (take (Z.to_nat to) (sessionEvents cfg)))).
Proof.
  intros Hto H. unfold playback, setState in H.
  set (es := take (Z.to_nat to) (sessionEvents cfg)).
  assert (Hlen : length es = Z.to_nat to).
  { unfold es. rewrite length_take. unfold nEvents in Hto. lia. }
  assert (Hdrop : drop (Z.to_nat 0) (sessionEvents cfg)
                  = es ++ drop (Z.to_nat to) (sessionEvents cfg)).
  { simpl. unfold es. symmetry. apply take_drop. }
  tx H; [apply prefix_nil|].
  tx H; [apply prefix_nil|].
  tx H; [apply prefix_nil|].
  tx H; [apply prefix_nil|].
  rewrite !ios_cons. cbn [app].
  rewrite <- Hlen in H.
  replace (Z.to_nat from) with (Z.to_nat (from - 0)) by (f_equal; lia).
  eapply (playLoop_prefix R cfg from p' sh' es 0 0); [lia | exact Hdrop | | exact H].
  intros r sh1 tr1 Hr. destruct r as [j| |].
  - destruct (decide (j = nEvents cfg)).
    + unfold notifyStopped in Hr.
      tx Hr; [reflexivity | |];
        apply (deferredStopped_ios R Done) in Hr; auto.
    + apply (deferredStopped_ios R Done) in Hr; auto.
  - apply (deferredStopped_ios R Done) in Hr; auto.
  - apply (deferredStopped_ios R Panic) in Hr; auto.
Qed.

Lemma sleeps_prefix l1 l2 : l1 `prefix_of` l2 → sleeps l2 = [] → sleeps l1 = [].
Proof.
  intros [l ->]. rewrite sleeps_app. intros H.
  apply app_eq_nil in H as [H _]. exact H.
Qed.

Lemma tstep_once p sh f p1 :
  tstep p sh = Next (LOnceRun f) p1 → stopOnce sh = false.
Proof.
  destruct p; simpl; intros H;
    repeat match type of H with
           | (if ?c then _ else _) = _ => destruct c eqn:?
           end;
    try discriminate H.
  reflexivity.
Qed.

(** close(p.stopC) is only ever executed on a Once that was not used. *)
Lemma texec_once R p sh tr p' sh' :
  texec R p sh tr p' sh' →
  ∀ shp f, (shp, LOnceRun f) ∈ tr → stopOnce shp = false.
Proof.
  induction 1 as [p sh | p sh l p1 sh1 tr p' sh' Hs HR H IH
                 | k sh sh1 tr p' sh' HR H IH]; intros shp f Hin.
  - apply elem_of_nil in Hin. destruct Hin.
  - apply elem_of_cons in Hin as [Heq | Hin]; [|eapply IH, Hin].
    injection Heq as -> <-. eapply tstep_once, Hs.
  - apply elem_of_cons in Hin as [Heq | Hin]; [|eapply IH, Hin].
    discriminate Heq.
Qed.

(** ** The package's tests, replayed *)

(** TestEmptyPlay: Play on an empty recording ends stopped with the
    channel closed. *)
Example TestEmptyPlay_replayed :
  let w := run ([0; 0]%nat ++ replicate 9 1%nat) (initWorld cfgEmpty [[OpPlay]]) in
  shared w = mkShared false stateStopped (-1) true 1
  ∧ threads w = [Done; Done]
  ∧ output ([0; 0]%nat ++ replicate 9 1%nat) (initWorld cfgEmpty [[OpPlay]])
    = [StdoutWrite (String ESC "c")].
Proof. vm_compute. repeat split. Qed.

(** In that run the channel is closed (the deferred notifyStopped runs
    first) before the deferred state update: five steps into the
    goroutine the channel is closed and the state is still statePlaying. *)
Example TestEmptyPlay_closed_before_stopped :
  shared (run ([0; 0]%nat ++ replicate 5 1%nat) (initWorld cfgEmpty [[OpPlay]]))
  = mkShared false statePlaying (-1) true 1.
Proof. vm_compute. reflexivity. Qed.

(** TestPlayPause: paused during the sleep before the second event, the
    player stops at position 1 with the channel open; TogglePause returns
    once the new goroutine is playing; that goroutine writes the first two
    events at once, sleeps 250 ms (300 ms, smoothed) before the third, and
    ends stopped at position 2 with the channel closed. *)
Example TestPlayPause_replayed :
  shared (run testPlayPausePaused testPlayPause)
  = mkShared false stateStopped 1 false 0
  ∧ shared (run testPlayPauseResumed testPlayPause)
    = mkShared false statePlaying 1 false 0
  ∧ threads (run testPlayPauseResumed testPlayPause) !! 0%nat = Some Done
  ∧ shared (run testPlayPauseSchedule testPlayPause)
    = mkShared false stateStopped 2 true 1
  ∧ threads (run testPlayPauseSchedule testPlayPause) = [Done; Done; Done; Done]
  ∧ output testPlayPauseSchedule testPlayPause
    = [ StdoutWrite (String ESC "c");
        ClockSleep (100 * Millisecond); StdoutWrite "";
        ClockSleep (100 * Millisecond); StdoutWrite "";
        StdoutWrite (String ESC "c");
        StdoutWrite ""; StdoutWrite "";
        ClockSleep (250 * Millisecond); StdoutWrite "" ].
Proof. vm_compute. repeat split. Qed.

(** TogglePause waits for statePlaying and nothing else: when the
    goroutine it launched has come and gone before the caller is back
    from cond.Wait (here on the empty recording), the caller finds
    stateStopped, parks again, and nobody is left to wake it. *)
Example TogglePause_can_miss_statePlaying :
  let w := run (replicate 6 0%nat ++ replicate 9 1%nat ++ replicate 2 0%nat)
             (initWorld cfgEmpty [[OpTogglePause]]) in
  shared w = mkShared false stateStopped (-1) true 1
  ∧ threads w = [Parked (Lock (WaitUntil statePlaying (Unlock Done))); Done]
  ∧ stuck w.
Proof.
  set (w := run _ _).
  assert (Hw : w = mkWorld (mkShared false stateStopped (-1) true 1)
                 [Parked (Lock (WaitUntil statePlaying (Unlock Done))); Done]
                 false)
    by (vm_compute; reflexivity).
  rewrite Hw. split; [reflexivity|]. split; [reflexivity|].
  intros [|[|t]]; reflexivity.
Qed.

(** ** The claims *)

(** C1. playRange(from, to) with a valid range clears the screen and
    launches one playback goroutine, with [to = 0] read as the length of
    the stream.  Whatever [from] is, and however the goroutine is
    interleaved with other threads or interrupted, what it has written at
    any moment opens the rendering of the events of indices 0 .. to-1 in
    order: those of index below [from] back to back, with no sleep among
    them, and the others each with its overlay and smoothed sleep, the
    first of them measured from timestamp 0.  Left alone on a recording
    whose byte ranges are in bounds, it writes all of that rendering and
    returns. *)
Theorem playRange_renders_from_index_zero
    (cfg : Config) (from to : Z) (k : Prog) (sh shg : Shared) :
  0 ≤ from → 0 ≤ to ≤ nEvents cfg → mu shg = false →
  let to' := if to =? 0 then nEvents cfg else to in
  let es := take (Z.to_nat to') (sessionEvents cfg) in
  let page := renderInstant cfg (take (Z.to_nat from) es)
              ++ renderPaced cfg 0 (drop (Z.to_nat from) es) in
  (∃ tr, solo (playRange cfg from to k) sh tr k sh
         ∧ ios tr = [StdoutWrite (String ESC "c")]
         ∧ launched tr = [playback cfg from to'])
  ∧ (∀ R sh0 tr p' sh',
       texec R (playback cfg from to') sh0 tr p' sh' →
       ios tr `prefix_of` page)
  ∧ (forallb (inBounds cfg) es = true →
     ∃ sh', runs (playback cfg from to') shg page Done sh')
  ∧ sleeps (renderInstant cfg (take (Z.to_nat from) es)) = [].
Proof.
  intros Hfrom Hto Hmu to' es page.
  assert (Hto' : 0 ≤ to' ≤ nEvents cfg).
  { unfold to'. destruct (Z.eqb_spec to 0); lia. }
  split; [|split; [|split]].
  - apply playRange_valid; lia.
  - intros R sh0 tr p' sh' H. apply (playback_prefix R cfg from to' _ _ _ _ Hto' H).
  - intros Hin. eexists. apply playback_runs; [exact Hmu | exact Hto' | exact Hin].
  - apply sleeps_renderInstant.
Qed.

Lemma playRange_renders_from_index_zero_witness :
  ∃ sh', runs (playback cfgDemo 2 4) newSessionPlayer
    [ StdoutWrite (String ESC "[8;25;80t");
      StdoutWrite "hello";
      StdoutWrite (String ESC "7");
      StdoutWrite (String ESC "[0;78f");
      StdoutWrite "t2";
      StdoutWrite (String ESC "8");
      ClockSleep (200 * Millisecond);
      StdoutWrite " world" ]
    Done sh'.
Proof.
  exact (proj1 (proj2 (proj2
    (playRange_renders_from_index_zero cfgDemo 2 0 Done
       newSessionPlayer newSessionPlayer
       ltac:(lia) ltac:(unfold nEvents; simpl; lia) eq_refl))) eq_refl).
Defined.

(** C2, on a recording of one event.  After Play has run to the end,
    Forward requests the range (2, 2), beyond the stream.  The caller holds
    the mutex (Forward took it) and stops for good at the p.Lock() of
    playRange: no thread can take a step any more, the caller has not
    returned, and the mutex stays held.  The state is stateStopped, as it
    was before the call. *)
Theorem Forward_at_end_of_stream_never_returns :
  let w := run playThenForwardSchedule playThenForward in
  stuck w
  ∧ threads w = [Lock (setState stateStopped (Unlock (Unlock Done))); Done]
  ∧ shared w = mkShared true stateStopped 0 true 1
  ∧ crashed w = false
  ∧ ∀ sched, run sched w = w.
Proof.
  set (w := run playThenForwardSchedule playThenForward).
  assert (Hw : w = mkWorld (mkShared true stateStopped 0 true 1)
                 [Lock (setState stateStopped (Unlock (Unlock Done))); Done]
                 false)
    by (vm_compute; reflexivity).
  assert (Hstuck : stuck w).
  { rewrite Hw. intros [|[|t]]; reflexivity. }
  split; [exact Hstuck|].
  split; [rewrite Hw; reflexivity|].
  split; [rewrite Hw; reflexivity|].
  split; [rewrite Hw; reflexivity|].
  clearbody w.
  intros sched. induction sched as [|t sched IH]; simpl; [reflexivity|].
  rewrite (Hstuck t). simpl. exact IH.
Qed.

(** C3. applyDelay sleeps for the smoothed value of the raw delay
    d = eventTimestamp - previousAppliedTimestamp (a time.Duration
    subtraction): 0 when d < 10ms, d itself from 10ms to 250ms, 250ms
    between 250ms and 500ms, 500ms between 500ms and 1000ms, 1000ms from
    1000ms on; it then continues with the raw timestamp of the event as
    the previous one. *)
Theorem applyDelay_quantization
    (cfg : Config) (prev : Z) (e : EventFields) (k : Z → Prog) (sh : Shared) :
  let d := wrap64 (eventTime e - prev) in
  (∃ tr, solo (applyDelay cfg prev e k) sh tr (k (eventTime e)) sh
         ∧ ios tr = overlay cfg (ev_time e) ++ [ClockSleep (smoothDelay d)])
  ∧ (d < 10 * Millisecond → smoothDelay d = 0)
  ∧ (10 * Millisecond ≤ d ≤ 250 * Millisecond → smoothDelay d = d)
  ∧ (250 * Millisecond < d < 500 * Millisecond → smoothDelay d = 250 * Millisecond)
  ∧ (500 * Millisecond < d < 1000 * Millisecond → smoothDelay d = 500 * Millisecond)
  ∧ (1000 * Millisecond ≤ d → smoothDelay d = 1000 * Millisecond)
  ∧ (- 2 ^ 63 ≤ eventTime e - prev < 2 ^ 63 → d = eventTime e - prev).
Proof.
  intros d. split; [apply applyDelay_solo|].
  pose proof (smoothDelay_table d) as (H1 & H2 & H3 & H4 & H5).
  repeat split; try assumption. apply wrap64_id.
Qed.

Lemma applyDelay_quantization_witness :
  smoothDelay (wrap64 (eventTime (mkEvent SessionPrintEvent 700 0 0 "" "")
                       - 100 * Millisecond))
  = 500 * Millisecond.
Proof.
  exact (proj1 (proj2 (proj2 (proj2 (proj2
    (applyDelay_quantization cfgDemo (100 * Millisecond)
       (mkEvent SessionPrintEvent 700 0 0 "" "") (λ _, Done) newSessionPlayer)))))
    ltac:(vm_compute; split; reflexivity)).
Defined.

(** C4. close(p.stopC) is executed at most once over the life of a player,
    whatever its callers do and however the threads are scheduled.  A
    playback goroutine, however it is interleaved with other threads,
    closes the channel only when its range ends at the length of the
    stream and its loop has run through every index without seeing a stop
    request; a run that sees a stop request, or whose stop bound is below
    the length of the stream, does not close it. *)
Theorem stopC_closed_once_at_end_of_stream (cfg : Config) :
  (∀ callers sched,
     (stopC (shared (run sched (initWorld cfg callers))) ≤ 1)%nat)
  ∧ (∀ R from to sh tr p' sh',
       0 ≤ to → texec R (playback cfg from to) sh tr p' sh' →
       fired tr = true →
       to = nEvents cfg
       ∧ Z.of_nat (length (loadedStates tr)) = nEvents cfg
       ∧ (stateStopping ∉ loadedStates tr))
  ∧ (∀ R from to sh tr p' sh',
       0 ≤ to → texec R (playback cfg from to) sh tr p' sh' →
       (stateStopping ∈ loadedStates tr) ∨ to < nEvents cfg →
       fired tr = false).
Proof.
  split; [|split].
  - intros callers sched. apply stopC_closed_at_most_once.
  - intros R from to sh tr p' sh'. apply playback_fires.
  - intros R from to sh tr p' sh' Hto H Hor.
    destruct (fired tr) eqn:Hf; [|reflexivity].
    destruct (playback_fires R cfg from to sh tr p' sh' Hto H Hf)
      as (Heq & _ & Hnot).
    destruct Hor as [Hin | Hlt]; [contradiction | lia].
Qed.

Lemma stopC_closed_once_at_end_of_stream_witness :
  ∃ tr sh',
    texec anyEnv (playback cfgOne 0 1) newSessionPlayer tr Done sh'
    ∧ fired tr = true
    ∧ 1 = nEvents cfgOne
    ∧ (stateStopping ∉ loadedStates tr).
Proof.
  eexists _, _.
  match goal with |- ?A ∧ ?B ∧ _ => assert (H : A); [|assert (Hf : B)] end.
  { apply solo_texec; [intros x; exact I|].
    apply (soloRun_solo 40). vm_compute. reflexivity. }
  { reflexivity. }
  destruct (proj1 (proj2 (stopC_closed_once_at_end_of_stream cfgOne))
              anyEnv 0 1 _ _ _ _ ltac:(lia) H Hf) as (Hto & _ & Hnot).
  split; [exact H|]. split; [exact Hf|]. split; [exact Hto | exact Hnot].
Defined.

(** C5, as stated, fails on the sample session, whose last event is one
    the player has no case for: Play launches the playback of the whole
    stream, which runs to the end and closes the channel, and position is
    2, the index of the last output, not 3.  So it is not true that for
    every non-empty stream a completed Play leaves position at len-1. *)
Lemma Play_position_counterexample :
  (sessionEvents cfgDemo ≠ []
   ∧ (∃ tr, solo (Play cfgDemo Done) newSessionPlayer tr Done newSessionPlayer
            ∧ launched tr = [playback cfgDemo 0 (nEvents cfgDemo)])
   ∧ (∃ io, runs (playback cfgDemo 0 (nEvents cfgDemo)) newSessionPlayer io Done
              (mkShared false stateStopped 2 true 1))
   ∧ 2 ≠ nEvents cfgDemo - 1)
  ∧ ¬ (∀ cfg io sh',
         sessionEvents cfg ≠ [] →
         runs (playback cfg 0 (nEvents cfg)) newSessionPlayer io Done sh' →
         position sh' = nEvents cfg - 1).
Proof.
  assert (Hrun : ∃ io, runs (playback cfgDemo 0 (nEvents cfgDemo))
                         newSessionPlayer io Done
                         (mkShared false stateStopped 2 true 1)).
  { eexists. eexists. split; [|reflexivity].
    apply (soloRun_solo 60). vm_compute. reflexivity. }
  split.
  - split; [discriminate|]. split; [|split].
    + eexists. split; [unfold Play, playRange; simpl; solo_steps | reflexivity].
    + exact Hrun.
    + vm_compute. discriminate.
  - intros Hall. destruct Hrun as [io Hrun].
    specialize (Hall cfgDemo io _ ltac:(discriminate) Hrun).
    vm_compute in Hall. discriminate Hall.
Qed.

(** C5, amended.  Play launches the playback of the whole stream.  When
    that goroutine runs to the end with nobody else, position is the index
    of the last event played (an output, or a resize or session start
    whose size has the form width:height) and is left as it was when
    there is none; it is len-1 when the last event of the stream is
    played.  The player is then stopped and the channel, open before, has
    been closed exactly once. *)
Theorem Play_completes_at_last_played
    (cfg : Config) (k : Prog) (sh shg : Shared) :
  sessionEvents cfg ≠ [] → mu shg = false →
  forallb (inBounds cfg) (sessionEvents cfg) = true →
  (∃ tr, solo (Play cfg k) sh tr k sh
         ∧ launched tr = [playback cfg 0 (nEvents cfg)])
  ∧ ∃ io sh',
      runs (playback cfg 0 (nEvents cfg)) shg io Done sh'
      ∧ position sh' = lastPlayed (sessionEvents cfg) 0 (position shg)
      ∧ (∀ e, last (sessionEvents cfg) = Some e → played e = true →
              position sh' = nEvents cfg - 1)
      ∧ state sh' = stateStopped
      ∧ stopOnce sh' = true
      ∧ (onceInv shg → stopC sh' = 1%nat).
Proof.
  intros Hne Hmu Hin. split.
  - destruct (playRange_valid cfg 0 0 k sh ltac:(lia) (nEvents_nonneg cfg))
      as (tr & Htr & _ & Hl).
    exists tr. split; [exact Htr | exact Hl].
  - assert (Htake : take (Z.to_nat (nEvents cfg)) (sessionEvents cfg)
                    = sessionEvents cfg).
    { apply take_ge. unfold nEvents. lia. }
    pose proof (playback_runs cfg 0 (nEvents cfg) shg Hmu
                  ltac:(pose proof (nEvents_nonneg cfg); lia)
                  ltac:(rewrite Htake; exact Hin)) as Hrun.
    rewrite Htake in Hrun.
    eexists _, _. split; [exact Hrun|]. simpl.
    rewrite bool_decide_eq_true_2 by reflexivity.
    repeat split.
    + intros e Hlast Hp. rewrite (lastPlayed_last _ e 0 _ Hlast Hp).
      unfold nEvents. lia.
    + apply orb_true_r.
    + unfold onceInv. intros Hinv. destruct (stopOnce shg); simpl; lia.
Qed.

Lemma Play_completes_at_last_played_witness :
  ∃ io sh',
    runs (playback cfgOne 0 (nEvents cfgOne)) newSessionPlayer io Done sh'
    ∧ position sh' = nEvents cfgOne - 1
    ∧ stopC sh' = 1%nat.
Proof.
  destruct (Play_completes_at_last_played cfgOne Done newSessionPlayer
              newSessionPlayer ltac:(discriminate) eq_refl eq_refl)
    as (_ & io & sh' & Hrun & _ & Hlast & _ & _ & Hc).
  exists io, sh'. split; [exact Hrun|]. split.
  - apply (Hlast (mkEvent SessionPrintEvent 100 0 1 "" "t0")); reflexivity.
  - apply Hc. reflexivity.
Defined.

(** C6, on the recording with no events.  TogglePause on the fresh player
    finds stateStopped, requests the range (0, 0), which launches the
    playback goroutine, and parks in waitUntil(statePlaying).  The
    goroutine sets statePlaying; its broadcast wakes the caller, which has
    still to take the mutex again.  When the goroutine runs to its end
    first, the state is stateStopped by the time the caller looks: the
    caller parks once more, the goroutine has returned, and no thread can
    take a step any more.  The state has been statePlaying, and the call
    never returns. *)
Theorem TogglePause_never_returns_after_missed_statePlaying :
  let w0 := initWorld cfgEmpty [[OpTogglePause]] in
  let w := run (replicate 6 0%nat ++ replicate 9 1%nat ++ replicate 2 0%nat) w0 in
  threads (run (replicate 6 0%nat) w0)
  = [Parked (Lock (WaitUntil statePlaying (Unlock Done))); playback cfgEmpty 0 0]
  ∧ shared (run (replicate 6 0%nat ++ replicate 3 1%nat) w0)
    = mkShared true statePlaying (-1) false 0
  ∧ threads (run (replicate 6 0%nat ++ replicate 3 1%nat) w0) !! 0%nat
    = Some (Lock (WaitUntil statePlaying (Unlock Done)))
  ∧ shared w = mkShared false stateStopped (-1) true 1
  ∧ threads w = [Parked (Lock (WaitUntil statePlaying (Unlock Done))); Done]
  ∧ crashed w = false
  ∧ stuck w
  ∧ ∀ sched, run sched w = w.
Proof.
  intros w0 w.
  assert (Hw : w = mkWorld (mkShared false stateStopped (-1) true 1)
                 [Parked (Lock (WaitUntil statePlaying (Unlock Done))); Done]
                 false)
    by (vm_compute; reflexivity).
  assert (Hstuck : stuck w).
  { rewrite Hw. intros [|[|t]]; reflexivity. }
  split; [vm_compute; reflexivity|].
  split; [vm_compute; reflexivity|].
  split; [vm_compute; reflexivity|].
  split; [rewrite Hw; reflexivity|].
  split; [rewrite Hw; reflexivity|].
  split; [rewrite Hw; reflexivity|].
  split; [exact Hstuck|].
  clearbody w.
  intros sched. induction sched as [|t sched IH]; simpl; [reflexivity|].
  rewrite (Hstuck t). simpl. exact IH.
Qed.

(** What TogglePause has done in any execution in which it returns: it
    takes the mutex and reads the state.  When that is statePlaying it stores
    stateStopping, broadcasts, and waits in waitUntil(stateStopped), which
    it passes only on a state that is stateStopped, before it unlocks.
    Otherwise it reads position, requests the range (position+1, 0), which
    for position >= -1 launches a playback paced from position+1 up to the
    end of the stream, and waits in waitUntil(statePlaying), which it
    passes only on a state that is statePlaying, before it unlocks. *)
Theorem TogglePause_stops_or_resumes
    (cfg : Config) (R : Shared → Shared → Prop) (sh sh' : Shared)
    (tr : list (Shared * Label)) :
  texec R (TogglePause cfg Done) sh tr Done sh' →
  ∃ s0 rest,
    labels tr = LLock :: LLoadState s0 :: rest
    ∧ (s0 = statePlaying →
       ∃ waits,
         rest = LStoreState stateStopping :: LBroadcast
                :: waits ++ [LWaitPass stateStopped; LUnlock]
         ∧ Forall (waitingLabel stateStopped) waits)
    ∧ (s0 ≠ statePlaying →
       ∃ pos started waits,
         rest = LLoadPosition pos
                :: started ++ waits ++ [LWaitPass statePlaying; LUnlock]
         ∧ Forall (waitingLabel statePlaying) waits
         ∧ (-1 ≤ pos →
            started = [LPerform (StdoutWrite (String ESC "c"));
                       LGo (playback cfg (pos + 1) (nEvents cfg))]))
    ∧ (∀ shp s, (shp, LWaitPass s) ∈ tr → state shp = s).
Proof.
  intros H. pose proof (texec_pass _ _ _ _ _ _ H) as Hpass.
  unfold TogglePause, setState, waitUntil in H.
  txd H. txd H.
  eexists _, _. split; [rewrite !labels_cons; reflexivity|].
  split; [|split; [|exact Hpass]].
  - intros Hplay. rewrite decide_True in H by exact Hplay.
    txd H. txd H.
    apply (waiting_texec R stateStopped (Unlock Done)) in H
      as (waits & shp & tr2 & sh1 & -> & Hw & _ & H); [|left; reflexivity].
    txd H. apply texec_Done_inv in H as (-> & _).
    exists (labels waits). split; [|exact Hw].
    rewrite !labels_cons, labels_app. reflexivity.
  - intros Hnot. rewrite decide_False in H by exact Hnot.
    txd H.
    apply playRange_texec in H
      as (started & tr2 & sh1 & -> & H & Hvalid & _).
    apply (waiting_texec R statePlaying (Unlock Done)) in H
      as (waits & shp & tr3 & sh2 & -> & Hw & _ & H); [|left; reflexivity].
    txd H. apply texec_Done_inv in H as (-> & _).
    eexists _, (labels started), (labels waits).
    split; [|split; [exact Hw|]].
    + rewrite !labels_cons, !labels_app. reflexivity.
    + intros Hpos. apply Hvalid; [lia | apply nEvents_nonneg].
Qed.

Lemma TogglePause_stops_or_resumes_witness :
  ∃ tr sh',
    texec anyEnv (TogglePause cfgOne Done)
      (mkShared false statePlaying 0 false 0) tr Done sh'
    ∧ ∃ s0 rest, labels tr = LLock :: LLoadState s0 :: rest.
Proof.
  eexists _, _.
  match goal with |- ?A ∧ _ => assert (H : A) end.
  { unfold TogglePause, setState, waitUntil.
    (* p.Lock(); the state is statePlaying *)
    eapply (texec_step anyEnv _ _ _ _ (mkShared true statePlaying 0 false 0));
      [reflexivity | exact I |].
    eapply (texec_step anyEnv _ _ _ _ (mkShared true statePlaying 0 false 0));
      [reflexivity | exact I |].
    (* setState(stateStopping) *)
    eapply (texec_step anyEnv _ _ _ _ (mkShared true stateStopping 0 false 0));
      [reflexivity | exact I |].
    eapply (texec_step anyEnv _ _ _ _ (mkShared true stateStopping 0 false 0));
      [reflexivity | exact I |].
    (* cond.Wait(); meanwhile the playback goroutine sets stateStopped *)
    eapply (texec_step anyEnv _ _ _ _ (mkShared false stateStopped 0 false 0));
      [reflexivity | exact I |].
    eapply (texec_wake anyEnv _ _ (mkShared false stateStopped 0 false 0));
      [exact I |].
    eapply (texec_step anyEnv _ _ _ _ (mkShared true stateStopped 0 false 0));
      [reflexivity | exact I |].
    eapply (texec_step anyEnv _ _ _ _ (mkShared true stateStopped 0 false 0));
      [reflexivity | exact I |].
    eapply (texec_step anyEnv _ _ _ _ (mkShared false stateStopped 0 false 0));
      [reflexivity | exact I |].
    apply texec_stop. }
  split; [exact H|].
  destruct (TogglePause_stops_or_resumes cfgOne anyEnv _ _ _ H)
    as (s0 & rest & Hl & _).
  exists s0, rest. exact Hl.
Defined.







(** C9. Whatever the two timestamps, applyDelay hands clock.Sleep one
    duration, between 0 and one second: 0 when the raw delay is negative
    (so for an event stamped earlier than the previous one), one second
    when the raw delay is one second or more. *)
Theorem applyDelay_sleep_bounded
    (cfg : Config) (prev : Z) (e : EventFields) (k : Z → Prog) (sh : Shared) :
  ∃ tr d, solo (applyDelay cfg prev e k) sh tr (k (eventTime e)) sh
    ∧ sleeps (ios tr) = [d]
    ∧ 0 ≤ d ≤ Second
    ∧ (wrap64 (eventTime e - prev) < 0 → d = 0)
    ∧ (Second ≤ wrap64 (eventTime e - prev) → d = Second)
    ∧ (eventTime e < prev → - 2 ^ 63 ≤ eventTime e - prev → d = 0).
Proof.
  destruct (applyDelay_solo cfg prev e k sh) as (tr & Htr & Hio).
  exists tr, (smoothDelay (wrap64 (eventTime e - prev))).
  pose proof (smoothDelay_bounds (wrap64 (eventTime e - prev))) as (Hb & Hneg & Hcap).
  split; [exact Htr|]. split.
  { rewrite Hio, sleeps_app, sleeps_overlay. reflexivity. }
  repeat split; try tauto; try lia.
  intros Hlt Hlo. apply Hneg. rewrite wrap64_id; lia.
Qed.

Lemma applyDelay_sleep_bounded_witness :
  ∃ tr d, solo (applyDelay cfgDemo (200 * Millisecond)
                  (mkEvent SessionPrintEvent 100 0 0 "" "") (λ _, Done))
            newSessionPlayer tr Done newSessionPlayer
    ∧ sleeps (ios tr) = [d] ∧ d = 0.
Proof.
  destruct (applyDelay_sleep_bounded cfgDemo (200 * Millisecond)
              (mkEvent SessionPrintEvent 100 0 0 "" "") (λ _, Done)
              newSessionPlayer) as (tr & d & Htr & Hs & _ & _ & _ & Hz).
  exists tr, d. split; [exact Htr|]. split; [exact Hs|].
  apply Hz; vm_compute; [reflexivity | discriminate].
Defined.

(** C10. TogglePause on a player that is stopped at the last event, the
    channel closed: alone, it clears the screen, launches the playback of
    the range (len, len) and parks in waitUntil(statePlaying).  That
    goroutine, alone from there, writes every event of the stream with no
    sleep at all and returns; the player is stopped again and the channel
    has still been closed once.  However that goroutine is interleaved
    with other threads, it never sleeps, and it executes close(p.stopC)
    only on a Once that was not used. *)
Theorem TogglePause_after_end_replays_all
    (cfg : Config) (k : Prog) (sh : Shared) :
  mu sh = false → state sh = stateStopped →
  position sh = nEvents cfg - 1 →
  stopOnce sh = true → stopC sh = 1%nat →
  forallb (inBounds cfg) (sessionEvents cfg) = true →
  ∃ tr,
    solo (TogglePause cfg k) sh tr
      (Parked (Lock (WaitUntil statePlaying (Unlock k)))) sh
    ∧ ios tr = [StdoutWrite (String ESC "c")]
    ∧ launched tr = [playback cfg (nEvents cfg) (nEvents cfg)]
    ∧ (∃ sh',
         runs (playback cfg (nEvents cfg) (nEvents cfg)) sh
           (renderInstant cfg (sessionEvents cfg)) Done sh'
         ∧ sleeps (renderInstant cfg (sessionEvents cfg)) = []
         ∧ state sh' = stateStopped
         ∧ stopOnce sh' = true
         ∧ stopC sh' = 1%nat)
    ∧ (∀ R sh0 tr0 p' sh',
         texec R (playback cfg (nEvents cfg) (nEvents cfg)) sh0 tr0 p' sh' →
         sleeps (ios tr0) = []
         ∧ ∀ shp f, (shp, LOnceRun f) ∈ tr0 → stopOnce shp = false).
Proof.
  intros Hmu Hst Hpos Hon Hc Hin.
  pose proof (nEvents_nonneg cfg) as Hn.
  assert (Htake : take (Z.to_nat (nEvents cfg)) (sessionEvents cfg)
                  = sessionEvents cfg).
  { apply take_ge. unfold nEvents. lia. }
  assert (Hdrop : drop (Z.to_nat (nEvents cfg)) (sessionEvents cfg) = []).
  { apply drop_ge. unfold nEvents. lia. }
  pose proof (playback_runs cfg (nEvents cfg) (nEvents cfg) sh Hmu
                ltac:(lia) ltac:(rewrite Htake; exact Hin)) as Hrun.
  rewrite !Htake, Hdrop in Hrun. simpl in Hrun. rewrite app_nil_r in Hrun.
  rewrite Hon, Hc in Hrun.
  assert (Hany : ∀ R sh0 tr0 p' sh',
    texec R (playback cfg (nEvents cfg) (nEvents cfg)) sh0 tr0 p' sh' →
    sleeps (ios tr0) = []
    ∧ ∀ shp f, (shp, LOnceRun f) ∈ tr0 → stopOnce shp = false).
  { intros R sh0 tr0 p' sh' H0. split; [|eapply texec_once, H0].
    pose proof (playback_prefix R cfg (nEvents cfg) (nEvents cfg)
                  sh0 tr0 p' sh' ltac:(lia) H0) as Hp.
    rewrite !Htake, Hdrop in Hp. simpl in Hp. rewrite app_nil_r in Hp.
    eapply sleeps_prefix; [exact Hp | apply sleeps_renderInstant]. }
  destruct sh as [m st pos once c]. simpl in *. subst.
  assert (H1 : (0 >? nEvents cfg) = false)
    by (rewrite Z.gtb_ltb; apply Z.ltb_ge; lia).
  assert (H2 : (nEvents cfg - 1 + 1 <? 0) = false) by (apply Z.ltb_ge; lia).
  eexists. split; [|split; [|split; [|split]]].
  - unfold TogglePause, playRange, waitUntil.
    solo_steps_with ltac:(rewrite ?H1, ?H2; cbn [orb]).
  - reflexivity.
  - simpl. replace (nEvents cfg - 1 + 1) with (nEvents cfg) by lia.
    reflexivity.
  - rewrite bool_decide_eq_true_2 in Hrun by reflexivity.
    eexists. split; [exact Hrun|]. simpl.
    split; [apply sleeps_renderInstant|]. repeat split.
  - exact Hany.
Qed.

Lemma TogglePause_after_end_replays_all_witness :
  ∃ sh', runs (playback cfgOne 1 1) (mkShared false stateStopped 0 true 1)
           [StdoutWrite "x"] Done sh'
         ∧ stopC sh' = 1%nat.
Proof.
  destruct (TogglePause_after_end_replays_all cfgOne Done
              (mkShared false stateStopped 0 true 1)
              eq_refl eq_refl eq_refl eq_refl eq_refl eq_refl)
    as (tr & _ & _ & _ & (sh' & Hrun & _ & _ & _ & Hc) & _).
  exists sh'. split; [exact Hrun | exact Hc].
Defined.

(** * Further properties of the player *)

(** ** The size of a resize event *)

Lemma splitColon_cons s : ∃ part parts, splitColon s = part :: parts.
Proof.
  induction s as [|c s (part & parts & IH)]; simpl; [eauto|].
  destruct (Ascii.eqb c ":"); [eauto|]. rewrite IH. eauto.
Qed.

Lemma splitColon_length s : length (splitColon s) = S (countColons s).
Proof.
  induction s as [|c s IH]; simpl; [reflexivity|].
  destruct (Ascii.eqb c ":"); simpl; [rewrite IH; reflexivity|].
  destruct (splitColon s) as [|part parts]; simpl in *; [discriminate IH | exact IH].
Qed.

Lemma joinColon_splitColon s : joinColon (splitColon s) = s.
Proof.
  induction s as [|c s IH]; simpl; [reflexivity|].
  destruct (splitColon_cons s) as (part & parts & Hs).
  rewrite Hs in *.
  destruct (Ascii.eqb_spec c ":") as [->|Hne].
  - cbn [joinColon] in *. rewrite <- IH. reflexivity.
  - cbn [joinColon] in *. destruct parts; rewrite <- IH; reflexivity.
Qed.

Lemma splitColon_parts s : Forall (λ part, countColons part = 0%nat) (splitColon s).
Proof.
  induction s as [|c s IH]; simpl; [repeat constructor|].
  destruct (Ascii.eqb c ":") eqn:Hc; [constructor; [reflexivity | exact IH]|].
  destruct (splitColon s) as [|part parts]; [repeat constructor; simpl; rewrite Hc; reflexivity|].
  apply Forall_cons in IH as [Hp Hps].
  constructor; [|exact Hps]. simpl. rewrite Hc, Hp. reflexivity.
Qed.

(** X1. A resize or session-start event reached by the loop with no stop
    request pending is applied exactly when its "size" holds one ':'.
    When it holds exactly one, the size is width:height with no ':' in
    either part, the loop writes ESC [8;height;width t, stores the index
    of the event in position and goes on to the next index.  When it holds
    none or more than one, the loop writes nothing, leaves position as it
    is and goes on to the next index. *)
Theorem resize_applied_iff_one_colon
    (cfg : Config) (from : Z) (n : nat) (i prev : Z) (k : LoopExit → Prog)
    (sh : Shared) (e : EventFields) :
  mu sh = false → state sh ≠ stateStopping →
  sessionEvents cfg !! Z.to_nat i = Some e →
  ev_type e = ResizeEvent ∨ ev_type e = SessionStartEvent →
  (countColons (ev_size e) = 1%nat →
   ∃ width height,
     ev_size e = width +:+ ":" +:+ height
     ∧ countColons width = 0%nat ∧ countColons height = 0%nat
     ∧ runs (playLoop cfg from (S n) i prev k) sh
         [StdoutWrite (String ESC ("[8;" +:+ height +:+ ";" +:+ width +:+ "t"))]
         (playLoop cfg from n (i + 1) prev k) (set_position i sh))
  ∧ (countColons (ev_size e) ≠ 1%nat →
     runs (playLoop cfg from (S n) i prev k) sh []
       (playLoop cfg from n (i + 1) prev k) sh).
Proof.
  intros Hmu Hst Hlook Htype.
  pose proof (splitColon_length (ev_size e)) as Hlen.
  pose proof (joinColon_splitColon (ev_size e)) as Hjoin.
  pose proof (splitColon_parts (ev_size e)) as Hparts.
  assert (Hhead : ∀ io p1 sh1,
    runs match splitColon (ev_size e) with
         | [width; height] =>
             Perform (StdoutWrite
               (String ESC ("[8;" +:+ height +:+ ";" +:+ width +:+ "t")))
               (StorePosition i (playLoop cfg from n (i + 1) prev k))
         | _ => playLoop cfg from n (i + 1) prev k
         end sh io p1 sh1 →
    runs (playLoop cfg from (S n) i prev k) sh io p1 sh1).
  { intros io p1 sh1 H. cbn [playLoop].
    eapply runs_eq; [|reflexivity|reflexivity].
    eapply (runs_trans _ _ []); [apply stopRequested_runs, Hmu|].
    rewrite bool_decide_eq_false_2 by exact Hst.
    rewrite Hlook. cbv beta iota.
    destruct Htype as [-> | ->]; exact H. }
  split; intros Hc.
  - rewrite Hc in Hlen.
    destruct (splitColon (ev_size e)) as [|width [|height [|? ?]]];
      try discriminate Hlen.
    exists width, height. cbn [joinColon] in Hjoin.
    apply Forall_cons in Hparts as [Hw Hh]. apply Forall_cons in Hh as [Hh _].
    split; [symmetry; exact Hjoin|]. split; [exact Hw|]. split; [exact Hh|].
    apply Hhead.
    eapply (runs_trans _ _ [_] _ _ []); [apply runs_perform | apply storePosition_runs].
  - apply Hhead.
    destruct (splitColon (ev_size e)) as [|width [|height [|? ?]]];
      try apply runs_refl.
    simpl in Hlen. exfalso. apply Hc. lia.
Qed.

Lemma resize_applied_iff_one_colon_witness :
  ∃ width height,
    "80:25" = width +:+ ":" +:+ height
    ∧ countColons width = 0%nat ∧ countColons height = 0%nat
    ∧ runs (playLoop cfgDemo 0 4 0 0 (λ _, Done)) newSessionPlayer
        [StdoutWrite (String ESC ("[8;" +:+ height +:+ ";" +:+ width +:+ "t"))]
        (playLoop cfgDemo 0 3 (0 + 1) 0 (λ _, Done))
        (set_position 0 newSessionPlayer).
Proof.
  exact (proj1 (resize_applied_iff_one_colon cfgDemo 0 3 0 0 (λ _, Done)
                  newSessionPlayer
                  (mkEvent SessionStartEvent 0 0 0 "80:25" "t0")
                  eq_refl ltac:(discriminate) eq_refl (or_intror eq_refl))
               eq_refl).
Defined.

(** ** The smoothing of delays *)

Ltac smooth_cases :=
  repeat (match goal with
          | |- context [?a <? ?b] => destruct (Z.ltb_spec a b)
          | |- context [?a >? ?b] =>
              rewrite (Z.gtb_ltb a b); destruct (Z.ltb_spec b a)
          end; simpl).

(** X2. The smoothing of applyDelay keeps the order of delays (a longer
    raw delay never gives a shorter sleep), gives the same value when
    applied twice, and never lengthens a delay that is not negative. *)
Theorem smoothDelay_monotone_idempotent (d d' : Z) :
  d ≤ d' →
  smoothDelay d ≤ smoothDelay d'
  ∧ smoothDelay (smoothDelay d) = smoothDelay d
  ∧ (0 ≤ d → smoothDelay d ≤ d).
Proof.
  intros Hle. split; [|split].
  - unfold smoothDelay, Millisecond, Second. smooth_cases; lia.
  - pose proof (smoothDelay_table d) as (H1 & H2 & H3 & H4 & H5).
    unfold Millisecond in *.
    destruct (Z_lt_le_dec d 10000000); [rewrite H1 by lia; reflexivity|].
    destruct (Z_le_gt_dec d 250000000);
      [rewrite (H2 ltac:(lia)); apply H2; lia|].
    destruct (Z_lt_le_dec d 500000000); [rewrite H3 by lia; reflexivity|].
    destruct (Z.eq_dec d 500000000) as [->|]; [reflexivity|].
    destruct (Z_lt_le_dec d 1000000000); [rewrite H4 by lia; reflexivity|].
    rewrite H5 by lia. reflexivity.
  - intros Hd. unfold smoothDelay, Millisecond, Second. smooth_cases; lia.
Qed.

Lemma smoothDelay_monotone_idempotent_witness :
  smoothDelay (300 * Millisecond) ≤ smoothDelay (700 * Millisecond)
  ∧ smoothDelay (smoothDelay (300 * Millisecond)) = smoothDelay (300 * Millisecond)
  ∧ (0 ≤ 300 * Millisecond → smoothDelay (300 * Millisecond) ≤ 300 * Millisecond).
Proof.
  apply (smoothDelay_monotone_idempotent (300 * Millisecond) (700 * Millisecond)).
  vm_compute. discriminate.
Defined.

(** ** The sleeps of a playback *)

Lemma smoothDelay_le d : 0 ≤ d → smoothDelay d ≤ d.
Proof. intros Hd. unfold smoothDelay, Millisecond, Second. smooth_cases; lia. Qed.

Lemma sleeps_prefix_of l1 l2 :
  l1 `prefix_of` l2 → sleeps l1 `prefix_of` sleeps l2.
Proof. intros [l ->]. rewrite sleeps_app. apply prefix_app_r. reflexivity. Qed.

Lemma sumZ_app l1 l2 : sumZ (l1 ++ l2) = sumZ l1 + sumZ l2.
Proof. induction l1 as [|d l1 IH]; simpl; [reflexivity|]. unfold sumZ in *. simpl. rewrite IH. lia. Qed.

Lemma sumZ_nonneg l : Forall (λ d, 0 ≤ d) l → 0 ≤ sumZ l.
Proof. induction 1 as [|d l Hd _ IH]; unfold sumZ in *; simpl; lia. Qed.

Lemma sumZ_prefix l1 l2 :
  Forall (λ d, 0 ≤ d) l2 → l1 `prefix_of` l2 → sumZ l1 ≤ sumZ l2.
Proof.
  intros Hall [l ->]. rewrite sumZ_app.
  apply Forall_app in Hall as [_ Hl]. pose proof (sumZ_nonneg l Hl). lia.
Qed.

Lemma sleeps_renderPaced_cons cfg prev e es :
  sleeps (renderPaced cfg prev (e :: es))
  = if isPrint e
    then smoothDelay (wrap64 (eventTime e - prev))
         :: sleeps (renderPaced cfg (eventTime e) es)
    else sleeps (renderPaced cfg prev es).
Proof.
  unfold isPrint. cbn [renderPaced].
  destruct (ev_type e);
    rewrite ?sleeps_app; cbn [sleeps]; rewrite ?sleeps_app, ?sleeps_overlay, ?sleeps_rendered;
    reflexivity.
Qed.

(** Every sleep of the paced rendering is between 0 and one second, and
    there is one per output event. *)
Lemma sleeps_renderPaced cfg es : ∀ prev,
  Forall (λ d, 0 ≤ d ≤ Second) (sleeps (renderPaced cfg prev es))
  ∧ length (sleeps (renderPaced cfg prev es)) = length (List.filter isPrint es).
Proof.
  induction es as [|e es IH]; intros prev; [split; [constructor | reflexivity]|].
  rewrite sleeps_renderPaced_cons. cbn [List.filter].
  destruct (isPrint e).
  - destruct (IH (eventTime e)) as [Hall Hlen]. split.
    + constructor; [apply smoothDelay_bounds | exact Hall].
    + simpl. rewrite Hlen. reflexivity.
  - apply IH.
Qed.

Lemma eventTime_ms e : 0 ≤ ev_ms e ≤ maxMs → eventTime e = ev_ms e * Millisecond.
Proof.
  intros H. unfold eventTime. apply wrap64_id. unfold maxMs, Millisecond in *. lia.
Qed.

(** On print events stamped in order, the sleeps of the paced rendering
    add up to no more than the time from [prev] to the last stamp. *)
Lemma renderPaced_sum cfg es : ∀ prev,
  0 ≤ prev ≤ maxMs → chronological prev es = true →
  prev ≤ lastMs prev es
  ∧ sumZ (sleeps (renderPaced cfg (prev * Millisecond) es))
    ≤ (lastMs prev es - prev) * Millisecond.
Proof.
  induction es as [|e es IH]; intros prev Hprev Hch.
  - simpl. unfold sumZ. simpl. lia.
  - rewrite sleeps_renderPaced_cons. cbn [chronological lastMs] in *.
    destruct (isPrint e).
    + apply andb_prop in Hch as [Hch Hrest]. apply andb_prop in Hch as [Hlo Hhi].
      apply Z.leb_le in Hlo, Hhi.
      rewrite (eventTime_ms e) by lia.
      destruct (IH (ev_ms e) ltac:(lia) Hrest) as [Hle Hsum].
      split; [lia|].
      unfold sumZ in *. cbn [foldr].
      rewrite wrap64_id by (unfold maxMs, Millisecond in *; lia).
      pose proof (smoothDelay_le (ev_ms e * Millisecond - prev * Millisecond)
                    ltac:(unfold Millisecond; lia)).
      unfold Millisecond in *. lia.
    + apply IH; assumption.
Qed.

Lemma sleeps_page cfg from es :
  sleeps (renderInstant cfg (take from es) ++ renderPaced cfg 0 (drop from es))
  = sleeps (renderPaced cfg 0 (drop from es)).
Proof. rewrite sleeps_app, sleeps_renderInstant. reflexivity. Qed.

(** X3. However a playback goroutine is interleaved with other threads,
    and wherever it is stopped, every duration it has handed to
    clock.Sleep is between 0 and one second, and it has slept at most once
    per output event of index from .. to-1. *)
Theorem playback_sleeps_bounded
    (cfg : Config) (from to : Z) (R : Shared → Shared → Prop)
    (sh : Shared) (tr : list (Shared * Label)) (p' : Prog) (sh' : Shared) :
  0 ≤ to ≤ nEvents cfg →
  texec R (playback cfg from to) sh tr p' sh' →
  Forall (λ d, 0 ≤ d ≤ Second) (sleeps (ios tr))
  ∧ (length (sleeps (ios tr))
     ≤ length (List.filter isPrint
                 (drop (Z.to_nat from)
                    (take (Z.to_nat to) (sessionEvents cfg)))))%nat.
Proof.
  intros Hto H.
  pose proof (playback_prefix R cfg from to sh tr p' sh' Hto H) as Hp.
  apply sleeps_prefix_of in Hp. rewrite sleeps_page in Hp.
  destruct (sleeps_renderPaced cfg
              (drop (Z.to_nat from) (take (Z.to_nat to) (sessionEvents cfg))) 0)
    as [Hall Hlen].
  destruct Hp as [rest Hp]. rewrite Hp in Hall, Hlen.
  apply Forall_app in Hall as [Hall _]. split; [exact Hall|].
  rewrite <- Hlen, length_app. lia.
Qed.

Lemma playback_sleeps_bounded_witness :
  ∃ tr sh',
    texec anyEnv (playback cfgDemo 0 4) newSessionPlayer tr Done sh'
    ∧ sleeps (ios tr) = [100 * Millisecond; 100 * Millisecond]
    ∧ Forall (λ d, 0 ≤ d ≤ Second) (sleeps (ios tr)).
Proof.
  eexists _, _.
  match goal with |- ?A ∧ _ => assert (H : A) end.
  { apply solo_texec; [intros x; exact I|].
    apply (soloRun_solo 80). vm_compute. reflexivity. }
  split; [exact H|]. split; [reflexivity|].
  exact (proj1 (playback_sleeps_bounded cfgDemo 0 4 anyEnv _ _ _ _
                  ltac:(unfold nEvents; simpl; lia) H)).
Defined.

(** X4. When the output events of index from .. to-1 are stamped in
    order, with "ms" values between 0 and the largest one whose conversion
    to a time.Duration does not overflow, the sleeps of a playback
    goroutine add up to no more than the stamp of the last of them,
    however it is interleaved and wherever it is stopped: a replay never
    waits longer than the recording lasted. *)
Theorem playback_total_sleep_bounded
    (cfg : Config) (from to : Z) (R : Shared → Shared → Prop)
    (sh : Shared) (tr : list (Shared * Label)) (p' : Prog) (sh' : Shared) :
  0 ≤ to ≤ nEvents cfg →
  chronological 0
    (drop (Z.to_nat from) (take (Z.to_nat to) (sessionEvents cfg))) = true →
  texec R (playback cfg from to) sh tr p' sh' →
  0 ≤ sumZ (sleeps (ios tr))
    ≤ lastMs 0 (drop (Z.to_nat from) (take (Z.to_nat to) (sessionEvents cfg)))
      * Millisecond.
Proof.
  intros Hto Hch H.
  pose proof (playback_prefix R cfg from to sh tr p' sh' Hto H) as Hp.
  apply sleeps_prefix_of in Hp. rewrite sleeps_page in Hp.
  set (es := drop (Z.to_nat from) (take (Z.to_nat to) (sessionEvents cfg))) in *.
  destruct (sleeps_renderPaced cfg es 0) as [Hall _].
  assert (Hnn : Forall (λ d, 0 ≤ d) (sleeps (renderPaced cfg 0 es))).
  { eapply Forall_impl; [exact Hall|]. simpl. intros d Hd. lia. }
  destruct (renderPaced_sum cfg es 0 ltac:(unfold maxMs; lia) Hch) as [_ Hsum].
  change (0 * Millisecond) with 0 in Hsum.
  pose proof (sumZ_prefix _ _ Hnn Hp) as Hle.
  split; [|lia].
  apply sumZ_nonneg. destruct Hp as [rest Hp]. rewrite Hp in Hnn.
  apply Forall_app in Hnn as [Hnn _]. exact Hnn.
Qed.

Lemma playback_total_sleep_bounded_witness :
  ∃ tr sh',
    texec anyEnv (playback cfgDemo 0 4) newSessionPlayer tr Done sh'
    ∧ sumZ (sleeps (ios tr)) = 200 * Millisecond
    ∧ sumZ (sleeps (ios tr)) ≤ 200 * Millisecond.
Proof.
  eexists _, _.
  match goal with |- ?A ∧ _ => assert (H : A) end.
  { apply solo_texec; [intros x; exact I|].
    apply (soloRun_solo 80). vm_compute. reflexivity. }
  split; [exact H|]. split; [reflexivity|].
  exact (proj2 (playback_total_sleep_bounded cfgDemo 0 4 anyEnv _ _ _ _
                  ltac:(unfold nEvents; simpl; lia) eq_refl H)).
Defined.

(** ** Properties of programs kept along every run *)

Section Preserved.
Context (P : Prog → Prop).
Hypothesis P_tstep : ∀ p sh l p',
  P p → tstep p sh = Next l p' → P p' ∧ ∀ g, l = LGo g → P g.
Hypothesis P_wake : ∀ p, P p → P (wake p).

Lemma step_preserved t w w' :
  step t w = Some w' → Forall P (threads w) → Forall P (threads w').
Proof.
  unfold step. intros Hstep Hall.
  destruct (crashed w); [discriminate|].
  destruct (threads w !! t) as [p|] eqn:Hp; [|discriminate].
  assert (HP : P p) by (eapply Forall_lookup_1; eassumption).
  destruct (tstep p (shared w)) as [l p'| | |] eqn:Hs; try discriminate;
    injection Hstep as <-; simpl; [|exact Hall].
  destruct (P_tstep p (shared w) l p' HP Hs) as [Hp' Hgo].
  assert (Hins : Forall P (<[t:=p']> (threads w))).
  { apply Forall_insert; assumption. }
  destruct l; simpl; try exact Hins.
  - apply Forall_fmap. eapply Forall_impl; [exact Hins|].
    intros q Hq. apply P_wake, Hq.
  - apply Forall_app. split; [exact Hins|].
    constructor; [apply Hgo; reflexivity | constructor].
Qed.

Lemma run_preserved sched : ∀ w,
  Forall P (threads w) → Forall P (threads (run sched w)).
Proof.
  induction sched as [|t sched IH]; intros w Hall; simpl; [exact Hall|].
  destruct (step t w) as [w'|] eqn:Hstep; simpl; [|apply IH, Hall].
  apply IH. eapply step_preserved; eassumption.
Qed.

End Preserved.

(** ** The position over the life of a player *)

Lemma storesOK_tstep cfg p sh l p' :
  storesOK cfg p → tstep p sh = Next l p' →
  storesOK cfg p'
  ∧ (∀ g, l = LGo g → storesOK cfg g)
  ∧ (∀ i, l = LStorePosition i → 0 ≤ i < nEvents cfg)
  ∧ (∀ f, l = LOnceRun f → f = closeStopC).
Proof.
  intros Hso Hs.
  destruct Hso; simpl in Hs;
    repeat match type of Hs with
           | context [if ?c then _ else _] => destruct c eqn:?
           end;
    try discriminate; injection Hs as <- <-;
    (split; [|split; [|split]]); try (intros; discriminate);
    auto using storesOK.
  - intros j [= <-]. assumption.
  - intros f [= <-]. reflexivity.
  - intros g' [= <-]. assumption.
Qed.

Lemma storesOK_wake cfg p : storesOK cfg p → storesOK cfg (wake p).
Proof. destruct 1; simpl; auto using storesOK. Qed.

Lemma playLoop_storesOK cfg from n : ∀ i prev k,
  0 ≤ i → (∀ r, storesOK cfg (k r)) →
  storesOK cfg (playLoop cfg from n i prev k).
Proof.
  induction n as [|n IH]; intros i prev k Hi Hk; simpl; [apply Hk|].
  unfold stopRequested. do 2 constructor. intros s. constructor.
  destruct (bool_decide (s = stateStopping)); [apply Hk|].
  destruct (sessionEvents cfg !! Z.to_nat i) as [e|] eqn:Hlook; [|apply Hk].
  assert (Hlt : 0 ≤ i < nEvents cfg).
  { apply lookup_lt_Some in Hlook. unfold nEvents. lia. }
  assert (Hnext : ∀ prev', storesOK cfg (playLoop cfg from n (i + 1) prev' k)).
  { intros prev'. apply IH; [lia | exact Hk]. }
  destruct (ev_type e).
  - assert (Hrest : ∀ prev', storesOK cfg
      match sliceBytes (stream cfg) (ev_offset e) (wrap64 (ev_offset e + ev_bytes e)) with
      | Some data =>
          Perform (StdoutWrite data) (StorePosition i (playLoop cfg from n (i + 1) prev' k))
      | None => k Faulted
      end).
    { intros prev'. destruct (sliceBytes _ _ _); [|apply Hk].
      constructor. constructor; [exact Hlt | apply Hnext]. }
    destruct (from <=? i); [|apply Hrest].
    unfold applyDelay, timestampFrame, esc.
    destruct (termWidth cfg); repeat constructor; apply Hrest.
  - destruct (splitColon (ev_size e)) as [|? [|? [|? ?]]];
      try apply Hnext.
    constructor. constructor; [exact Hlt | apply Hnext].
  - destruct (splitColon (ev_size e)) as [|? [|? [|? ?]]];
      try apply Hnext.
    constructor. constructor; [exact Hlt | apply Hnext].
  - apply Hnext.
Qed.

Lemma playback_storesOK cfg from to : storesOK cfg (playback cfg from to).
Proof.
  unfold playback, setState. repeat constructor.
  apply playLoop_storesOK; [lia|]. intros r.
  destruct r as [i| |]; [destruct (decide (i = nEvents cfg))| |];
    unfold notifyStopped, deferredStopped, setState; repeat constructor.
Qed.

Lemma playRange_storesOK cfg from to k :
  storesOK cfg k → storesOK cfg (playRange cfg from to k).
Proof.
  intros Hk. unfold playRange, setState.
  destruct ((to >? nEvents cfg) || (from <? 0)).
  - repeat constructor. exact Hk.
  - constructor. constructor; [apply playback_storesOK | exact Hk].
Qed.

Ltac storesOK_tac :=
  repeat first
    [ assumption
    | apply playback_storesOK
    | apply playRange_storesOK
    | match goal with
      | |- storesOK _ (if ?c then _ else _) => destruct c
      | |- storesOK _ ((if ?c then _ else _) _) => destruct c
      | |- ∀ _, _ => intro
      end
    | constructor ].

Lemma call_storesOK cfg o k : storesOK cfg k → storesOK cfg (call cfg o k).
Proof.
  intros Hk. destruct o; cbn [call];
    unfold Play, Stopped, Rewind, Forward, TogglePause, setState, waitUntil;
    storesOK_tac.
Qed.

Lemma caller_storesOK cfg ops : storesOK cfg (caller cfg ops).
Proof.
  induction ops as [|o ops IH]; simpl; [constructor|].
  apply call_storesOK, IH.
Qed.

Lemma step_posOK cfg t w w' :
  step t w = Some w' →
  Forall closesOnce (threads w) → Forall (storesOK cfg) (threads w) →
  posOK cfg (shared w) → posOK cfg (shared w').
Proof.
  unfold step. intros Hstep Hco Hso Hpos.
  destruct (crashed w); [discriminate|].
  destruct (threads w !! t) as [p|] eqn:Hp; [|discriminate].
  assert (Hso1 : storesOK cfg p) by (eapply Forall_lookup_1; eassumption).
  destruct (tstep p (shared w)) as [l p'| | |] eqn:Hs; try discriminate;
    injection Hstep as <-; simpl; [|exact Hpos].
  destruct (storesOK_tstep cfg p (shared w) l p' Hso1 Hs) as (_ & _ & Hst & Hf).
  unfold posOK in *.
  destruct l; simpl; try exact Hpos.
  - specialize (Hst i eq_refl). lia.
  - rewrite (Hf f eq_refl). simpl. exact Hpos.
Qed.

Lemma run_posOK cfg sched : ∀ w,
  Forall closesOnce (threads w) → Forall (storesOK cfg) (threads w) →
  posOK cfg (shared w) → posOK cfg (shared (run sched w)).
Proof.
  induction sched as [|t sched IH]; intros w Hco Hso Hpos; simpl; [exact Hpos|].
  destruct (step t w) as [w'|] eqn:Hstep; simpl; [|apply IH; assumption].
  apply IH.
  - eapply (step_preserved closesOnce); try eassumption.
    + intros p sh l p' HP Hs.
      destruct (closesOnce_tstep p sh l p' HP Hs) as (H1 & H2 & _). auto.
    + apply closesOnce_wake.
  - eapply (step_preserved (storesOK cfg)); try eassumption.
    + intros p sh l p' HP Hs.
      destruct (storesOK_tstep cfg p sh l p' HP Hs) as (H1 & H2 & _). auto.
    + apply storesOK_wake.
  - eapply step_posOK; eassumption.
Qed.

Lemma initWorld_storesOK cfg callers :
  Forall (storesOK cfg) (threads (initWorld cfg callers)).
Proof.
  simpl. apply Forall_fmap, Forall_forall. intros ops _.
  apply caller_storesOK.
Qed.

(** X5. Whatever public operations the callers of a fresh player issue
    (Play, Stopped, Rewind, Forward, TogglePause) and however the threads
    are scheduled, position is -1, as newSessionPlayer left it, or the
    index of an event of the recording. *)
Theorem position_is_an_event_index
    (cfg : Config) (callers : list (list Op)) (sched : list nat) :
  let pos := position (shared (run sched (initWorld cfg callers))) in
  pos = -1 ∨ 0 ≤ pos < nEvents cfg.
Proof.
  intros pos.
  assert (H : posOK cfg (shared (run sched (initWorld cfg callers)))).
  { apply run_posOK.
    - apply initWorld_closesOnce.
    - apply initWorld_storesOK.
    - unfold posOK. simpl. pose proof (nEvents_nonneg cfg). lia. }
  unfold posOK in H. fold pos in H. pose proof (nEvents_nonneg cfg). lia.
Qed.

(** ** The mutex over the life of a player *)

(** One step of a thread that keeps the discipline: it takes the mutex,
    which was free; or it releases the mutex it held; or it leaves the
    mutex as it is. *)
Lemma lockOK_tstep h p sh l p' :
  lockOK h p → (h = true → mu sh = true) → tstep p sh = Next l p' →
  ∃ h', lockOK h' p'
    ∧ (∀ g, l = LGo g → lockOK false g)
    ∧ ((h = false ∧ h' = true ∧ mu sh = false ∧ mu (effect l sh) = true
        ∧ after l = (λ ths, ths))
       ∨ (h = true ∧ h' = false ∧ mu (effect l sh) = false
          ∧ after l = (λ ths, ths))
       ∨ (h' = h ∧ mu (effect l sh) = mu sh)).
Proof.
  intros Hlk Hmu Hs.
  destruct Hlk; simpl in Hs;
    repeat match type of Hs with
           | context [if ?c then _ else _] => destruct c eqn:?
           end;
    try discriminate; try injection Hs as <- <-.
  all: try (specialize (Hmu eq_refl); congruence).
  all: try (eexists; split; [eassumption|]; split; [intros; discriminate|];
            right; right; split; reflexivity).
  - exists true. split; [assumption|]. split; [intros; discriminate|].
    left. repeat split; assumption.
  - exists false. split; [assumption|]. split; [intros; discriminate|].
    right. left. repeat split.
  - exists h. split; [auto|]. split; [intros; discriminate|].
    right. right. split; reflexivity.
  - exists false. split; [repeat constructor; assumption|].
    split; [intros; discriminate|]. right. left. repeat split.
  - exists h. split; [auto|]. split; [intros; discriminate|].
    right. right. split; reflexivity.
  - exists h. split; [assumption|]. split; [intros g' [= <-]; assumption|].
    right. right. split; reflexivity.
Qed.

Lemma lockOK_fatal h p sh :
  lockOK h p → (h = true → mu sh = true) → tstep p sh = Fatal → p = Panic.
Proof.
  intros Hlk Hmu Hs.
  destruct Hlk; simpl in Hs;
    repeat match type of Hs with
           | context [if ?c then _ else _] => destruct c eqn:?
           end;
    try discriminate; try reflexivity.
  all: specialize (Hmu eq_refl); congruence.
Qed.

Lemma lockOK_wake h p : lockOK h p → lockOK h (wake p).
Proof. destruct 1; simpl; auto using lockOK. Qed.

Lemma after_length l ths : (length ths ≤ length (after l ths))%nat.
Proof.
  destruct l; simpl; try lia.
  - rewrite length_fmap. lia.
  - rewrite length_app. lia.
Qed.

Lemma after_lookup_inv l ths u q :
  after l ths !! u = Some q →
  (∃ q0, ths !! u = Some q0 ∧ (q = q0 ∨ q = wake q0))
  ∨ (∃ g, l = LGo g ∧ u = length ths ∧ q = g).
Proof.
  destruct l; simpl; intros H; try (left; eauto; fail).
  - rewrite list_lookup_fmap in H.
    destruct (ths !! u) as [q0|]; [|discriminate].
    injection H as <-. left. eauto.
  - apply lookup_app_Some in H as [H | [Hge H]]; [left; eauto|].
    right. exists g.
    destruct (u - length ths)%nat as [|m] eqn:Hm; [|discriminate H].
    injection H as <-. repeat split. lia.
Qed.

Lemma owner_holds (owner : option nat) sh t :
  mu sh = bool_decide (is_Some owner) →
  bool_decide (owner = Some t) = true → mu sh = true.
Proof.
  intros Hmu Ho. apply bool_decide_eq_true in Ho. subst owner.
  rewrite Hmu. apply bool_decide_eq_true. eauto.
Qed.

(** A step of the program keeps the discipline, and it ends the program
    only from a thread that is at a run-time panic. *)
Lemma step_lockInv t w w' :
  step t w = Some w' → lockInv w →
  lockInv w' ∧ (crashed w' = true → threads w !! t = Some Panic).
Proof.
  unfold step. intros Hstep (owner & Hmu & Hlt & Hall).
  destruct (crashed w) eqn:Hcr; [discriminate|].
  destruct (threads w !! t) as [p|] eqn:Hp; [|discriminate].
  pose proof (Hall t p Hp) as Hlk.
  pose proof (owner_holds owner (shared w) t Hmu) as Hheld.
  destruct (tstep p (shared w)) as [l p'| | |] eqn:Hs; try discriminate;
    injection Hstep as <-; simpl.
  2:{ split; [exists owner; auto|]. intros _.
      rewrite (lockOK_fatal _ p (shared w) Hlk Hheld Hs). reflexivity. }
  split; [|discriminate].
  assert (Htl : (t < length (threads w))%nat) by (eapply lookup_lt_Some, Hp).
  destruct (lockOK_tstep _ p (shared w) l p' Hlk Hheld Hs)
    as (h' & Hlk' & Hgo & Hcase).
  destruct Hcase as [(Hh & -> & Hfree & Hmu' & Haft)
                    | [(Hh & -> & Hmu' & Haft) | (-> & Hmu')]].
  - (* the thread takes the mutex *)
    assert (Hnone : owner = None).
    { destruct owner; [|reflexivity]. rewrite Hfree in Hmu.
      symmetry in Hmu. apply bool_decide_eq_false in Hmu.
      destruct Hmu. eauto. }
    subst owner. exists (Some t). rewrite Haft. cbn [shared threads].
    split; [|split].
    + rewrite Hmu'. symmetry. apply bool_decide_eq_true. eauto.
    + intros u [= <-]. rewrite length_insert. exact Htl.
    + intros u q Hq. destruct (decide (u = t)) as [->|Hne].
      * rewrite list_lookup_insert_eq in Hq by exact Htl. injection Hq as <-.
        rewrite bool_decide_eq_true_2 by reflexivity. exact Hlk'.
      * rewrite list_lookup_insert_ne in Hq by congruence.
        rewrite bool_decide_eq_false_2 by congruence.
        pose proof (Hall u q Hq) as Hu.
        rewrite bool_decide_eq_false_2 in Hu by discriminate. exact Hu.
  - (* the thread releases the mutex *)
    apply bool_decide_eq_true in Hh. subst owner.
    exists None. rewrite Haft. cbn [shared threads]. split; [|split].
    + rewrite Hmu'. symmetry. apply bool_decide_eq_false.
      intros [x Hx]. discriminate Hx.
    + intros u Hu. discriminate Hu.
    + intros u q Hq. rewrite bool_decide_eq_false_2 by discriminate.
      destruct (decide (u = t)) as [->|Hne].
      * rewrite list_lookup_insert_eq in Hq by exact Htl. injection Hq as <-.
        exact Hlk'.
      * rewrite list_lookup_insert_ne in Hq by congruence.
        pose proof (Hall u q Hq) as Hu.
        rewrite bool_decide_eq_false_2 in Hu by congruence. exact Hu.
  - (* the mutex is left as it is *)
    exists owner. cbn [shared threads]. split; [|split].
    + rewrite Hmu'. exact Hmu.
    + intros u Hu. pose proof (Hlt u Hu).
      pose proof (after_length l (<[t:=p']> (threads w))) as Hlen.
      rewrite length_insert in Hlen. lia.
    + intros u q Hq.
      apply after_lookup_inv in Hq as [(q0 & Hq0 & Hq) | (g & -> & -> & ->)].
      * assert (Hok : lockOK (bool_decide (owner = Some u)) q0).
        { destruct (decide (u = t)) as [->|Hne].
          - rewrite list_lookup_insert_eq in Hq0 by exact Htl.
            injection Hq0 as <-. exact Hlk'.
          - rewrite list_lookup_insert_ne in Hq0 by congruence.
            exact (Hall u q0 Hq0). }
        destruct Hq as [-> | ->]; [exact Hok | apply lockOK_wake, Hok].
      * rewrite length_insert.
        rewrite bool_decide_eq_false_2; [apply Hgo; reflexivity|].
        intros Ho. pose proof (Hlt _ Ho). lia.
Qed.

Lemma run_lockInv sched : ∀ w, lockInv w → lockInv (run sched w).
Proof.
  induction sched as [|t sched IH]; intros w Hinv; simpl; [exact Hinv|].
  destruct (step t w) as [w'|] eqn:Hstep; simpl; [|apply IH, Hinv].
  apply IH. exact (proj1 (step_lockInv t w w' Hstep Hinv)).
Qed.

Lemma playLoop_lockOK cfg from n : ∀ i prev k,
  (∀ r, lockOK false (k r)) → lockOK false (playLoop cfg from n i prev k).
Proof.
  induction n as [|n IH]; intros i prev k Hk; simpl; [apply Hk|].
  unfold stopRequested. do 2 constructor. intros s. constructor.
  destruct (bool_decide (s = stateStopping)); [apply Hk|].
  destruct (sessionEvents cfg !! Z.to_nat i) as [e|]; [|apply Hk].
  destruct (ev_type e).
  - assert (Hrest : ∀ prev', lockOK false
      match sliceBytes (stream cfg) (ev_offset e) (wrap64 (ev_offset e + ev_bytes e)) with
      | Some data =>
          Perform (StdoutWrite data) (StorePosition i (playLoop cfg from n (i + 1) prev' k))
      | None => k Faulted
      end).
    { intros prev'. destruct (sliceBytes _ _ _); [|apply Hk].
      do 2 constructor. apply IH, Hk. }
    destruct (from <=? i); [|apply Hrest].
    unfold applyDelay, timestampFrame, esc.
    destruct (termWidth cfg); repeat constructor; apply Hrest.
  - destruct (splitColon (ev_size e)) as [|? [|? [|? ?]]];
      repeat constructor; apply IH, Hk.
  - destruct (splitColon (ev_size e)) as [|? [|? [|? ?]]];
      repeat constructor; apply IH, Hk.
  - apply IH, Hk.
Qed.

Lemma playback_lockOK cfg from to : lockOK false (playback cfg from to).
Proof.
  unfold playback, setState. repeat constructor.
  apply playLoop_lockOK. intros r.
  destruct r as [i| |]; [destruct (decide (i = nEvents cfg))| |];
    unfold notifyStopped, deferredStopped, setState; repeat constructor.
Qed.

(** playRange keeps the discipline called with the mutex free; called by a
    thread that holds it, its invalid branch locks the mutex again. *)
Lemma playRange_lockOK cfg h from to k :
  lockOK h k → lockOK h (playRange cfg from to k).
Proof.
  intros Hk. unfold playRange, setState.
  destruct ((to >? nEvents cfg) || (from <? 0)).
  - destruct h; [apply lk_Relock|]. repeat constructor. exact Hk.
  - constructor. constructor; [apply playback_lockOK | exact Hk].
Qed.

Ltac lockOK_tac :=
  repeat first
    [ assumption
    | apply playback_lockOK
    | apply playRange_lockOK
    | match goal with
      | |- lockOK _ (if ?c then _ else _) => destruct c
      | |- lockOK _ ((if ?c then _ else _) _) => destruct c
      | |- ∀ _, _ => intro
      end
    | constructor ].

Lemma call_lockOK cfg o k : lockOK false k → lockOK false (call cfg o k).
Proof.
  intros Hk. destruct o; cbn [call];
    unfold Play, Stopped, Rewind, Forward, TogglePause, setState, waitUntil;
    lockOK_tac.
Qed.

Lemma caller_lockOK cfg ops : lockOK false (caller cfg ops).
Proof.
  induction ops as [|o ops IH]; simpl; [constructor|].
  apply call_lockOK, IH.
Qed.

Lemma initWorld_lockInv cfg callers : lockInv (initWorld cfg callers).
Proof.
  exists None. split; [reflexivity|]. split; [discriminate|].
  intros t p Hp. simpl in Hp. rewrite list_lookup_fmap in Hp.
  destruct (callers !! t) as [ops|]; [|discriminate].
  injection Hp as <-. rewrite bool_decide_eq_false_2 by discriminate.
  apply caller_lockOK.
Qed.

(** X6. Whatever public operations the callers of a fresh player issue
    and however the threads are scheduled, no thread ever unlocks the
    mutex while it is free or waits on the condition without holding it:
    the only fatal error a thread can meet is the run-time panic of the
    playback goroutine.  And when every thread has returned, the mutex is
    free. *)
Theorem mutex_discipline
    (cfg : Config) (callers : list (list Op)) (sched : list nat) :
  let w := run sched (initWorld cfg callers) in
  (∀ t p, threads w !! t = Some p → tstep p (shared w) = Fatal → p = Panic)
  ∧ (Forall (λ p, p = Done) (threads w) → mu (shared w) = false).
Proof.
  intros w.
  destruct (run_lockInv sched _ (initWorld_lockInv cfg callers))
    as (owner & Hmu & Hlt & Hall).
  fold w in Hmu, Hlt, Hall. split.
  - intros t p Hp Hs.
    eapply lockOK_fatal; [exact (Hall t p Hp) | | exact Hs].
    apply owner_holds, Hmu.
  - intros Hdone. rewrite Hmu. apply bool_decide_eq_false.
    intros [t Ho]. pose proof (Hlt t Ho) as Ht.
    apply lookup_lt_is_Some in Ht as [p Hp].
    pose proof (Hall t p Hp) as Hlk.
    rewrite bool_decide_eq_true_2 in Hlk by exact Ho.
    rewrite Forall_forall in Hdone.
    rewrite (Hdone p) in Hlk by (eapply list_elem_of_lookup_2, Hp).
    inversion Hlk.
Qed.

(** ** Recordings whose byte ranges are in bounds *)

Lemma noPanic_tstep p sh l p' :
  noPanic p → tstep p sh = Next l p' → noPanic p' ∧ ∀ g, l = LGo g → noPanic g.
Proof.
  intros Hnp Hs.
  destruct Hnp; simpl in Hs;
    repeat match type of Hs with
           | context [if ?c then _ else _] => destruct c eqn:?
           end;
    try discriminate; injection Hs as <- <-;
    split; try (intros; discriminate); auto using noPanic.
  intros g' [= <-]. assumption.
Qed.

Lemma noPanic_wake p : noPanic p → noPanic (wake p).
Proof. destruct 1; simpl; auto using noPanic. Qed.

(** The loop over events that exist and are in bounds is left through its
    condition or by the return after stopRequested. *)
Lemma playLoop_noPanic cfg from :
  forallb (inBounds cfg) (sessionEvents cfg) = true →
  ∀ n i prev k,
    0 ≤ i → i + Z.of_nat n ≤ nEvents cfg →
    (∀ r, r ≠ Faulted → noPanic (k r)) →
    noPanic (playLoop cfg from n i prev k).
Proof.
  intros Hin. induction n as [|n IH]; intros i prev k Hi Hn Hk; simpl;
    [apply Hk; discriminate|].
  unfold stopRequested. do 2 constructor. intros s. constructor.
  destruct (bool_decide (s = stateStopping)); [apply Hk; discriminate|].
  destruct (sessionEvents cfg !! Z.to_nat i) as [e|] eqn:Hlook.
  2:{ apply lookup_ge_None in Hlook. unfold nEvents in Hn. lia. }
  assert (Hnext : ∀ prev', noPanic (playLoop cfg from n (i + 1) prev' k)).
  { intros prev'. apply IH; [lia | lia | exact Hk]. }
  assert (He : inBounds cfg e = true).
  { rewrite forallb_forall in Hin. apply Hin.
    apply list_elem_of_In. eapply list_elem_of_lookup_2, Hlook. }
  destruct (ev_type e) eqn:Htype.
  - destruct (inBounds_print cfg e Htype He) as [data Hslice].
    rewrite Hslice.
    destruct (from <=? i); [|do 2 constructor; apply Hnext].
    unfold applyDelay, timestampFrame, esc.
    destruct (termWidth cfg); repeat constructor; apply Hnext.
  - destruct (splitColon (ev_size e)) as [|? [|? [|? ?]]];
      repeat constructor; apply Hnext.
  - destruct (splitColon (ev_size e)) as [|? [|? [|? ?]]];
      repeat constructor; apply Hnext.
  - apply Hnext.
Qed.

Lemma playback_noPanic cfg from to :
  forallb (inBounds cfg) (sessionEvents cfg) = true →
  to ≤ nEvents cfg → noPanic (playback cfg from to).
Proof.
  intros Hin Hto. unfold playback, setState. repeat constructor.
  apply playLoop_noPanic; [exact Hin | lia | pose proof (nEvents_nonneg cfg); lia |].
  intros r Hr.
  destruct r as [i| |]; [destruct (decide (i = nEvents cfg))| |];
    unfold notifyStopped, deferredStopped, setState; repeat constructor.
  congruence.
Qed.

Lemma playRange_noPanic cfg from to k :
  forallb (inBounds cfg) (sessionEvents cfg) = true →
  noPanic k → noPanic (playRange cfg from to k).
Proof.
  intros Hin Hk. unfold playRange, setState.
  destruct ((to >? nEvents cfg) || (from <? 0)) eqn:Hc.
  - repeat constructor. exact Hk.
  - apply orb_false_iff in Hc as [Hc _]. rewrite Z.gtb_ltb in Hc.
    apply Z.ltb_ge in Hc.
    constructor. constructor; [|exact Hk].
    apply playback_noPanic; [exact Hin|].
    destruct (to =? 0); lia.
Qed.

Lemma call_noPanic cfg o k :
  forallb (inBounds cfg) (sessionEvents cfg) = true →
  noPanic k → noPanic (call cfg o k).
Proof.
  intros Hin Hk. destruct o; cbn [call];
    unfold Play, Stopped, Rewind, Forward, TogglePause, setState, waitUntil;
    repeat first
      [ assumption
      | apply (playRange_noPanic cfg _ _ _ Hin)
      | match goal with
        | |- noPanic (if ?c then _ else _) => destruct c
        | |- noPanic ((if ?c then _ else _) _) => destruct c
        | |- ∀ _, _ => intro
        end
      | constructor ].
Qed.

Lemma caller_noPanic cfg ops :
  forallb (inBounds cfg) (sessionEvents cfg) = true →
  noPanic (caller cfg ops).
Proof.
  intros Hin. induction ops as [|o ops IH]; simpl; [constructor|].
  apply call_noPanic; [exact Hin | exact IH].
Qed.

Lemma run_safe sched : ∀ w,
  lockInv w → Forall noPanic (threads w) → crashed w = false →
  crashed (run sched w) = false.
Proof.
  induction sched as [|t sched IH]; intros w Hinv Hnp Hcr; simpl; [exact Hcr|].
  destruct (step t w) as [w'|] eqn:Hstep; simpl; [|apply IH; assumption].
  destruct (step_lockInv t w w' Hstep Hinv) as [Hinv' Hfatal].
  apply IH; [exact Hinv' | |].
  - eapply (step_preserved noPanic); try eassumption.
    + apply noPanic_tstep.
    + apply noPanic_wake.
  - destruct (crashed w') eqn:Hcr'; [|reflexivity].
    specialize (Hfatal eq_refl).
    assert (Hp : noPanic Panic) by (eapply Forall_lookup_1; eassumption).
    inversion Hp.
Qed.

(** X7. On a recording whose output events all have their byte range
    inside the stream, the program never dies, whatever public operations
    the callers of a fresh player issue and however the threads are
    scheduled. *)
Theorem in_bounds_recording_never_crashes
    (cfg : Config) (callers : list (list Op)) (sched : list nat) :
  forallb (inBounds cfg) (sessionEvents cfg) = true →
  crashed (run sched (initWorld cfg callers)) = false.
Proof.
  intros Hin. apply run_safe.
  - apply initWorld_lockInv.
  - simpl. apply Forall_fmap, Forall_forall. intros ops _.
    apply caller_noPanic, Hin.
  - reflexivity.
Qed.

Lemma in_bounds_recording_never_crashes_witness :
  crashed (run testPlayPauseSchedule
             (initWorld cfgDemo [[OpPlay; OpTogglePause]; [OpForward]])) = false.
Proof.
  exact (in_bounds_recording_never_crashes cfgDemo
           [[OpPlay; OpTogglePause]; [OpForward]] testPlayPauseSchedule eq_refl).
Defined.

(** ** Complete runs of the playback goroutine *)

Lemma Stopped_runs k sh :
  mu sh = false →
  runs (Stopped k) sh [] (k (bool_decide (state sh = stateStopped))) sh.
Proof.
  destruct sh as [m st pos once c]; simpl; intros ->.
  eexists. split; [unfold Stopped; solo_steps | reflexivity].
Qed.

(** X8. Play on a recording with no events clears the screen and
    launches the playback of the range (0, 0).  That goroutine, alone,
    writes nothing, closes the channel unless the Once was used before,
    leaves position as it was and the player stopped; among other threads
    it never writes or sleeps. *)
Theorem Play_on_empty_recording
    (cfg : Config) (k : Prog) (sh shg : Shared) :
  sessionEvents cfg = [] → mu shg = false →
  (∃ tr, solo (Play cfg k) sh tr k sh
         ∧ ios tr = [StdoutWrite (String ESC "c")]
         ∧ launched tr = [playback cfg 0 0])
  ∧ runs (playback cfg 0 0) shg [] Done
      (mkShared false stateStopped (position shg) true
         (if stopOnce shg then stopC shg else S (stopC shg)))
  ∧ (∀ R sh0 tr p' sh',
       texec R (playback cfg 0 0) sh0 tr p' sh' → ios tr = []).
Proof.
  intros Hnil Hmu.
  assert (Hn : nEvents cfg = 0) by (unfold nEvents; rewrite Hnil; reflexivity).
  split; [|split].
  - destruct (playRange_valid cfg 0 0 k sh ltac:(lia) ltac:(lia))
      as (tr & Htr & Hio & Hl).
    exists tr. split; [exact Htr|]. split; [exact Hio|].
    rewrite Hl, Hn. reflexivity.
  - pose proof (playback_runs cfg 0 0 shg Hmu ltac:(lia)) as Hrun.
    rewrite Hnil, Hn in Hrun. specialize (Hrun eq_refl).
    eapply runs_eq; [exact Hrun | reflexivity |].
    destruct shg as [m st pos [|] c]; reflexivity.
  - intros R sh0 tr p' sh' H.
    pose proof (playback_prefix R cfg 0 0 sh0 tr p' sh' ltac:(lia) H) as Hp.
    rewrite Hnil in Hp. apply prefix_nil_inv in Hp. exact Hp.
Qed.

Lemma Play_on_empty_recording_witness :
  runs (playback cfgEmpty 0 0) newSessionPlayer [] Done
    (mkShared false stateStopped (-1) true 1).
Proof.
  exact (proj1 (proj2 (Play_on_empty_recording cfgEmpty Done newSessionPlayer
                         newSessionPlayer eq_refl eq_refl))).
Defined.

(** The playback goroutine of a range that ends at the length of the
    stream, alone, up to the moment it has closed the channel. *)
Lemma playback_runs_to_close cfg from sh :
  mu sh = false → stopOnce sh = false →
  forallb (inBounds cfg) (sessionEvents cfg) = true →
  runs (playback cfg from (nEvents cfg)) sh
    (renderInstant cfg (take (Z.to_nat from) (sessionEvents cfg))
     ++ renderPaced cfg 0 (drop (Z.to_nat from) (sessionEvents cfg)))
    (deferredStopped Done)
    (mkShared false statePlaying
       (lastPlayed (sessionEvents cfg) 0 (position sh)) true (S (stopC sh))).
Proof.
  intros Hmu Honce Hin. unfold playback.
  pose proof (playLoop_runs cfg from (sessionEvents cfg) 0 0
    (λ r, match r with
          | FellThrough i =>
              if decide (i = nEvents cfg)
              then notifyStopped (deferredStopped Done)
              else deferredStopped Done
          | Returned => deferredStopped Done
          | Faulted => deferredStopped Panic
          end)
    (set_state statePlaying sh) []
    ltac:(destruct sh; exact Hmu) ltac:(destruct sh; simpl; congruence)
    ltac:(lia) ltac:(simpl; rewrite app_nil_r; reflexivity) Hin) as Hloop.
  rewrite Z.sub_0_r in Hloop. cbv beta iota in Hloop.
  replace (Z.to_nat (nEvents cfg)) with (length (sessionEvents cfg))
    by (unfold nEvents; lia).
  change (0 + Z.of_nat (length (sessionEvents cfg))) with (0 + nEvents cfg) in Hloop.
  rewrite Z.add_0_l in Hloop.
  rewrite decide_True in Hloop by reflexivity.
  eapply runs_eq.
  { eapply runs_trans; [apply lockedSetState_runs, Hmu|].
    eapply runs_trans; [exact Hloop|].
    apply notifyStopped_runs. }
  { simpl. rewrite app_nil_r. reflexivity. }
  { destruct sh as [m st pos once c]. simpl in *. subst. reflexivity. }
Qed.

(** X9. A playback whose range ends at the length of the stream, run
    alone on a player whose Once is unused, reaches a point where it has
    closed the channel while the state is still statePlaying and the
    mutex is free: notifyStopped, deferred last, runs before the state
    update deferred first.  Stopped() called at that point answers false;
    only the deferred call that follows sets stateStopped. *)
Theorem stopC_closed_before_stateStopped
    (cfg : Config) (from : Z) (sh : Shared) :
  mu sh = false → stopOnce sh = false →
  forallb (inBounds cfg) (sessionEvents cfg) = true →
  ∃ io sh1,
    runs (playback cfg from (nEvents cfg)) sh io (deferredStopped Done) sh1
    ∧ stopC sh1 = S (stopC sh)
    ∧ state sh1 = statePlaying
    ∧ mu sh1 = false
    ∧ (∀ k, runs (Stopped k) sh1 [] (k false) sh1)
    ∧ runs (deferredStopped Done) sh1 [] Done (set_state stateStopped sh1).
Proof.
  intros Hmu Honce Hin.
  eexists _, _. split; [apply playback_runs_to_close; assumption|].
  split; [reflexivity|]. split; [reflexivity|]. split; [reflexivity|].
  split.
  - intros k. apply (Stopped_runs k). reflexivity.
  - apply deferredStopped_runs. reflexivity.
Qed.

Lemma stopC_closed_before_stateStopped_witness :
  ∃ io sh1,
    runs (playback cfgEmpty 0 (nEvents cfgEmpty)) newSessionPlayer io
      (deferredStopped Done) sh1
    ∧ stopC sh1 = 1%nat ∧ state sh1 = statePlaying.
Proof.
  destruct (stopC_closed_before_stateStopped cfgEmpty 0 newSessionPlayer
              eq_refl eq_refl eq_refl) as (io & sh1 & Hrun & Hc & Hs & _).
  exists io, sh1. split; [exact Hrun|]. split; [exact Hc | exact Hs].
Defined.

(** ** The bytes a playback writes *)

Lemma writes_app l1 l2 : writes (l1 ++ l2) = writes l1 ++ writes l2.
Proof.
  induction l1 as [|io l1 IH]; simpl; [reflexivity|].
  destruct io; simpl; rewrite ?IH; reflexivity.
Qed.

(** Pacing adds sleeps and overlays and changes no other write: on a
    terminal that reports no size, the paced and the instant rendering
    write the same bytes. *)
Lemma writes_renderPaced cfg es : ∀ prev,
  termWidth cfg = None →
  writes (renderPaced cfg prev es) = writes (renderInstant cfg es).
Proof.
  intros prev Hw. revert prev.
  induction es as [|e es IH]; intros prev; [reflexivity|].
  unfold renderInstant in *. cbn [renderPaced flat_map].
  destruct (ev_type e) eqn:Htype;
    rewrite ?writes_app; cbn [writes]; rewrite ?writes_app, ?IH; try reflexivity.
  unfold overlay. rewrite Hw. reflexivity.
Qed.

Lemma renderInstant_app cfg es1 es2 :
  renderInstant cfg (es1 ++ es2) = renderInstant cfg es1 ++ renderInstant cfg es2.
Proof. unfold renderInstant. apply flat_map_app. Qed.

Lemma writes_page cfg from es :
  termWidth cfg = None →
  writes (renderInstant cfg (take from es) ++ renderPaced cfg 0 (drop from es))
  = writes (renderInstant cfg es).
Proof.
  intros Hw. rewrite writes_app, (writes_renderPaced cfg _ 0 Hw), <- writes_app,
    <- renderInstant_app, take_drop. reflexivity.
Qed.

(** X10. On a terminal that reports no size, two playbacks of the same
    range that differ in their pacing start only, each run alone to its
    end from the same shared fields, write the same byte strings in the
    same order, those of the instant rendering of the range, and leave
    the same shared fields: resuming replays what Play wrote. *)
Theorem pacing_start_changes_only_delays
    (cfg : Config) (from from' to : Z) (sh : Shared) :
  termWidth cfg = None → mu sh = false → 0 ≤ to ≤ nEvents cfg →
  forallb (inBounds cfg) (take (Z.to_nat to) (sessionEvents cfg)) = true →
  ∃ io io' sh',
    runs (playback cfg from to) sh io Done sh'
    ∧ runs (playback cfg from' to) sh io' Done sh'
    ∧ writes io = writes io'
    ∧ writes io = writes (renderInstant cfg (take (Z.to_nat to) (sessionEvents cfg))).
Proof.
  intros Hw Hmu Hto Hin.
  eexists _, _, _.
  split; [apply (playback_runs cfg from to sh Hmu Hto Hin)|].
  split; [apply (playback_runs cfg from' to sh Hmu Hto Hin)|].
  rewrite !(writes_page cfg _ _ Hw). split; reflexivity.
Qed.

Lemma pacing_start_changes_only_delays_witness :
  ∃ io io' sh',
    runs (playback cfgTest 0 3) newSessionPlayer io Done sh'
    ∧ runs (playback cfgTest 2 3) newSessionPlayer io' Done sh'
    ∧ writes io = writes io'.
Proof.
  destruct (pacing_start_changes_only_delays cfgTest 0 2 3 newSessionPlayer
              eq_refl eq_refl ltac:(unfold nEvents; simpl; lia) eq_refl)
    as (io & io' & sh' & H1 & H2 & Hw & _).
  exists io, io', sh'. split; [exact H1|]. split; [exact H2 | exact Hw].
Defined.

(** ** Byte ranges that tile the stream *)

Lemma substring_tile s : ∀ a n m,
  (String.substring a n s +:+ String.substring (a + n) m s
   = String.substring a (n + m) s)%nat.
Proof.
  induction s as [|c s IH]; intros a n m.
  - destruct a, n, m; reflexivity.
  - destruct a as [|a].
    + destruct n as [|n]; simpl.
      * destruct m; reflexivity.
      * rewrite <- (IH 0%nat n m). reflexivity.
    + simpl. apply IH.
Qed.

Lemma substring_none s : ∀ a, String.substring a 0 s = EmptyString.
Proof.
  induction s as [|c s IH]; intros [|a]; simpl; try reflexivity. apply IH.
Qed.

Lemma substring_all s : String.substring 0 (String.length s) s = s.
Proof. induction s as [|c s IH]; simpl; [reflexivity | rewrite IH; reflexivity]. Qed.

Lemma tiles_le cfg es : ∀ off,
  tiles cfg off es = true → off ≤ Z.of_nat (String.length (stream cfg)).
Proof.
  induction es as [|e es IH]; intros off H; simpl in H.
  - apply Z.eqb_eq in H. lia.
  - destruct (ev_type e); try discriminate H.
    + apply andb_prop in H as [H Hrest]. apply andb_prop in H as [_ Hb].
      apply Z.leb_le in Hb. specialize (IH _ Hrest). lia.
    + apply IH, H.
Qed.

(** Output events whose byte ranges tile the stream are in bounds, and
    written back to back they give the stream from the first offset on. *)
Lemma tiles_written cfg es : ∀ off,
  Z.of_nat (String.length (stream cfg)) < 2 ^ 63 → 0 ≤ off →
  tiles cfg off es = true →
  forallb (inBounds cfg) es = true
  ∧ written (renderInstant cfg es)
    = String.substring (Z.to_nat off)
        (String.length (stream cfg) - Z.to_nat off) (stream cfg).
Proof.
  intros off Hlen. revert off.
  induction es as [|e es IH]; intros off Hoff H.
  - simpl in H. apply Z.eqb_eq in H. split; [reflexivity|].
    replace (String.length (stream cfg) - Z.to_nat off)%nat with 0%nat by lia.
    unfold written. simpl. symmetry. apply substring_none.
  - pose proof (tiles_le cfg (e :: es) off H) as Hle.
    simpl in H. unfold renderInstant, written in *. cbn [flat_map forallb].
    unfold inBounds at 1, rendered at 1.
    destruct (ev_type e) eqn:Htype; try discriminate H.
    + apply andb_prop in H as [H Hrest]. apply andb_prop in H as [Ho Hb].
      apply Z.eqb_eq in Ho. apply Z.leb_le in Hb.
      pose proof (tiles_le cfg es _ Hrest) as Hle'.
      destruct (IH (off + ev_bytes e) ltac:(lia) Hrest) as [Hin Hwr].
      rewrite Ho, wrap64_id by lia.
      unfold sliceBytes.
      replace ((0 <=? off) && (off <=? off + ev_bytes e)
               && (off + ev_bytes e <=? Z.of_nat (String.length (stream cfg))))
        with true
        by (symmetry; rewrite !andb_true_iff, !Z.leb_le; lia).
      split.
      * rewrite bool_decide_eq_true_2 by eauto. exact Hin.
      * rewrite writes_app. cbn [writes app foldr]. rewrite Hwr.
        replace (Z.to_nat (off + ev_bytes e))
          with (Z.to_nat off + Z.to_nat (off + ev_bytes e - off))%nat by lia.
        rewrite substring_tile. f_equal. lia.
    + destruct (IH off Hoff H) as [Hin Hwr]. split; [exact Hin|].
      simpl. exact Hwr.
Qed.

(** X11. On a recording made of output events, and events the player has
    no case for, whose byte ranges follow one another from offset 0 to the
    end of the stream, a playback of the whole recording run alone writes
    the bytes of the stream, all of them, once and in order (on a
    terminal that reports no size, or with every event before the pacing
    start). *)
Theorem tiled_prints_reproduce_stream
    (cfg : Config) (from : Z) (sh : Shared) :
  tiles cfg 0 (sessionEvents cfg) = true →
  Z.of_nat (String.length (stream cfg)) < 2 ^ 63 →
  termWidth cfg = None ∨ nEvents cfg ≤ from →
  mu sh = false →
  ∃ io sh',
    runs (playback cfg from (nEvents cfg)) sh io Done sh'
    ∧ written io = stream cfg.
Proof.
  intros Ht Hlen Hor Hmu.
  destruct (tiles_written cfg (sessionEvents cfg) 0 Hlen ltac:(lia) Ht)
    as [Hin Hwr].
  assert (Htake : take (Z.to_nat (nEvents cfg)) (sessionEvents cfg)
                  = sessionEvents cfg).
  { apply take_ge. unfold nEvents. lia. }
  pose proof (playback_runs cfg from (nEvents cfg) sh Hmu
                ltac:(pose proof (nEvents_nonneg cfg); lia)
                ltac:(rewrite Htake; exact Hin)) as Hrun.
  rewrite Htake in Hrun.
  eexists _, _. split; [exact Hrun|].
  assert (Hw : writes (renderInstant cfg (take (Z.to_nat from) (sessionEvents cfg))
                       ++ renderPaced cfg 0 (drop (Z.to_nat from) (sessionEvents cfg)))
               = writes (renderInstant cfg (sessionEvents cfg))).
  { destruct Hor as [Hw | Hfrom]; [apply writes_page, Hw|].
    rewrite take_ge, drop_ge by (unfold nEvents in Hfrom; lia).
    simpl. rewrite app_nil_r. reflexivity. }
  unfold written in *. rewrite Hw, Hwr. simpl.
  rewrite Nat.sub_0_r. apply substring_all.
Qed.

Lemma tiled_prints_reproduce_stream_witness :
  ∃ io sh',
    runs (playback (mkConfig "hello world"
                      [ mkEvent SessionPrintEvent 100 0 5 "" "t1";
                        mkEvent OtherEvent 150 0 0 "" "t2";
                        mkEvent SessionPrintEvent 200 5 6 "" "t3" ] None) 0 3)
      newSessionPlayer io Done sh'
    ∧ written io = "hello world".
Proof.
  exact (tiled_prints_reproduce_stream
           (mkConfig "hello world"
              [ mkEvent SessionPrintEvent 100 0 5 "" "t1";
                mkEvent OtherEvent 150 0 0 "" "t2";
                mkEvent SessionPrintEvent 200 5 6 "" "t3" ] None)
           0 newSessionPlayer eq_refl ltac:(vm_compute; reflexivity)
           (or_introl eq_refl) eq_refl).
Defined.

(** ** A caller alone in the program *)

Lemma solo_snoc p0 sh0 tr p sh l p1 :
  solo p0 sh0 tr p sh → tstep p sh = Next l p1 →
  solo p0 sh0 (tr ++ [(sh, l)]) p1 (effect l sh).
Proof.
  intros H Hs. eapply solo_trans; [exact H|].
  eapply solo_step; [exact Hs | apply solo_stop].
Qed.

Lemma launched_app tr1 tr2 : launched (tr1 ++ tr2) = launched tr1 ++ launched tr2.
Proof.
  induction tr1 as [|[sh l] tr1 IH]; simpl; [reflexivity|].
  destruct l; simpl; rewrite ?IH; reflexivity.
Qed.

(** A program whose one thread, run alone, launches nothing, broadcasts
    nothing and meets no fatal error: under any schedule it does what the
    thread does alone. *)
Lemma run_single p0 sh0 :
  (∀ tr p sh, solo p0 sh0 tr p sh →
     launched tr = [] ∧ Forall (λ l, l ≠ LBroadcast) (labels tr)
     ∧ tstep p sh ≠ Fatal) →
  ∀ sched tr p sh,
    solo p0 sh0 tr p sh →
    ∃ tr' p' sh',
      run sched (mkWorld sh [p] false) = mkWorld sh' [p'] false
      ∧ solo p0 sh0 tr' p' sh'.
Proof.
  intros Hall. induction sched as [|t sched IH]; intros tr p sh H; simpl.
  - eauto.
  - destruct t as [|t]; [|unfold step; simpl; eapply IH, H].
    unfold step. simpl.
    destruct (tstep p sh) as [l p1| | |] eqn:Hs; simpl; try (eapply IH, H).
    + pose proof (solo_snoc _ _ _ _ _ _ _ H Hs) as H1.
      destruct (Hall _ _ _ H1) as (Hl & Hb & _).
      rewrite launched_app in Hl. apply app_eq_nil in Hl as [_ Hl].
      rewrite labels_app in Hb. apply Forall_app in Hb as [_ Hb].
      apply Forall_cons in Hb as [Hb _]. simpl in Hb.
      assert (Haft : after l [p1] = [p1]).
      { destruct l; try reflexivity; [congruence | discriminate Hl]. }
      rewrite Haft. eapply IH, H1.
    + destruct (Hall _ _ _ H) as (_ & _ & Hf). congruence.
Qed.

(** X12. Forward on a stopped player whose position is the last index of
    the recording (so also on a fresh player with an empty recording),
    alone: it reads position, requests the range (len+1, len+1) and stops
    at the p.Lock() of playRange holding the mutex itself.  Under no
    schedule does the call return; nothing is written or launched, and
    state and position stay as they were. *)
Theorem Forward_at_last_event_blocks (cfg : Config) (sh : Shared) :
  mu sh = false → state sh = stateStopped → position sh = nEvents cfg - 1 →
  (∃ tr, solo (Forward cfg Done) sh tr
           (Lock (setState stateStopped (Unlock (Unlock Done))))
           (set_mu true sh)
         ∧ ios tr = [] ∧ launched tr = [])
  ∧ stuck (mkWorld (set_mu true sh)
             [Lock (setState stateStopped (Unlock (Unlock Done)))] false)
  ∧ ∀ sched,
      let w := run sched (mkWorld sh [Forward cfg Done] false) in
      (∃ p, threads w = [p] ∧ p ≠ Done)
      ∧ crashed w = false
      ∧ state (shared w) = stateStopped
      ∧ position (shared w) = position sh.
Proof.
  intros Hmu Hst Hpos. split; [|split].
  - destruct (Forward_solo cfg Done sh Hmu Hst) as (_ & _ & H).
    destruct (H ltac:(lia)) as (tr & Htr & Hio & Hl & _).
    exists tr. auto.
  - intros [|t]; reflexivity.
  - intros sched w.
    destruct (run_single (Forward cfg Done) sh
                (λ tr p sh' H,
                   match Forward_blocked cfg sh tr p sh' Hmu Hst Hpos H with
                   | conj _ (conj Hl (conj Hb (conj Hf _))) =>
                       conj Hl (conj Hb Hf)
                   end)
                sched [] _ _ (solo_stop _ _))
      as (tr' & p' & sh' & Hrun & Hsolo).
    destruct (Forward_blocked cfg sh tr' p' sh' Hmu Hst Hpos Hsolo)
      as (Hnd & _ & _ & _ & Hst' & Hpos' & _).
    unfold w. rewrite Hrun. simpl. split; [eauto|]. auto.
Qed.

Lemma Forward_at_last_event_blocks_witness :
  stuck (mkWorld (set_mu true (mkShared false stateStopped 0 true 1))
           [Lock (setState stateStopped (Unlock (Unlock Done)))] false)
  ∧ ∃ p, threads (run (replicate 9 0%nat)
                    (mkWorld (mkShared false stateStopped 0 true 1)
                       [Forward cfgOne Done] false)) = [p]
         ∧ p ≠ Done.
Proof.
  destruct (Forward_at_last_event_blocks cfgOne
              (mkShared false stateStopped 0 true 1) eq_refl eq_refl eq_refl)
    as (_ & Hstuck & Hall).
  split; [exact Hstuck|]. exact (proj1 (Hall (replicate 9 0%nat))).
Defined.

(** ** After a stop request *)

Lemma sinceStop_quiet tr : loadedStates tr = [] → sinceStop tr = None.
Proof.
  induction tr as [|[sh l] tr IH]; simpl; [reflexivity|].
  destruct l; simpl; try exact IH. discriminate.
Qed.

Lemma sinceStop_app_quiet tr1 tr2 :
  loadedStates tr1 = [] → sinceStop (tr1 ++ tr2) = sinceStop tr2.
Proof.
  induction tr1 as [|[sh l] tr1 IH]; simpl; [reflexivity|].
  destruct l; simpl; try exact IH. discriminate.
Qed.

(** The deferred state update, run as far as it got. *)
Lemma deferredStopped_labels R k0 sh tr p' sh' :
  k0 = Done ∨ k0 = Panic →
  texec R (deferredStopped k0) sh tr p' sh' →
  labels tr `prefix_of` [LLock; LStoreState stateStopped; LBroadcast; LUnlock].
Proof.
  intros Hk H. unfold deferredStopped, setState in H.
  tx H; [apply prefix_nil|].
  tx H; [eexists; reflexivity|].
  tx H; [eexists; reflexivity|].
  tx H; [eexists; reflexivity|].
  destruct Hk as [-> | ->]; tx H; exists []; reflexivity.
Qed.

Lemma afterStopOK_quiet tr : loadedStates tr = [] → afterStopOK tr.
Proof. intros Hq tl Htl. rewrite (sinceStop_quiet tr Hq) in Htl. discriminate. Qed.

Lemma afterStopOK_app tr1 tr2 :
  loadedStates tr1 = [] → afterStopOK tr2 → afterStopOK (tr1 ++ tr2).
Proof. intros Hq H tl. rewrite (sinceStop_app_quiet _ _ Hq). apply H. Qed.

Lemma playLoop_afterStop R cfg from p' sh' k :
  (∀ sh1 tr1, texec R (k Returned) sh1 tr1 p' sh' →
     labels tr1 `prefix_of` [LLock; LStoreState stateStopped; LBroadcast; LUnlock]) →
  (∀ r sh1 tr1, r ≠ Returned → texec R (k r) sh1 tr1 p' sh' →
     loadedStates tr1 = []) →
  ∀ n i prev sh tr,
    texec R (playLoop cfg from n i prev k) sh tr p' sh' → afterStopOK tr.
Proof.
  intros Hret Hother.
  induction n as [|n IH]; intros i prev sh tr H.
  - simpl in H. apply afterStopOK_quiet. eapply Hother, H. discriminate.
  - cbn [playLoop] in H. unfold stopRequested in H.
    tx H; [apply afterStopOK_quiet; reflexivity|].
    tx H; [apply afterStopOK_quiet; reflexivity|].
    tx H.
    { intros tl Htl. simpl in Htl.
      destruct (state x1); try discriminate Htl.
      injection Htl as <-. apply prefix_nil. }
    case_bool_decide as Hstop.
    { intros tl Htl. simpl in Htl. rewrite Hstop in Htl.
      injection Htl as <-. rewrite labels_cons. apply prefix_cons.
      eapply Hret, H. }
    assert (Hskip : ∀ rest, afterStopOK rest →
      afterStopOK ((sh, LLock) :: (x1, LLoadState (state x1)) :: (x3, LUnlock) :: rest)).
    { intros rest Hrest tl Htl. simpl in Htl.
      destruct (state x1); try congruence; apply Hrest, Htl. }
    apply Hskip. clear Hskip.
    assert (Hnext : ∀ mid prev' sh2 tr2,
      loadedStates mid = [] →
      texec R (playLoop cfg from n (i + 1) prev' k) sh2 tr2 p' sh' →
      afterStopOK (mid ++ tr2)).
    { intros mid prev' sh2 tr2 Hq H2. apply afterStopOK_app; [exact Hq|].
      eapply IH, H2. }
    assert (Hfault : ∀ mid sh2 tr2,
      loadedStates mid = [] → texec R (k Faulted) sh2 tr2 p' sh' →
      afterStopOK (mid ++ tr2)).
    { intros mid sh2 tr2 Hq H2. apply afterStopOK_quiet.
      rewrite loadedStates_app, Hq. eapply Hother, H2. discriminate. }
    assert (Hwrite : ∀ mid prev' io sh2 tr2,
      loadedStates mid = [] →
      texec R (Perform io (StorePosition i (playLoop cfg from n (i + 1) prev' k)))
        sh2 tr2 p' sh' →
      afterStopOK (mid ++ tr2)).
    { intros mid prev' io sh2 tr2 Hq H2.
      tx H2; [apply afterStopOK_quiet; rewrite app_nil_r; exact Hq|].
      tx H2; [apply afterStopOK_quiet; rewrite loadedStates_app, Hq; reflexivity|].
      apply afterStopOK_app; [exact Hq|].
      match goal with
      | |- afterStopOK (?a :: ?b :: ?t) =>
          apply (afterStopOK_app [a; b] t eq_refl)
      end.
      eapply IH, H2. }
    revert H.
    destruct (sessionEvents cfg !! Z.to_nat i) as [e|];
      [|intros H; apply (Hfault [] _ _ eq_refl H)].
    destruct (ev_type e).
    + destruct (from <=? i).
      * intros H. apply applyDelay_texec in H
          as [[_ Hq] | (tr1 & tr2 & sh1 & -> & [_ Hq] & H)];
          [apply afterStopOK_quiet, Hq|].
        revert H. destruct (sliceBytes _ _ _); intros H;
          [eapply Hwrite; eassumption | eapply Hfault; eassumption].
      * destruct (sliceBytes _ _ _); intros H;
          [apply (Hwrite [] _ _ _ _ eq_refl H) | apply (Hfault [] _ _ eq_refl H)].
    + destruct (splitColon (ev_size e)) as [|? [|? [|? ?]]]; intros H;
        first [ apply (Hwrite [] _ _ _ _ eq_refl H)
              | apply (Hnext [] _ _ _ eq_refl H) ].
    + destruct (splitColon (ev_size e)) as [|? [|? [|? ?]]]; intros H;
        first [ apply (Hwrite [] _ _ _ _ eq_refl H)
              | apply (Hnext [] _ _ _ eq_refl H) ].
    + intros H. apply (Hnext [] _ _ _ eq_refl H).
Qed.

(** The steps that follow a stop request write nothing, sleep nothing,
    store no position and do not close the channel. *)
Lemma afterStop_silent tl :
  labels tl `prefix_of`
    [LUnlock; LLock; LStoreState stateStopped; LBroadcast; LUnlock] →
  ios tl = [] ∧ fired tl = false
  ∧ Forall (λ l, ∀ i, l ≠ LStorePosition i) (labels tl).
Proof.
  intros [rest H].
  repeat (destruct tl as [|[? ?] tl];
          [repeat split; repeat constructor; discriminate|];
          rewrite labels_cons in H; simpl in H; injection H as <- H).
  destruct tl as [|[? ?] tl]; [|rewrite labels_cons in H; discriminate H].
  repeat split; repeat constructor; discriminate.
Qed.

(** X13. Once stopRequested has seen stateStopping, a playback goroutine,
    however it is interleaved with other threads, does nothing but leave
    stopRequested and run the deferred state update (lock, stateStopped,
    broadcast, unlock): it writes nothing more, does not sleep, stores no
    position and does not close the channel. *)
Theorem stop_request_ends_playback
    (cfg : Config) (from to : Z) (R : Shared → Shared → Prop)
    (sh : Shared) (tr tl : list (Shared * Label)) (p' : Prog) (sh' : Shared) :
  texec R (playback cfg from to) sh tr p' sh' →
  sinceStop tr = Some tl →
  labels tl `prefix_of`
    [LUnlock; LLock; LStoreState stateStopped; LBroadcast; LUnlock]
  ∧ ios tl = [] ∧ fired tl = false
  ∧ Forall (λ l, ∀ i, l ≠ LStorePosition i) (labels tl).
Proof.
  intros H Htl.
  assert (Hok : afterStopOK tr).
  { unfold playback, setState in H.
    tx H; [apply afterStopOK_quiet; reflexivity|].
    tx H; [apply afterStopOK_quiet; reflexivity|].
    tx H; [apply afterStopOK_quiet; reflexivity|].
    tx H; [apply afterStopOK_quiet; reflexivity|].
    match goal with
    | |- afterStopOK (?a :: ?b :: ?c :: ?d :: ?t) =>
        apply (afterStopOK_app [a; b; c; d] t eq_refl)
    end.
    eapply (playLoop_afterStop R cfg from p' sh'); [| |exact H].
    - intros sh1 tr1 H1.
      apply (deferredStopped_labels R Done) in H1; auto.
    - intros r sh1 tr1 Hr H1. destruct r as [j| |]; [|congruence|].
      + destruct (decide (j = nEvents cfg)).
        * unfold notifyStopped in H1.
          tx H1; [reflexivity | |];
            apply (deferredStopped_quiet R Done) in H1 as [_ Hq]; auto.
        * apply (deferredStopped_quiet R Done) in H1 as [_ Hq]; auto.
      + apply (deferredStopped_quiet R Panic) in H1 as [_ Hq]; auto. }
  split; [exact (Hok tl Htl)|]. apply afterStop_silent, Hok, Htl.
Qed.

Lemma stop_request_ends_playback_witness :
  ∃ tr tl sh',
    texec anyEnv (playback cfgOne 0 1) newSessionPlayer tr Done sh'
    ∧ sinceStop tr = Some tl
    ∧ labels tl = [LUnlock; LLock; LStoreState stateStopped; LBroadcast; LUnlock]
    ∧ ios tl = [].
Proof.
  eexists _, _, _.
  match goal with |- ?A ∧ ?B ∧ _ => assert (H : A); [|assert (Hs : B)] end.
  { unfold playback, setState.
    (* the goroutine sets statePlaying *)
    eapply (texec_step anyEnv _ _ _ _ (mkShared true stateStopped (-1) false 0));
      [reflexivity | exact I |].
    eapply (texec_step anyEnv _ _ _ _ (mkShared true statePlaying (-1) false 0));
      [reflexivity | exact I |].
    eapply (texec_step anyEnv _ _ _ _ (mkShared true statePlaying (-1) false 0));
      [reflexivity | exact I |].
    (* it unlocks; a caller asks it to stop *)
    eapply (texec_step anyEnv _ _ _ _ (mkShared false stateStopping (-1) false 0));
      [reflexivity | exact I |].
    (* stopRequested *)
    eapply (texec_step anyEnv _ _ _ _ (mkShared true stateStopping (-1) false 0));
      [reflexivity | exact I |].
    eapply (texec_step anyEnv _ _ _ _ (mkShared true stateStopping (-1) false 0));
      [reflexivity | exact I |].
    eapply (texec_step anyEnv _ _ _ _ (mkShared false stateStopping (-1) false 0));
      [reflexivity | exact I |].
    (* the deferred state update *)
    eapply (texec_step anyEnv _ _ _ _ (mkShared true stateStopping (-1) false 0));
      [reflexivity | exact I |].
    eapply (texec_step anyEnv _ _ _ _ (mkShared true stateStopped (-1) false 0));
      [reflexivity | exact I |].
    eapply (texec_step anyEnv _ _ _ _ (mkShared true stateStopped (-1) false 0));
      [reflexivity | exact I |].
    eapply (texec_step anyEnv _ _ _ _ (mkShared false stateStopped (-1) false 0));
      [reflexivity | exact I |].
    apply texec_stop. }
  { reflexivity. }
  split; [exact H|]. split; [exact Hs|]. split; [reflexivity|].
  exact (proj1 (proj2 (stop_request_ends_playback cfgOne 0 1 anyEnv _ _ _ _ _ H Hs))).
Defined.

(** ** The positions a playback stores *)

Lemma stored_cons sh l tr :
  stored ((sh, l) :: tr)
  = match l with LStorePosition i => [i] | _ => [] end ++ stored tr.
Proof. destruct l; reflexivity. Qed.

Lemma stored_app tr1 tr2 : stored (tr1 ++ tr2) = stored tr1 ++ stored tr2.
Proof.
  induction tr1 as [|[sh l] tr1 IH]; simpl; [reflexivity|].
  destruct l; simpl; rewrite ?IH; reflexivity.
Qed.

Lemma timestampFrame_stored R cfg message k sh tr p' sh' :
  texec R (timestampFrame cfg message k) sh tr p' sh' →
  stored tr = []
  ∨ ∃ tr1 tr2 sh1, tr = tr1 ++ tr2 ∧ stored tr1 = [] ∧ texec R k sh1 tr2 p' sh'.
Proof.
  unfold timestampFrame, esc. intros H.
  destruct (termWidth cfg) as [width|].
  - tx H; [left; reflexivity|].
    tx H; [left; reflexivity|].
    tx H; [left; reflexivity|].
    tx H; [left; reflexivity|].
    right. eexists [_; _; _; _], _, _. split; [reflexivity|].
    split; [reflexivity | exact H].
  - right. exists [], tr, sh. split; [reflexivity|].
    split; [reflexivity | exact H].
Qed.

Lemma applyDelay_stored R cfg prev e k sh tr p' sh' :
  texec R (applyDelay cfg prev e k) sh tr p' sh' →
  stored tr = []
  ∨ ∃ tr1 tr2 sh1,
      tr = tr1 ++ tr2 ∧ stored tr1 = [] ∧ texec R (k (eventTime e)) sh1 tr2 p' sh'.
Proof.
  unfold applyDelay. intros H.
  apply timestampFrame_stored in H as [Hq | (tr1 & tr2 & sh1 & -> & Hq & H)];
    [left; exact Hq|].
  tx H; [left; rewrite app_nil_r; exact Hq|].
  right. eexists (tr1 ++ [_]), _, _. split; [rewrite <- app_assoc; reflexivity|].
  split; [|exact H]. rewrite stored_app, Hq. reflexivity.
Qed.

Lemma deferredStopped_stored R k0 sh tr p' sh' :
  k0 = Done ∨ k0 = Panic →
  texec R (deferredStopped k0) sh tr p' sh' → stored tr = [].
Proof.
  intros Hk H. unfold deferredStopped, setState in H.
  tx H; [reflexivity|].
  tx H; [reflexivity|].
  tx H; [reflexivity|].
  tx H; [reflexivity|].
  destruct Hk as [-> | ->]; tx H; reflexivity.
Qed.

(** The loop among other threads, stopped anywhere, interrupted or not:
    the positions it has stored so far open the list of the indices of
    its played events. *)
Lemma playLoop_stored R cfg from p' sh' : ∀ es i prev k sh tr rest,
  0 ≤ i →
  drop (Z.to_nat i) (sessionEvents cfg) = es ++ rest →
  (∀ r sh1 tr1, texec R (k r) sh1 tr1 p' sh' → stored tr1 = []) →
  texec R (playLoop cfg from (length es) i prev k) sh tr p' sh' →
  stored tr `prefix_of` playedAt es i.
Proof.
  induction es as [|e es IH]; intros i prev k sh tr rest Hi Hdrop Hk H.
  - simpl in H. rewrite (Hk _ _ _ H). apply prefix_nil.
  - assert (Hlook : sessionEvents cfg !! Z.to_nat i = Some e).
    { rewrite <- (Nat.add_0_r (Z.to_nat i)), <- lookup_drop, Hdrop.
      reflexivity. }
    assert (Hdrop' : drop (Z.to_nat (i + 1)) (sessionEvents cfg) = es ++ rest).
    { replace (Z.to_nat (i + 1)) with (S (Z.to_nat i)) by lia.
      rewrite (drop_S _ _ _ Hlook) in Hdrop. simpl in Hdrop.
      injection Hdrop as Hd. exact Hd. }
    assert (Hnext : ∀ prev' sh2 tr2,
      texec R (playLoop cfg from (length es) (i + 1) prev' k) sh2 tr2 p' sh' →
      stored tr2 `prefix_of` playedAt es (i + 1)).
    { intros prev' sh2 tr2 H2.
      apply (IH (i + 1) prev' k sh2 tr2 rest); [lia | exact Hdrop' | exact Hk | exact H2]. }
    assert (Hwrite : ∀ prev' io sh2 tr2,
      texec R (Perform io (StorePosition i (playLoop cfg from (length es) (i + 1) prev' k)))
        sh2 tr2 p' sh' →
      stored tr2 `prefix_of` (i :: playedAt es (i + 1))).
    { intros prev' io sh2 tr2 H2.
      tx H2; [apply prefix_nil|].
      tx H2; [apply prefix_nil|].
      simpl. apply prefix_cons. eapply Hnext, H2. }
    change (length (e :: es)) with (S (length es)) in H.
    cbn [playLoop] in H. unfold stopRequested in H.
    tx H; [apply prefix_nil|].
    tx H; [apply prefix_nil|].
    tx H; [apply prefix_nil|].
    rewrite !stored_cons. cbn [app playedAt]. unfold played.
    revert H. case_bool_decide as Hstop.
    { intros H. rewrite (Hk _ _ _ H). apply prefix_nil. }
    rewrite Hlook.
    destruct (ev_type e) eqn:Htype.
    + (* print *)
      assert (Hdata : ∀ prev' sh2 tr2,
        texec R
          match sliceBytes (stream cfg) (ev_offset e)
                  (wrap64 (ev_offset e + ev_bytes e)) with
          | Some data =>
              Perform (StdoutWrite data)
                (StorePosition i (playLoop cfg from (length es) (i + 1) prev' k))
          | None => k Faulted
          end sh2 tr2 p' sh' →
        stored tr2 `prefix_of` (i :: playedAt es (i + 1))).
      { intros prev' sh2 tr2.
        destruct (sliceBytes _ _ _) as [data|]; intros H2.
        - eapply Hwrite, H2.
        - rewrite (Hk _ _ _ H2). apply prefix_nil. }
      destruct (from <=? i).
      * intros H.
        apply applyDelay_stored in H as [Hq | (tr1 & tr2 & sh1 & -> & Hq & H)];
          [rewrite Hq; apply prefix_nil|].
        rewrite stored_app, Hq. apply (Hdata _ _ _ H).
      * intros H. apply (Hdata _ _ _ H).
    + destruct (splitColon (ev_size e)) as [|width [|height [|? ?]]]; intros H;
        first [eapply Hwrite, H | eapply Hnext, H].
    + destruct (splitColon (ev_size e)) as [|width [|height [|? ?]]]; intros H;
        first [eapply Hwrite, H | eapply Hnext, H].
    + intros H. eapply Hnext, H.
Qed.

Lemma playedAt_sorted es : ∀ i,
  Forall (λ j, i ≤ j < i + Z.of_nat (length es)) (playedAt es i)
  ∧ StronglySorted Z.lt (playedAt es i).
Proof.
  induction es as [|e es IH]; intros i; [split; constructor|].
  destruct (IH (i + 1)) as [Hr Hs]. cbn [playedAt].
  assert (Hr' : Forall (λ j, i < j < i + Z.of_nat (length (e :: es)))
                  (playedAt es (i + 1))).
  { eapply Forall_impl; [exact Hr|]. simpl. intros j Hj. lia. }
  destruct (played e); simpl.
  - split.
    + constructor; [simpl; lia|].
      eapply Forall_impl; [exact Hr'|]. simpl. intros j Hj. lia.
    + constructor; [exact Hs|].
      eapply Forall_impl; [exact Hr'|]. simpl. intros j Hj. lia.
  - split; [|exact Hs].
    eapply Forall_impl; [exact Hr'|]. simpl. intros j Hj. lia.
Qed.

Lemma StronglySorted_prefix (l1 l2 : list Z) :
  l1 `prefix_of` l2 → StronglySorted Z.lt l2 → StronglySorted Z.lt l1.
Proof.
  intros [l ->] H. revert H. induction l1 as [|x l1 IH]; [constructor|].
  simpl. intros H. apply StronglySorted_inv in H as [Hs Hx].
  apply Forall_app in Hx as [Hx _]. constructor; [apply IH, Hs | exact Hx].
Qed.

(** X14. However a playback goroutine is interleaved with other threads,
    and wherever it is stopped or interrupted, the values it has stored in
    position are, in order, the first indices of the played events
    before [to]: each is an index below [to], each is larger than the one
    stored before, and the pacing start has no part in them. *)
Theorem playback_stores_played_indices
    (cfg : Config) (from to : Z) (R : Shared → Shared → Prop)
    (sh : Shared) (tr : list (Shared * Label)) (p' : Prog) (sh' : Shared) :
  0 ≤ to ≤ nEvents cfg →
  texec R (playback cfg from to) sh tr p' sh' →
  stored tr `prefix_of` playedAt (take (Z.to_nat to) (sessionEvents cfg)) 0
  ∧ Forall (λ j, 0 ≤ j < to) (stored tr)
  ∧ StronglySorted Z.lt (stored tr).
Proof.
  intros Hto H.
  set (es := take (Z.to_nat to) (sessionEvents cfg)).
  assert (Hlen : length es = Z.to_nat to).
  { unfold es. rewrite length_take. unfold nEvents in Hto. lia. }
  assert (Hp : stored tr `prefix_of` playedAt es 0).
  { unfold playback, setState in H.
    assert (Hdrop : drop (Z.to_nat 0) (sessionEvents cfg)
                    = es ++ drop (Z.to_nat to) (sessionEvents cfg)).
    { simpl. unfold es. symmetry. apply take_drop. }
    tx H; [apply prefix_nil|].
    tx H; [apply prefix_nil|].
    tx H; [apply prefix_nil|].
    tx H; [apply prefix_nil|].
    rewrite !stored_cons. cbn [app].
    rewrite <- Hlen in H.
    eapply (playLoop_stored R cfg from p' sh' es 0 0); [lia | exact Hdrop | | exact H].
    intros r sh1 tr1 Hr. destruct r as [j| |].
    - destruct (decide (j = nEvents cfg)).
      + unfold notifyStopped in Hr.
        tx Hr; [reflexivity | |];
          apply (deferredStopped_stored R Done) in Hr; auto.
      + apply (deferredStopped_stored R Done) in Hr; auto.
    - apply (deferredStopped_stored R Done) in Hr; auto.
    - apply (deferredStopped_stored R Panic) in Hr; auto. }
  destruct (playedAt_sorted es 0) as [Hr Hs].
  split; [exact Hp|]. split.
  - destruct Hp as [l Hl]. rewrite Hl in Hr. apply Forall_app in Hr as [Hr _].
    eapply Forall_impl; [exact Hr|]. simpl. intros j Hj. lia.
  - eapply StronglySorted_prefix; eassumption.
Qed.

Lemma playback_stores_played_indices_witness :
  ∃ tr sh',
    texec anyEnv (playback cfgDemo 0 4) newSessionPlayer tr Done sh'
    ∧ stored tr = [0; 1; 2]
    ∧ stored tr `prefix_of` playedAt (take 4 (sessionEvents cfgDemo)) 0.
Proof.
  eexists _, _.
  match goal with |- ?A ∧ _ => assert (H : A) end.
  { apply solo_texec; [intros x; exact I|].
    apply (soloRun_solo 80). vm_compute. reflexivity. }
  split; [exact H|]. split; [reflexivity|].
  exact (proj1 (playback_stores_played_indices cfgDemo 0 4 anyEnv _ _ _ _
                  ltac:(unfold nEvents; simpl; lia) H)).
Defined.

(** ** A byte range outside the stream *)

(** One iteration of the loop on an event in bounds, with nobody asking to
    stop. *)
Lemma playLoop_iteration cfg from n i prev k sh e :
  mu sh = false → state sh ≠ stateStopping →
  sessionEvents cfg !! Z.to_nat i = Some e → inBounds cfg e = true →
  runs (playLoop cfg from (S n) i prev k) sh
    (if from <=? i then renderPaced cfg prev [e] else renderInstant cfg [e])
    (playLoop cfg from n (i + 1)
       (if (from <=? i) && isPrint e then eventTime e else prev) k)
    (if played e then set_position i sh else sh).
Proof.
  intros Hmu Hst Hlook He. cbn [playLoop].
  eapply (runs_trans _ _ []); [apply stopRequested_runs, Hmu|].
  rewrite bool_decide_eq_false_2 by exact Hst.
  rewrite Hlook. cbv beta iota.
  unfold renderInstant, isPrint, played. cbn [renderPaced flat_map].
  rewrite !app_nil_r.
  destruct (ev_type e) eqn:Htype.
  - destruct (inBounds_print cfg e Htype He) as [data Hslice].
    unfold rendered. rewrite Htype, Hslice.
    destruct (from <=? i); cbn [andb].
    + eapply runs_eq.
      { eapply runs_trans; [apply applyDelay_runs|].
        eapply (runs_trans _ _ [_] _ _ []); [apply runs_perform | apply storePosition_runs]. }
      { rewrite <- app_assoc. reflexivity. }
      { reflexivity. }
    + eapply (runs_trans _ _ [_] _ _ []); [apply runs_perform | apply storePosition_runs].
  - rewrite andb_false_r. unfold rendered. rewrite Htype.
    destruct (splitColon (ev_size e)) as [|width [|height [|? ?]]];
      destruct (from <=? i); try apply runs_refl;
      (eapply (runs_trans _ _ [_] _ _ []); [apply runs_perform | apply storePosition_runs]).
  - rewrite andb_false_r. unfold rendered. rewrite Htype.
    destruct (splitColon (ev_size e)) as [|width [|height [|? ?]]];
      destruct (from <=? i); try apply runs_refl;
      (eapply (runs_trans _ _ [_] _ _ []); [apply runs_perform | apply storePosition_runs]).
  - rewrite andb_false_r. unfold rendered. rewrite Htype.
    destruct (from <=? i); apply runs_refl.
Qed.

(** The rendering of the events from index [i] on, paced from [from]. *)
Lemma page_cons cfg from i prev e es :
  renderInstant cfg (take (Z.to_nat (from - i)) (e :: es))
  ++ renderPaced cfg prev (drop (Z.to_nat (from - i)) (e :: es))
  = (if from <=? i then renderPaced cfg prev [e] else renderInstant cfg [e])
    ++ renderInstant cfg (take (Z.to_nat (from - (i + 1))) es)
    ++ renderPaced cfg (if (from <=? i) && isPrint e then eventTime e else prev)
         (drop (Z.to_nat (from - (i + 1))) es).
Proof.
  unfold isPrint.
  destruct (Z.leb_spec from i).
  - replace (Z.to_nat (from - i)) with 0%nat by lia.
    replace (Z.to_nat (from - (i + 1))) with 0%nat by lia.
    simpl. destruct (ev_type e); rewrite ?app_nil_r, <- ?app_assoc; reflexivity.
  - replace (Z.to_nat (from - i)) with (S (Z.to_nat (from - (i + 1)))) by lia.
    unfold renderInstant. simpl. rewrite app_nil_r, <- app_assoc. reflexivity.
Qed.

(** The loop over the events [es], all in bounds, with [m] more iterations
    to go after them. *)
Lemma playLoop_runs_on cfg from m : ∀ es i prev k sh rest,
  mu sh = false → state sh ≠ stateStopping → 0 ≤ i →
  drop (Z.to_nat i) (sessionEvents cfg) = es ++ rest →
  forallb (inBounds cfg) es = true →
  ∃ prev',
    runs (playLoop cfg from (length es + m) i prev k) sh
      (renderInstant cfg (take (Z.to_nat (from - i)) es)
       ++ renderPaced cfg prev (drop (Z.to_nat (from - i)) es))
      (playLoop cfg from m (i + Z.of_nat (length es)) prev' k)
      (mkShared false (state sh) (lastPlayed es i (position sh))
         (stopOnce sh) (stopC sh)).
Proof.
  induction es as [|e es IH]; intros i prev k sh rest Hmu Hst Hi Hdrop Hin.
  - exists prev. simpl. rewrite Z.add_0_r, take_nil, drop_nil. simpl.
    eapply runs_eq; [apply runs_refl | reflexivity |].
    destruct sh; simpl in *; subst; reflexivity.
  - simpl in Hin. apply andb_prop in Hin as [He Hes].
    assert (Hlook : sessionEvents cfg !! Z.to_nat i = Some e).
    { rewrite <- (Nat.add_0_r (Z.to_nat i)), <- lookup_drop, Hdrop.
      reflexivity. }
    assert (Hdrop' : drop (Z.to_nat (i + 1)) (sessionEvents cfg) = es ++ rest).
    { replace (Z.to_nat (i + 1)) with (S (Z.to_nat i)) by lia.
      rewrite (drop_S _ _ _ Hlook) in Hdrop. simpl in Hdrop.
      injection Hdrop as Hd. exact Hd. }
    pose proof (playLoop_iteration cfg from (length es + m) i prev k sh e
                  Hmu Hst Hlook He) as Hone.
    set (sh1 := if played e then set_position i sh else sh) in *.
    assert (Hsh1 : mu sh1 = false ∧ state sh1 = state sh
                   ∧ stopOnce sh1 = stopOnce sh ∧ stopC sh1 = stopC sh
                   ∧ position sh1 = if played e then i else position sh).
    { unfold sh1. destruct (played e), sh; simpl in *; auto. }
    destruct Hsh1 as (Hmu1 & Hst1 & Ho1 & Hc1 & Hp1).
    destruct (IH (i + 1)
                (if (from <=? i) && isPrint e then eventTime e else prev)
                k sh1 rest Hmu1 ltac:(congruence) ltac:(lia) Hdrop' Hes)
      as [prev' Hrest].
    exists prev'.
    replace (i + Z.of_nat (length (e :: es)))
      with (i + 1 + Z.of_nat (length es)) by (simpl length; lia).
    eapply runs_eq; [eapply runs_trans; [exact Hone | exact Hrest]| |].
    + symmetry. apply page_cons.
    + simpl lastPlayed. rewrite Hst1, Ho1, Hc1, Hp1. reflexivity.
Qed.

(** One iteration of the loop on an output event whose byte range is not
    inside the stream: the delay is applied when the event is paced, and
    the slice expression panics. *)
Lemma playLoop_fault cfg from n i prev k sh e :
  mu sh = false → state sh ≠ stateStopping →
  sessionEvents cfg !! Z.to_nat i = Some e →
  ev_type e = SessionPrintEvent → inBounds cfg e = false →
  runs (playLoop cfg from (S n) i prev k) sh
    (if from <=? i
     then overlay cfg (ev_time e)
          ++ [ClockSleep (smoothDelay (wrap64 (eventTime e - prev)))]
     else [])
    (k Faulted) sh.
Proof.
  intros Hmu Hst Hlook Htype He. cbn [playLoop].
  eapply (runs_trans _ _ []); [apply stopRequested_runs, Hmu|].
  rewrite bool_decide_eq_false_2 by exact Hst.
  rewrite Hlook. cbv beta iota. rewrite Htype.
  assert (Hslice : sliceBytes (stream cfg) (ev_offset e)
                     (wrap64 (ev_offset e + ev_bytes e)) = None).
  { unfold inBounds in He. rewrite Htype in He.
    apply bool_decide_eq_false in He.
    destruct (sliceBytes _ _ _); [destruct He; eauto | reflexivity]. }
  rewrite Hslice.
  destruct (from <=? i).
  - apply (applyDelay_runs cfg prev e (λ _, k Faulted)).
  - apply runs_refl.
Qed.

(** X15. A playback that meets an output event whose byte range is not
    inside the stream, the events before it being in bounds, alone: it
    writes the events before that one, applies the delay of that event
    when it is paced (overlay and a sleep of at most one second), runs the
    deferred state update and ends in the run-time panic of the slice
    expression.  The player is left stopped at the last event played
    before, and the channel is not closed. *)
Theorem out_of_bounds_print_panics
    (cfg : Config) (from to j : Z) (sh : Shared) (e : EventFields) :
  mu sh = false → 0 ≤ j < to → to ≤ nEvents cfg →
  sessionEvents cfg !! Z.to_nat j = Some e →
  ev_type e = SessionPrintEvent → inBounds cfg e = false →
  forallb (inBounds cfg) (take (Z.to_nat j) (sessionEvents cfg)) = true →
  let before := take (Z.to_nat j) (sessionEvents cfg) in
  ∃ d, 0 ≤ d ≤ Second
    ∧ runs (playback cfg from to) sh
        ((renderInstant cfg (take (Z.to_nat from) before)
          ++ renderPaced cfg 0 (drop (Z.to_nat from) before))
         ++ (if from <=? j then overlay cfg (ev_time e) ++ [ClockSleep d]
             else []))
        Panic
        (mkShared false stateStopped (lastPlayed before 0 (position sh))
           (stopOnce sh) (stopC sh)).
Proof.
  intros Hmu Hj Hto Hlook Htype He Hin before.
  assert (Hlen : length before = Z.to_nat j).
  { unfold before. rewrite length_take. unfold nEvents in Hto. lia. }
  assert (Hdrop : drop (Z.to_nat 0) (sessionEvents cfg)
                  = before ++ drop (Z.to_nat j) (sessionEvents cfg)).
  { simpl. unfold before. symmetry. apply take_drop. }
  set (k := λ r, match r with
                 | FellThrough i =>
                     if decide (i = nEvents cfg)
                     then notifyStopped (deferredStopped Done)
                     else deferredStopped Done
                 | Returned => deferredStopped Done
                 | Faulted => deferredStopped Panic
                 end).
  destruct (playLoop_runs_on cfg from (S (Z.to_nat (to - j - 1))) before 0 0 k
              (set_state statePlaying sh) _
              ltac:(destruct sh; exact Hmu) ltac:(destruct sh; simpl; congruence)
              ltac:(lia) Hdrop Hin) as [prev' Hloop].
  replace (length before + S (Z.to_nat (to - j - 1)))%nat with (Z.to_nat to)
    in Hloop by lia.
  replace (0 + Z.of_nat (length before)) with j in Hloop by lia.
  rewrite Z.sub_0_r in Hloop.
  exists (smoothDelay (wrap64 (eventTime e - prev'))).
  split; [apply smoothDelay_bounds|].
  unfold playback. fold k.
  eapply runs_eq.
  { eapply runs_trans; [apply lockedSetState_runs, Hmu|].
    eapply runs_trans; [exact Hloop|].
    eapply runs_trans.
    - apply (playLoop_fault cfg from _ j prev' k _ e);
        [reflexivity | discriminate | exact Hlook | exact Htype | exact He].
    - apply deferredStopped_runs. reflexivity. }
  { simpl. rewrite app_nil_r. reflexivity. }
  { destruct sh as [m st pos once c]. reflexivity. }
Qed.

Lemma out_of_bounds_print_panics_witness :
  ∃ d io,
    runs (playback (mkConfig "hi"
                      [ mkEvent SessionPrintEvent 100 0 2 "" "t0";
                        mkEvent SessionPrintEvent 200 2 5 "" "t1" ] None) 0 2)
      newSessionPlayer io Panic (mkShared false stateStopped 0 false 0)
    ∧ io = [ClockSleep (100 * Millisecond); StdoutWrite "hi"; ClockSleep d].
Proof.
  destruct (out_of_bounds_print_panics
              (mkConfig "hi"
                 [ mkEvent SessionPrintEvent 100 0 2 "" "t0";
                   mkEvent SessionPrintEvent 200 2 5 "" "t1" ] None)
              0 2 1 newSessionPlayer
              (mkEvent SessionPrintEvent 200 2 5 "" "t1")
              eq_refl ltac:(lia) ltac:(unfold nEvents; simpl; lia)
              eq_refl eq_refl eq_refl eq_refl) as (d & _ & Hrun).
  exists d. eexists. split; [exact Hrun | reflexivity].
Defined.

(** ** The steps of a playback goroutine *)

Lemma emits_tstep A p sh l p' :
  emits A p → tstep p sh = Next l p' → A l ∧ emits A p'.
Proof.
  intros Hem Hs.
  destruct Hem; simpl in Hs;
    repeat match type of Hs with
           | context [if ?c then _ else _] => destruct c eqn:?
           end;
    try discriminate; injection Hs as <- <-;
    split; auto using emits.
Qed.

Lemma emits_texec A R p sh tr p' sh' :
  emits A p → texec R p sh tr p' sh' → Forall A (labels tr) ∧ emits A p'.
Proof.
  intros Hem H. revert Hem.
  induction H as [p sh | p sh l p1 sh1 tr p' sh' Hs HR H IH
                 | k sh sh1 tr p' sh' HR H IH]; intros Hem.
  - split; [constructor | exact Hem].
  - destruct (emits_tstep A p sh l p1 Hem Hs) as [Hl Hp1].
    destruct (IH Hp1) as [Hall Hp']. split; [|exact Hp'].
    rewrite labels_cons. constructor; assumption.
  - inversion Hem as [| | | | | | | |k' Hl Hk| | | | |]; subst.
    destruct (IH Hk) as [Hall Hp']. split; [|exact Hp'].
    rewrite labels_cons. constructor; assumption.
Qed.

Lemma playLoop_emits cfg from n : ∀ i prev k,
  (∀ r, emits playbackLabel (k r)) →
  emits playbackLabel (playLoop cfg from n i prev k).
Proof.
  induction n as [|n IH]; intros i prev k Hk; simpl; [apply Hk|].
  unfold stopRequested.
  constructor; [exact I|]. constructor; [intros s; exact I|]. intros s.
  constructor; [exact I|].
  destruct (bool_decide (s = stateStopping)); [apply Hk|].
  destruct (sessionEvents cfg !! Z.to_nat i) as [e|]; [|apply Hk].
  assert (Hwrite : ∀ io prev', emits playbackLabel
            (Perform io (StorePosition i (playLoop cfg from n (i + 1) prev' k)))).
  { intros io prev'. constructor; [exact I|]. constructor; [exact I|].
    apply IH, Hk. }
  destruct (ev_type e).
  - assert (Hrest : ∀ prev', emits playbackLabel
      match sliceBytes (stream cfg) (ev_offset e) (wrap64 (ev_offset e + ev_bytes e)) with
      | Some data =>
          Perform (StdoutWrite data) (StorePosition i (playLoop cfg from n (i + 1) prev' k))
      | None => k Faulted
      end).
    { intros prev'. destruct (sliceBytes _ _ _); [apply Hwrite | apply Hk]. }
    destruct (from <=? i); [|apply Hrest].
    unfold applyDelay, timestampFrame, esc.
    destruct (termWidth cfg); repeat (constructor; [exact I|]); apply Hrest.
  - destruct (splitColon (ev_size e)) as [|? [|? [|? ?]]];
      first [apply Hwrite | apply IH, Hk].
  - destruct (splitColon (ev_size e)) as [|? [|? [|? ?]]];
      first [apply Hwrite | apply IH, Hk].
  - apply IH, Hk.
Qed.

Lemma playbackBody_emits cfg from to :
  emits playbackLabel (playbackBody cfg from to).
Proof.
  assert (Hdef : ∀ k0, k0 = Done ∨ k0 = Panic →
            emits playbackLabel (deferredStopped k0)).
  { intros k0 Hk0. unfold deferredStopped, setState.
    constructor; [exact I|]. constructor; [discriminate|].
    constructor; [exact I|]. constructor; [exact I|].
    destruct Hk0 as [-> | ->]; constructor. }
  unfold playbackBody.
  apply playLoop_emits. intros r.
  destruct r as [i| |]; [destruct (decide (i = nEvents cfg))| |]; auto.
  unfold notifyStopped. constructor; [reflexivity | exact I | auto].
Qed.

Lemma playback_emits cfg from to : emits playbackLabel (playback cfg from to).
Proof.
  change (playback cfg from to)
    with (Lock (setState statePlaying (Unlock (playbackBody cfg from to)))).
  unfold setState.
  constructor; [exact I|]. constructor; [discriminate|].
  constructor; [exact I|]. constructor; [exact I|].
  apply playbackBody_emits.
Qed.

Lemma launched_playbackLabel tr :
  Forall playbackLabel (labels tr) → launched tr = [].
Proof.
  induction tr as [|[sh l] tr IH]; [reflexivity|].
  rewrite labels_cons. intros H. apply Forall_cons in H as [Hl H].
  destruct l; simpl in *; try (apply IH, H). destruct Hl.
Qed.

(** X16. However a playback goroutine is interleaved with other threads,
    every step it takes is one of these: it takes or releases the mutex,
    reads the state, sets statePlaying or stateStopped, broadcasts, stores
    a position, uses the Once to close the channel, writes or sleeps.  It
    launches no goroutine, never waits on the condition, never reads
    position and never sets stateStopping; and when it is blocked, it is
    at a p.Lock() while another thread holds the mutex. *)
Theorem playback_blocks_only_on_the_mutex
    (cfg : Config) (from to : Z) (R : Shared → Shared → Prop)
    (sh : Shared) (tr : list (Shared * Label)) (p' : Prog) (sh' : Shared) :
  texec R (playback cfg from to) sh tr p' sh' →
  Forall playbackLabel (labels tr)
  ∧ launched tr = []
  ∧ (tstep p' sh' = Blocked → mu sh' = true ∧ ∃ k, p' = Lock k).
Proof.
  intros H.
  destruct (emits_texec playbackLabel R _ _ _ _ _ (playback_emits cfg from to) H)
    as [Hall Hem].
  split; [exact Hall|]. split; [apply launched_playbackLabel, Hall|].
  intros Hb. destruct Hem; simpl in Hb;
    repeat match type of Hb with
           | context [if ?c then _ else _] => destruct c eqn:?
           end;
    try discriminate Hb.
  - split; [reflexivity | eauto].
  - match goal with H : playbackLabel LWake |- _ => destruct H end.
Qed.

Lemma playback_blocks_only_on_the_mutex_witness :
  ∃ tr p' sh',
    texec anyEnv (playback cfgOne 0 1) newSessionPlayer tr p' sh'
    ∧ tstep p' sh' = Blocked
    ∧ mu sh' = true ∧ ∃ k, p' = Lock k.
Proof.
  eexists _, _, _.
  match goal with |- ?A ∧ ?B ∧ _ => assert (H : A); [|assert (Hb : B)] end.
  { unfold playback, setState.
    (* the goroutine sets statePlaying, and a caller takes the mutex *)
    eapply (texec_step anyEnv _ _ _ _ (mkShared true stateStopped (-1) false 0));
      [reflexivity | exact I |].
    eapply (texec_step anyEnv _ _ _ _ (mkShared true statePlaying (-1) false 0));
      [reflexivity | exact I |].
    eapply (texec_step anyEnv _ _ _ _ (mkShared true statePlaying (-1) false 0));
      [reflexivity | exact I |].
    eapply (texec_step anyEnv _ _ _ _ (mkShared true statePlaying (-1) false 0));
      [reflexivity | exact I |].
    apply texec_stop. }
  { reflexivity. }
  split; [exact H|]. split; [exact Hb|].
  exact (proj2 (proj2 (playback_blocks_only_on_the_mutex cfgOne 0 1 anyEnv
                         _ _ _ _ H)) Hb).
Defined.

(** ** Schedules that run the goroutine to its end *)

Lemma run_app s1 s2 w : run (s1 ++ s2) w = run s2 (run s1 w).
Proof. revert w. induction s1 as [|t s1 IH]; intros w; simpl; [reflexivity | apply IH]. Qed.

Lemma output_app s1 s2 w :
  output (s1 ++ s2) w = output s1 w ++ output s2 (run s1 w).
Proof.
  revert w. induction s1 as [|t s1 IH]; intros w; simpl; [reflexivity|].
  rewrite IH, app_assoc. reflexivity.
Qed.

Lemma solo_not_parked p sh tr sh' : solo p sh tr Done sh' → wake p = p.
Proof.
  inversion 1 as [|? ? l p1 ? ? ? Hs]; subst; [reflexivity|].
  destruct p; try reflexivity. discriminate Hs.
Qed.

(** The second of two threads, run alone to its end beside a first that
    no broadcast can wake: the program does what the thread does alone. *)
Lemma run_worker q : wake q = q → ∀ p sh tr sh',
  solo p sh tr Done sh' → launched tr = [] →
  run (replicate (length tr) 1%nat) (mkWorld sh [q; p] false)
  = mkWorld sh' [q; Done] false
  ∧ output (replicate (length tr) 1%nat) (mkWorld sh [q; p] false) = ios tr.
Proof.
  intros Hq p sh tr sh' H. remember Done as d eqn:Hd.
  induction H as [p sh | p sh l p1 tr p' sh' Hs H IH]; intros Hl; subst.
  - split; reflexivity.
  - pose proof (solo_not_parked _ _ _ _ H) as Hp1.
    assert (Haft : after l [q; p1] = [q; p1]).
    { destruct l; try reflexivity.
      - simpl. rewrite Hq, Hp1. reflexivity.
      - discriminate Hl. }
    assert (Hl' : launched tr = []).
    { destruct l; try exact Hl. discriminate Hl. }
    destruct (IH eq_refl Hl') as [Hrun Hout].
    simpl length. cbn [replicate run output]. unfold step, performed. simpl.
    rewrite Hs. simpl. rewrite Haft. split.
    + exact Hrun.
    + rewrite Hout. destruct l; reflexivity.
Qed.

(** The body of the playback of a whole recording in bounds, alone, from
    the moment the state is statePlaying. *)
Lemma playbackBody_runs cfg from sh :
  mu sh = false → state sh = statePlaying → stopOnce sh = false →
  forallb (inBounds cfg) (sessionEvents cfg) = true →
  ∃ tr,
    solo (playbackBody cfg from (nEvents cfg)) sh tr Done
      (mkShared false stateStopped
         (lastPlayed (sessionEvents cfg) 0 (position sh)) true (S (stopC sh)))
    ∧ ios tr = renderInstant cfg (take (Z.to_nat from) (sessionEvents cfg))
               ++ renderPaced cfg 0 (drop (Z.to_nat from) (sessionEvents cfg))
    ∧ launched tr = [].
Proof.
  intros Hmu Hst Honce Hin.
  assert (Hrun : runs (playbackBody cfg from (nEvents cfg)) sh
            (renderInstant cfg (take (Z.to_nat from) (sessionEvents cfg))
             ++ renderPaced cfg 0 (drop (Z.to_nat from) (sessionEvents cfg)))
            Done
            (mkShared false stateStopped
               (lastPlayed (sessionEvents cfg) 0 (position sh)) true
               (S (stopC sh)))).
  { unfold playbackBody.
    pose proof (playLoop_runs cfg from (sessionEvents cfg) 0 0
      (λ r, match r with
            | FellThrough i =>
                if decide (i = nEvents cfg)
                then notifyStopped (deferredStopped Done)
                else deferredStopped Done
            | Returned => deferredStopped Done
            | Faulted => deferredStopped Panic
            end)
      sh [] Hmu ltac:(congruence) ltac:(lia)
      ltac:(simpl; rewrite app_nil_r; reflexivity) Hin) as Hloop.
    rewrite Z.sub_0_r in Hloop. cbv beta iota in Hloop.
    replace (Z.to_nat (nEvents cfg)) with (length (sessionEvents cfg))
      by (unfold nEvents; lia).
    change (0 + Z.of_nat (length (sessionEvents cfg))) with (0 + nEvents cfg) in Hloop.
    rewrite Z.add_0_l in Hloop.
    rewrite decide_True in Hloop by reflexivity.
    eapply runs_eq.
    { eapply runs_trans; [exact Hloop|].
      eapply runs_trans; [apply notifyStopped_runs|].
      apply deferredStopped_runs. simpl. rewrite Honce. reflexivity. }
    { rewrite !app_nil_r. reflexivity. }
    { simpl. rewrite Honce. simpl. rewrite Hst. reflexivity. } }
  destruct Hrun as (tr & Htr & Hio). exists tr.
  split; [exact Htr|]. split; [exact Hio|].
  apply launched_playbackLabel.
  eapply (emits_texec playbackLabel eq);
    [apply playbackBody_emits | apply solo_texec; [reflexivity | exact Htr]].
Qed.

Lemma Play_launches cfg :
  run [0; 0; 1; 1; 1; 1]%nat (initWorld cfg [[OpPlay]])
  = mkWorld (mkShared false statePlaying (-1) false 0)
      [Done; playbackBody cfg 0 (nEvents cfg)] false
  ∧ output [0; 0; 1; 1; 1; 1]%nat (initWorld cfg [[OpPlay]])
    = [StdoutWrite (String ESC "c")].
Proof.
  assert (H1 : (0 >? nEvents cfg) = false).
  { rewrite Z.gtb_ltb. apply Z.ltb_ge. apply nEvents_nonneg. }
  unfold initWorld, caller. cbn [fmap list_fmap foldr call].
  unfold Play, playRange. rewrite H1. cbn [orb Z.ltb Z.compare Z.eqb].
  split; reflexivity.
Qed.

(** X17. Play on a fresh player whose recording is in bounds, under the
    schedule that runs the caller and then the goroutine: both return, the
    program has written the clear sequence and then the paced rendering
    of the whole recording, and the player is stopped at the last event
    played, the channel closed once. *)
Theorem Play_completes_when_scheduled (cfg : Config) :
  forallb (inBounds cfg) (sessionEvents cfg) = true →
  ∃ sched,
    let w := run sched (initWorld cfg [[OpPlay]]) in
    threads w = [Done; Done]
    ∧ shared w = mkShared false stateStopped
                   (lastPlayed (sessionEvents cfg) 0 (-1)) true 1
    ∧ crashed w = false
    ∧ output sched (initWorld cfg [[OpPlay]])
      = StdoutWrite (String ESC "c") :: renderPaced cfg 0 (sessionEvents cfg).
Proof.
  intros Hin.
  destruct (playbackBody_runs cfg 0 (mkShared false statePlaying (-1) false 0)
              eq_refl eq_refl eq_refl Hin) as (tr & Htr & Hio & Hl).
  destruct (Play_launches cfg) as [Hrun0 Hout0].
  destruct (run_worker Done eq_refl _ _ _ _ Htr Hl) as [Hrun Hout].
  exists ([0; 0; 1; 1; 1; 1]%nat ++ replicate (length tr) 1%nat).
  cbv zeta. rewrite run_app, output_app, Hrun0, Hout0, Hrun, Hout, Hio.
  repeat split.
Qed.

Lemma Play_completes_when_scheduled_witness :
  ∃ sched,
    threads (run sched (initWorld cfgDemo [[OpPlay]])) = [Done; Done]
    ∧ shared (run sched (initWorld cfgDemo [[OpPlay]]))
      = mkShared false stateStopped 2 true 1.
Proof.
  destruct (Play_completes_when_scheduled cfgDemo eq_refl)
    as (sched & Hth & Hsh & _).
  exists sched. split; [exact Hth | exact Hsh].
Defined.

Lemma TogglePause_launches cfg :
  run (replicate 6 0%nat ++ replicate 4 1%nat) (initWorld cfg [[OpTogglePause]])
  = mkWorld (mkShared false statePlaying (-1) false 0)
      [Lock (WaitUntil statePlaying (Unlock Done));
       playbackBody cfg 0 (nEvents cfg)] false.
Proof.
  assert (H1 : (0 >? nEvents cfg) = false).
  { rewrite Z.gtb_ltb. apply Z.ltb_ge. apply nEvents_nonneg. }
  unfold initWorld, caller. cbn [fmap list_fmap foldr call].
  unfold TogglePause, playRange, newSessionPlayer.
  cbn [replicate app run]. unfold step at 1. cbn.
  unfold step at 1. cbn. unfold step at 1. cbn.
  rewrite H1. cbn [orb].
  reflexivity.
Qed.

(** X18. TogglePause on a fresh player whose recording is in bounds can
    wait for ever.  Under the schedule that lets the goroutine it launched
    run to its end before the caller, woken by the first broadcast, takes
    the mutex again, the caller finds stateStopped in
    waitUntil(statePlaying) and parks once more; the goroutine has
    returned, no thread can take a step, and the call never returns. *)
Theorem TogglePause_can_wait_forever (cfg : Config) :
  forallb (inBounds cfg) (sessionEvents cfg) = true →
  ∃ sched,
    let w := run sched (initWorld cfg [[OpTogglePause]]) in
    threads w = [Parked (Lock (WaitUntil statePlaying (Unlock Done))); Done]
    ∧ shared w = mkShared false stateStopped
                   (lastPlayed (sessionEvents cfg) 0 (-1)) true 1
    ∧ crashed w = false
    ∧ stuck w
    ∧ ∀ sched', run sched' w = w.
Proof.
  intros Hin.
  destruct (playbackBody_runs cfg 0 (mkShared false statePlaying (-1) false 0)
              eq_refl eq_refl eq_refl Hin) as (tr & Htr & _ & Hl).
  destruct (run_worker (Lock (WaitUntil statePlaying (Unlock Done))) eq_refl
              _ _ _ _ Htr Hl) as [Hrun _].
  exists ((replicate 6 0%nat ++ replicate 4 1%nat)
          ++ replicate (length tr) 1%nat ++ [0; 0]%nat).
  cbv zeta. rewrite run_app, TogglePause_launches, run_app, Hrun.
  set (w := run [0; 0]%nat _).
  assert (Hw : w = mkWorld
                 (mkShared false stateStopped
                    (lastPlayed (sessionEvents cfg) 0 (-1)) true 1)
                 [Parked (Lock (WaitUntil statePlaying (Unlock Done))); Done]
                 false) by reflexivity.
  assert (Hstuck : stuck w).
  { rewrite Hw. intros [|[|t]]; reflexivity. }
  split; [rewrite Hw; reflexivity|].
  split; [rewrite Hw; reflexivity|].
  split; [rewrite Hw; reflexivity|].
  split; [exact Hstuck|].
  clearbody w.
  intros sched'. induction sched' as [|t sched' IH]; simpl; [reflexivity|].
  rewrite (Hstuck t). simpl. exact IH.
Qed.

Lemma TogglePause_can_wait_forever_witness :
  ∃ sched,
    threads (run sched (initWorld cfgOne [[OpTogglePause]]))
    = [Parked (Lock (WaitUntil statePlaying (Unlock Done))); Done]
    ∧ stuck (run sched (initWorld cfgOne [[OpTogglePause]])).
Proof.
  destruct (TogglePause_can_wait_forever cfgOne eq_refl)
    as (sched & Hth & _ & _ & Hst & _).
  exists sched. split; [exact Hth | exact Hst].
Defined.
